(** * Record linkage engine: blocking, scoring, acceptance, resolution

    A shallow embedding of the linkage core of the repository
    (shared/record_linkage_shared and postprocessing/postprocess.py) and
    the properties its specification states about it.

    Conventions of the embedding:
    - a Python [dict] is a [gmap], a Python [set] a [gset];
    - a raised exception is the [Raise] branch of [result];
    - pandas columns of floats are rationals, with [None] for NaN;
    - SQL conditions are syntax trees evaluated in three-valued logic. *)

From Stdlib Require Import ZArith QArith Qpower Qabs Qround Lia Lqa.
From Stdlib Require Import Ascii String DecimalString.
From stdpp Require Import gmap strings list fin_maps fin_sets.

Local Open Scope string_scope.

(** * Exceptions *)

Inductive exn :=
  | KeyError
  | TypeError
  | AttributeError
  | IndexingError
  | IndexError
  | ValueError
  | SyntaxError
  | ProgrammingError
  | OutsideModel.

Inductive result (A : Type) :=
  | Ok (a : A)
  | Raise (e : exn).
Arguments Ok {A} a.
Arguments Raise {A} e.

Definition rbind {A B} (r : result A) (k : A → result B) : result B :=
  match r with
  | Ok a => k a
  | Raise e => Raise e
  end.

Notation "x ←ᵣ r ; k" := (rbind r (λ x, k))
  (at level 100, r at next level, right associativity).

(** [d[k]] on a dict: a missing key raises [KeyError]. *)
Definition getitem `{Countable K} {V} (d : gmap K V) (k : K) : result V :=
  match d !! k with
  | Some v => Ok v
  | None => Raise KeyError
  end.

(** [for k in keys: d[k] = v]. *)
Definition assign_all `{Countable K} {V} (keys : gset K) (v : V)
    (d : gmap K V) : gmap K V :=
  set_fold (λ k acc, <[k:=v]> acc) d keys.

(** * String helpers of the Python runtime (ASCII range) *)

(** [str.upper] *)
Definition upper_ascii (c : ascii) : ascii :=
  let n := nat_of_ascii c in
  if (97 <=? n)%nat && (n <=? 122)%nat then ascii_of_nat (n - 32) else c.

Fixpoint upper (s : string) : string :=
  match s with
  | EmptyString => EmptyString
  | String c s' => String (upper_ascii c) (upper s')
  end.

(** Whitespace removed by [str.strip]. *)
Definition is_space (c : ascii) : bool :=
  let n := nat_of_ascii c in
  ((9 <=? n)%nat && (n <=? 13)%nat) || ((28 <=? n)%nat && (n <=? 32)%nat).

Fixpoint lstrip (s : string) : string :=
  match s with
  | EmptyString => EmptyString
  | String c s' => if is_space c then lstrip s' else s
  end.

Fixpoint rstrip (s : string) : string :=
  match s with
  | EmptyString => EmptyString
  | String c s' =>
      match rstrip s' with
      | EmptyString => if is_space c then EmptyString else String c EmptyString
      | r => String c r
      end
  end.

Definition strip (s : string) : string := rstrip (lstrip s).

(** Text of ASCII characters. On such text [strip] is [str.strip] and
    [upper] is [str.upper]. Python also removes the blanks of Unicode
    outside ASCII (U+0085, U+00A0 and others) and changes the case of
    its letters (the long s U+017F becomes S), so what is proved of
    stripped ids and of flags read in upper case is proved for files
    whose ids and flags are ASCII text. *)
Definition is_ascii (c : ascii) : bool := (nat_of_ascii c <? 128)%nat.

Fixpoint ascii_text (s : string) : bool :=
  match s with
  | EmptyString => true
  | String c s' => is_ascii c && ascii_text s'
  end.

(** * The pairwise output file read by the resolver *)

Module PairFile.

(** The acceptance columns of the pairwise output file. *)
Inductive flag_col := match_strict | match_moderate | match_relaxed | match_review.

(** A row of the pairwise output as [csv.DictReader] yields it: every
    value is a string; a flag column missing from a short row is [None]. *)
Record line := mk_line {
  indv_id_a : string;
  indv_id_b : string;
  weight : string;
  passnum : string;
  flag : flag_col → option string
}.

(** The two ids of a row are ASCII text. *)
Definition ascii_ids (l : line) : bool :=
  ascii_text (indv_id_a l) && ascii_text (indv_id_b l).

(** The acceptance flags a row has are ASCII text. *)
Definition ascii_flags (l : line) : bool :=
  forallb (λ c, match flag l c with Some v => ascii_text v | None => true end)
    [match_strict; match_moderate; match_relaxed; match_review].

(** The cells of a pair file that the resolver transforms, the ids with
    [strip] and the flags with [upper], are ASCII text. *)
Definition ascii_cells (lines : list line) : bool :=
  forallb (λ l, ascii_ids l && ascii_flags l) lines.

End PairFile.
Export PairFile.

(** * shared/record_linkage_shared/union_find.py *)

Module UnionFind.

(** The hashable values put in groups: ids (strings) and, for M2M, the
    tuple [(a, b, passnum)]. *)
Inductive item :=
  | Atom (s : string)
  | Triple (a b : string) (passnum : string).

Global Instance item_eq_dec : EqDecision item.
Proof. solve_decision. Defined.

Global Instance item_countable : Countable item.
Proof.
  refine (inj_countable'
    (λ i, match i with
          | Atom s => inl s
          | Triple a b p => inr (a, b, p)
          end)
    (λ x, match x with
          | inl s => Atom s
          | inr (a, b, p) => Triple a b p
          end) _).
  by intros [].
Defined.

Record t := mk {
  group_to_item_set : gmap nat (gset item);
  item_to_group : gmap item nat;
  group_to_top_group : gmap nat nat;
  top_group_to_merged_groups : gmap nat (gset nat);
  count : nat
}.

(** [__init__] *)
Definition init : t :=
  {| group_to_item_set := ∅; item_to_group := ∅; group_to_top_group := ∅;
     top_group_to_merged_groups := ∅; count := 1 |}.

(** Calling a dict: [dict] defines no [__call__], so the call raises
    [TypeError] whatever the argument. *)
Definition call_dict `{Countable K} {V R} (d : gmap K V) (arg : K) : result R :=
  Raise TypeError.

(** [find]: [return self.item_to_group(item)]. *)
Definition find (uf : t) (i : item) : result nat :=
  call_dict (item_to_group uf) i.

(** What the docstring of [find] describes: indexing the dict. *)
Definition find_by_index (uf : t) (i : item) : result nat :=
  getitem (item_to_group uf) i.

(** [group in group_to_top_group and other == group_to_top_group[group]] *)
Definition merged_into (gttg : gmap nat nat) (group other : nat) : bool :=
  match gttg !! group with
  | Some top => bool_decide (other = top)
  | None => false
  end.

Definition union (group_a group_b : nat) (uf : t) : result t :=
  if bool_decide (group_a = group_b) then Ok uf else
  let gttg := group_to_top_group uf in
  let gtis := group_to_item_set uf in
  let itg := item_to_group uf in
  let tg := top_group_to_merged_groups uf in
  if merged_into gttg group_a group_b then Ok uf else
  if merged_into gttg group_b group_a then Ok uf else
  let top_a := default group_a (gttg !! group_a) in
  let top_b := default group_b (gttg !! group_b) in
  group_b_set ←ᵣ getitem gtis top_b;
  set_a ←ᵣ getitem gtis top_a;
  let gtis := <[top_a := set_a ∪ group_b_set]> gtis in
  let gtis := delete top_b gtis in
  let gttg := <[group_b := top_a]> gttg in
  let gttg := <[top_b := top_a]> gttg in
  let tg :=
    match tg !! top_a with
    | Some m => <[top_a := m ∪ {[group_b]} ∪ {[top_b]}]> tg
    | None => <[top_a := {[group_b]} ∪ {[top_b]}]> tg
    end in
  let tg :=
    match tg !! top_b with
    | Some mb => <[top_a := default ∅ (tg !! top_a) ∪ mb]> tg
    | None => tg
    end in
  let '(gttg, tg) :=
    match tg !! top_b with
    | Some mb => (assign_all mb top_a gttg, delete top_b tg)
    | None => (gttg, tg)
    end in
  let itg := assign_all group_b_set top_a itg in
  Ok {| group_to_item_set := gtis; item_to_group := itg;
        group_to_top_group := gttg; top_group_to_merged_groups := tg;
        count := count uf |}.

(** [d[g].add(x)] *)
Definition set_add (g : nat) (x : item) (gtis : gmap nat (gset item))
    : result (gmap nat (gset item)) :=
  s ←ᵣ getitem gtis g; Ok (<[g := s ∪ {[x]}]> gtis).

Definition with_sets (uf : t) (gtis : gmap nat (gset item)) : t :=
  {| group_to_item_set := gtis; item_to_group := item_to_group uf;
     group_to_top_group := group_to_top_group uf;
     top_group_to_merged_groups := top_group_to_merged_groups uf;
     count := count uf |}.

Definition with_items (uf : t) (itg : gmap item nat) : t :=
  {| group_to_item_set := group_to_item_set uf; item_to_group := itg;
     group_to_top_group := group_to_top_group uf;
     top_group_to_merged_groups := top_group_to_merged_groups uf;
     count := count uf |}.

Definition with_tops (uf : t) (gttg : gmap nat nat) : t :=
  {| group_to_item_set := group_to_item_set uf;
     item_to_group := item_to_group uf;
     group_to_top_group := gttg;
     top_group_to_merged_groups := top_group_to_merged_groups uf;
     count := count uf |}.

Definition incr_count (uf : t) : t :=
  {| group_to_item_set := group_to_item_set uf;
     item_to_group := item_to_group uf;
     group_to_top_group := group_to_top_group uf;
     top_group_to_merged_groups := top_group_to_merged_groups uf;
     count := S (count uf) |}.

Definition add_item_dedup (group : nat) (i : item) (uf : t) : result t :=
  let itg := item_to_group uf in
  let gtis := group_to_item_set uf in
  let gttg := group_to_top_group uf in
  match itg !! i with
  | Some cur =>
      (* Item has already been added to a group. *)
      if bool_decide (group = cur) then Ok uf
      else if bool_decide (group ∈ dom gtis) then
        uf ←ᵣ union cur group uf; Ok (incr_count uf)
      else
        match gttg !! group with
        | Some top =>
            if bool_decide (top ≠ cur) then
              uf ←ᵣ union top cur uf; Ok (incr_count uf)
            else Ok (incr_count uf)
        | None =>
            uf ←ᵣ union cur group (with_sets uf (<[group := {[i]}]> gtis));
            Ok (incr_count uf)
        end
  | None =>
      (* Item has not been added to any group. *)
      match gttg !! group with
      | Some top_group =>
          gtis ←ᵣ set_add top_group i gtis;
          Ok (incr_count (with_items (with_sets uf gtis) (<[i := top_group]> itg)))
      | None =>
          match gtis !! group with
          | Some s =>
              Ok (incr_count (with_items (with_sets uf (<[group := s ∪ {[i]}]> gtis))
                                         (<[i := group]> itg)))
          | None =>
              Ok (incr_count (with_items (with_sets uf (<[group := {[i]}]> gtis))
                                         (<[i := group]> itg)))
          end
      end
  end.

(** [self.group_to_item_set[grp].add(x)] on the whole structure. *)
Definition add_to (grp : nat) (x : item) (uf : t) : result t :=
  gtis ←ᵣ set_add grp x (group_to_item_set uf); Ok (with_sets uf gtis).

Definition set_group (x : item) (grp : nat) (uf : t) : t :=
  with_items uf (<[x := grp]> (item_to_group uf)).

Definition add_item_M2M (group : nat) (ab : string * string) (passnum : string)
    (uf : t) : result t :=
  let '(a, b) := ab in
  let it := Triple a b passnum in
  let uf := with_sets uf (<[group := {[it]}]> (group_to_item_set uf)) in
  let uf := set_group it group uf in
  match item_to_group uf !! Atom a with
  | Some grp =>
      match item_to_group uf !! Atom b with
      | None =>
          uf ←ᵣ union grp group uf;
          let uf := set_group (Atom b) grp uf in
          uf ←ᵣ add_to grp it uf;
          uf ←ᵣ add_to grp (Atom b) uf;
          Ok (incr_count uf)
      | Some grpb =>
          if bool_decide (grp ≠ grpb) then
            uf ←ᵣ union grp group uf;
            uf ←ᵣ union grp grpb uf;
            ga ←ᵣ getitem (item_to_group uf) (Atom a);
            let uf := set_group (Atom b) ga uf in
            ga ←ᵣ getitem (item_to_group uf) (Atom a);
            uf ←ᵣ add_to ga it uf;
            Ok (incr_count uf)
          else
            uf ←ᵣ union grp group uf;
            uf ←ᵣ add_to grp it uf;
            Ok (incr_count uf)
      end
  | None =>
      match item_to_group uf !! Atom b with
      | Some grpb =>
          uf ←ᵣ union grpb group uf;
          let uf := set_group (Atom a) grpb uf in
          uf ←ᵣ add_to grpb it uf;
          uf ←ᵣ add_to grpb (Atom a) uf;
          Ok (incr_count uf)
      | None =>
          let uf := with_tops uf (<[group := group]> (group_to_top_group uf)) in
          let uf := set_group (Atom a) group uf in
          let uf := set_group (Atom b) group uf in
          uf ←ᵣ add_to group (Atom a) uf;
          uf ←ᵣ add_to group (Atom b) uf;
          Ok (incr_count uf)
      end
  end.

(** ** The invariants of the structure *)

(** The three invariants the specification states: every recorded item
    is a member of the set of its group; every alias maps to a group
    that still has a set; no item is in the sets of two groups. *)
Definition stated_invariants (uf : t) : Prop :=
  (∀ i g, item_to_group uf !! i = Some g →
     ∃ s, group_to_item_set uf !! g = Some s ∧ i ∈ s)
  ∧ (∀ g top, group_to_top_group uf !! g = Some top →
       is_Some (group_to_item_set uf !! top))
  ∧ (∀ g1 g2 s1 s2 i,
       group_to_item_set uf !! g1 = Some s1 →
       group_to_item_set uf !! g2 = Some s2 → i ∈ s1 → i ∈ s2 → g1 = g2).

(** What holds of items and sets between two operations: membership
    both ways, and a pair tuple sits with its two ids. *)
Record wf_items (gtis : gmap nat (gset item)) (itg : gmap item nat) : Prop := {
  wf_member : ∀ i g, itg !! i = Some g → ∃ s, gtis !! g = Some s ∧ i ∈ s;
  wf_group : ∀ g s i, gtis !! g = Some s → i ∈ s → itg !! i = Some g;
  wf_triple : ∀ a b p g, itg !! Triple a b p = Some g →
                itg !! Atom a = Some g ∧ itg !! Atom b = Some g
}.

(** What holds of group names at any time: an alias maps to a group
    with a set; a group with a set is its own alias at most; an alias is
    recorded among the merged groups of its top group; a merged group
    has no set and has an alias; top groups have sets. *)
Record wf_groups (live : gset nat) (gttg : gmap nat nat)
    (tg : gmap nat (gset nat)) : Prop := {
  wf_alias : ∀ g top, gttg !! g = Some top → top ∈ live;
  wf_self : ∀ g top, gttg !! g = Some top → g ∈ live → top = g;
  wf_tracked : ∀ g top, gttg !! g = Some top → g ≠ top →
                 ∃ m, tg !! top = Some m ∧ g ∈ m;
  wf_merged : ∀ top m g, tg !! top = Some m → g ∈ m →
                (g ∉ live) ∧ is_Some (gttg !! g);
  wf_tops : ∀ top m, tg !! top = Some m → top ∈ live
}.

Definition wf (uf : t) : Prop :=
  wf_items (group_to_item_set uf) (item_to_group uf)
  ∧ wf_groups (dom (group_to_item_set uf)) (group_to_top_group uf)
      (top_group_to_merged_groups uf).

(** The group names in use. *)
Definition groups (uf : t) : gset nat :=
  dom (group_to_item_set uf) ∪ dom (group_to_top_group uf).

(** The structures obtained the way [add_csv] and the resolver drive
    the class: ids added with [add_item_dedup], pairs added with
    [add_item_M2M] under a group name not used before, and [union]
    applied to two groups that have sets. *)
Inductive reachable : t → Prop :=
  | reach_init : reachable init
  | reach_dedup uf group s uf' :
      reachable uf →
      add_item_dedup group (Atom s) uf = Ok uf' → reachable uf'
  | reach_M2M uf group a b passnum uf' :
      reachable uf → (group ∉ groups uf) →
      add_item_M2M group (a, b) passnum uf = Ok uf' → reachable uf'
  | reach_union uf group_a group_b uf' :
      reachable uf →
      group_a ∈ dom (group_to_item_set uf) →
      group_b ∈ dom (group_to_item_set uf) →
      union group_a group_b uf = Ok uf' → reachable uf'.

(** Three ids under three group names, the second and the third group
    merged into the first, then [union] called on the two merged names. *)
Definition merged_names_example : result t :=
  uf ←ᵣ add_item_dedup 0 (Atom "x") init;
  uf ←ᵣ add_item_dedup 1 (Atom "y") uf;
  uf ←ᵣ add_item_dedup 2 (Atom "z") uf;
  uf ←ᵣ union 0 1 uf;
  uf ←ᵣ union 0 2 uf;
  union 1 2 uf.

(** Two pairs added under one group name. *)
Definition reused_name_example : result t :=
  uf ←ᵣ add_item_M2M 0 ("a", "b") "0" init;
  add_item_M2M 0 ("c", "d") "0" uf.

Inductive matchtype := MT_121 | MT_12M | MT_M21 | MT_M2M | MT_dedup.

(** [strictness is None or row[strictness] is None or
     row[strictness].upper() != "FALSE"] *)
Definition row_taken (strictness : option flag_col) (l : line) : bool :=
  match strictness with
  | None => true
  | Some c =>
      match flag l c with
      | Some v => negb (String.eqb (upper v) "FALSE")
      | None => true
      end
  end.

(** [add_csv]: the file is the list of its data rows; the updated
    structure is returned next to the last row id. *)
Fixpoint add_csv (lines : list line) (mt : matchtype)
    (strictness : option flag_col) (rowid : nat) (uf : t) : result (nat * t) :=
  match lines with
  | [] => Ok (rowid, uf)
  | row :: rest =>
      if row_taken strictness row then
        uf ←ᵣ
          match mt with
          | MT_dedup =>
              uf ←ᵣ add_item_dedup rowid (Atom (strip (indv_id_a row))) uf;
              add_item_dedup rowid (Atom (strip (indv_id_b row))) uf
          | _ =>
              add_item_M2M rowid
                ("a_" ++ strip (indv_id_a row), "b_" ++ strip (indv_id_b row))
                (passnum row) uf
          end;
        add_csv rest mt strictness (S rowid) uf
      else add_csv rest mt strictness rowid uf
  end.

(** ** What the structure holds *)

(** [x] is recorded in the structure, as a key of [item_to_group] or as
    a member of a set. *)
Definition holds (uf : t) (x : item) : Prop :=
  x ∈ dom (item_to_group uf)
  ∨ ∃ g s, group_to_item_set uf !! g = Some s ∧ x ∈ s.

(** From [uf] to [uf'] no key of [item_to_group] is lost, and what
    [uf'] holds was held by [uf] or is in [X]. *)
Definition extends (uf uf' : t) (X : gset item) : Prop :=
  dom (item_to_group uf) ⊆ dom (item_to_group uf')
  ∧ ∀ x, holds uf' x → holds uf x ∨ x ∈ X.

(** The tuple [add_csv] makes of a row for the matchtypes other than
    dedup, and the two ids it adds with it. *)
Definition pair_item (l : line) : item :=
  Triple ("a_" ++ strip (indv_id_a l)) ("b_" ++ strip (indv_id_b l)) (passnum l).

Definition pair_items (l : line) : gset item :=
  {[ pair_item l; Atom ("a_" ++ strip (indv_id_a l));
     Atom ("b_" ++ strip (indv_id_b l)) ]}.

(** [x] and [y] are recorded under one group name. *)
Definition same_group (uf : t) (x y : item) : Prop :=
  ∃ g, item_to_group uf !! x = Some g ∧ item_to_group uf !! y = Some g.

(** The group a name stands for: its top group once it is merged. *)
Definition top_of (uf : t) (g : nat) : nat :=
  default g (group_to_top_group uf !! g).

(** Two ids are linked by a pair file: the least equivalence that holds
    of the two ids of every row the resolver takes. *)
Inductive linked (strictness : option flag_col) (lines : list line)
    : string → string → Prop :=
  | linked_refl x : linked strictness lines x x
  | linked_row l :
      l ∈ lines → row_taken strictness l = true →
      linked strictness lines (strip (indv_id_a l)) (strip (indv_id_b l))
  | linked_sym x y :
      linked strictness lines x y → linked strictness lines y x
  | linked_trans x y z :
      linked strictness lines x y → linked strictness lines y z →
      linked strictness lines x z.

(** The same on items: two ids that are linked. *)
Definition linked_items (strictness : option flag_col) (lines : list line)
    (x y : item) : Prop :=
  ∃ a b, x = Atom a ∧ y = Atom b ∧ linked strictness lines a b.

(** Two rows taken of a pair file are chained: the least symmetric and
    transitive relation that holds of two rows taken with the same
    indv_id_a or the same indv_id_b, blanks around the ids removed. *)
Inductive chained (strictness : option flag_col) (lines : list line)
    : line → line → Prop :=
  | chained_a l l' :
      l ∈ lines → row_taken strictness l = true →
      l' ∈ lines → row_taken strictness l' = true →
      strip (indv_id_a l) = strip (indv_id_a l') →
      chained strictness lines l l'
  | chained_b l l' :
      l ∈ lines → row_taken strictness l = true →
      l' ∈ lines → row_taken strictness l' = true →
      strip (indv_id_b l) = strip (indv_id_b l') →
      chained strictness lines l l'
  | chained_sym l l' :
      chained strictness lines l l' → chained strictness lines l' l
  | chained_trans l l' l'' :
      chained strictness lines l l' → chained strictness lines l' l'' →
      chained strictness lines l l''.

(** The same on items: the tuples and ids of two rows that are chained. *)
Definition chained_items (strictness : option flag_col) (lines : list line)
    (x y : item) : Prop :=
  ∃ l l', x ∈ pair_items l ∧ y ∈ pair_items l' ∧ chained strictness lines l l'.

End UnionFind.

(** * postprocessing/postprocess.py *)

Module Postprocess.

(** The value lists [[partner, weight, deleted, passnum]] of the
    matching dictionaries (positions 0 to 3). *)
Record entry := mk_entry {
  partner : string;
  eweight : string;
  deleted : bool;
  epass : string
}.

Global Instance entry_eq_dec : EqDecision entry.
Proof. solve_decision. Defined.

(** [e[2] = True] *)
Definition mark (e : entry) : entry :=
  {| partner := partner e; eweight := eweight e; deleted := true;
     epass := epass e |}.

(** [strictness is None or line[strictness].upper() != "FALSE"];
    [None.upper()] raises [AttributeError]. *)
Definition considered (strictness : option flag_col) (l : line) : result bool :=
  match strictness with
  | None => Ok true
  | Some c =>
      match flag l c with
      | Some v => Ok (negb (String.eqb (upper v) "FALSE"))
      | None => Raise AttributeError
      end
  end.

(** [k in d and w == d[k][1]] *)
Definition same_weight (d : gmap string entry) (k w : string) : bool :=
  match d !! k with
  | Some e => String.eqb w (eweight e)
  | None => false
  end.

Abbreviation matching := (gmap string entry * gmap string entry)%type.

(** [[a, weight, True, line['passnum']]] and its unmarked form. *)
Definition new_entry (other : string) (l : line) (del : bool) : entry :=
  mk_entry other (weight l) del (passnum l).

(** The first [if]/[elif] of the equal-weight branch: the entry of [a]. *)
Definition tie_on_a (st : matching) (l : line) : result matching :=
  let '(a_to_b, b_to_a) := st in
  let a := indv_id_a l in
  let b := indv_id_b l in
  match a_to_b !! a with
  | Some e =>
      if bool_decide (b ≠ partner e) then
        let del_b := partner e in
        let a_to_b := <[a := mark e]> a_to_b in
        eb ←ᵣ getitem b_to_a del_b;
        if bool_decide (partner eb = a)
        then Ok (a_to_b, <[del_b := mark eb]> b_to_a)
        else Ok (a_to_b, b_to_a)
      else Ok (a_to_b, b_to_a)
  | None => Ok (<[a := new_entry b l true]> a_to_b, b_to_a)
  end.

(** The second [if]/[elif] of the equal-weight branch: the entry of [b].
    The [elif] tests [a], not [b], against the keys of [idx_match_b_to_a]. *)
Definition tie_on_b (st : matching) (l : line) : result matching :=
  let '(a_to_b, b_to_a) := st in
  let a := indv_id_a l in
  let b := indv_id_b l in
  let otherwise :=
    if bool_decide (a ∉ dom b_to_a)
    then Ok (a_to_b, <[b := new_entry a l true]> b_to_a)
    else Ok (a_to_b, b_to_a) in
  match b_to_a !! b with
  | Some e =>
      if bool_decide (a ≠ partner e) then
        let del_a := partner e in
        ea ←ᵣ getitem a_to_b del_a;
        let a_to_b :=
          if bool_decide (partner ea = b)
          then <[del_a := mark ea]> a_to_b else a_to_b in
        Ok (a_to_b, <[b := mark e]> b_to_a)
      else otherwise
  | None => otherwise
  end.

(** Body of the loop of [one_to_one_matching] for a considered line. *)
Definition one_to_one_step (st : matching) (l : line) : result matching :=
  let '(a_to_b, b_to_a) := st in
  let a := indv_id_a l in
  let b := indv_id_b l in
  let w := weight l in
  if same_weight a_to_b a w || same_weight b_to_a b w then
    (* weight is the same of previous match *)
    st ←ᵣ tie_on_a st l; tie_on_b st l
  else if bool_decide (a ∉ dom a_to_b) && bool_decide (b ∉ dom b_to_a) then
    (* match should be added *)
    Ok (<[a := new_entry b l false]> a_to_b, <[b := new_entry a l false]> b_to_a)
  else Ok (a_to_b, b_to_a).

Fixpoint one_to_one_loop (strictness : option flag_col) (lines : list line)
    (st : matching) : result matching :=
  match lines with
  | [] => Ok st
  | l :: rest =>
      c ←ᵣ considered strictness l;
      st ←ᵣ (if c then one_to_one_step st l else Ok st);
      one_to_one_loop strictness rest st
  end.

(** [one_to_one_matching]: the file is the list of its data rows, in
    order; the function returns [idx_match_a_to_b]. *)
Definition one_to_one_matching (lines : list line) (strictness : option flag_col)
    : result (gmap string entry) :=
  st ←ᵣ one_to_one_loop strictness lines (∅, ∅); Ok (fst st).

(** The rows [write_to_csv] writes for matchtype 121, 12M or M21, after
    the header, given [matches.items()] in the dict's iteration order. *)
Definition write_weights_rows (items : list (string * entry)) (key_flag : nat)
    : list (list string) :=
  flat_map (λ kv : string * entry,
    let '(id_1, row) := kv in
    if deleted row then []
    else
      let m := [id_1; partner row] in
      [[nth key_flag m ""; nth (Nat.max key_flag 1 - Nat.min key_flag 1) m "";
        epass row]]) items.

Definition header_weights : list string := ["indv_id_a"; "indv_id_b"; "passnum"].

(** The partner recorded for an id is a key of the other dictionary. *)
Definition cross_present (st : matching) : Prop :=
  (∀ a e, fst st !! a = Some e → is_Some (snd st !! partner e))
  ∧ (∀ b e, snd st !! b = Some e → is_Some (fst st !! partner e)).

(** [e'] is [e], possibly marked as deleted since. *)
Definition same_match (e e' : entry) : Prop :=
  partner e' = partner e ∧ eweight e' = eweight e
  ∧ (deleted e = true → deleted e' = true).

(** The entries of [d] are still in [d'], with the same partner. *)
Definition keeps_partners (d d' : gmap string entry) : Prop :=
  ∀ k e, d !! k = Some e → ∃ e', d' !! k = Some e' ∧ partner e' = partner e.

(** The entries of [d] are still in [d'], marked at most. *)
Definition keeps_matches (d d' : gmap string entry) : Prop :=
  ∀ k e, d !! k = Some e → ∃ e', d' !! k = Some e' ∧ same_match e e'.

(** Every row has the flag column the strictness names. *)
Definition readable (strictness : option flag_col) (lines : list line) : Prop :=
  Forall (λ l, ∃ c, considered strictness l = Ok c) lines.

(** [d'] has no key beyond those of [d] and [k0]. *)
Definition adds_at_most (k0 : string) (d d' : gmap string entry) : Prop :=
  ∀ k, d !! k = None → k ≠ k0 → d' !! k = None.

(** [for id_a in all_ids: unionfind.add_item_dedup(rowid, id_a[0]); rowid += 1] *)
Fixpoint add_all_ids (all_ids : list string) (rowid : nat) (uf : UnionFind.t)
    : result UnionFind.t :=
  match all_ids with
  | [] => Ok uf
  | id_a :: rest =>
      uf ←ᵣ UnionFind.add_item_dedup rowid (UnionFind.Atom id_a) uf;
      add_all_ids rest (S rowid) uf
  end.

(** [mtom_or_dedup_matching]. The argument [all_ids] is the answer of the
    database to [SELECT distinct indv_id FROM table_a] when a
    configuration is passed, and [None] when it is not. *)
Definition mtom_or_dedup_matching (lines : list line) (mt : UnionFind.matchtype)
    (strictness : option flag_col) (all_ids : option (list string))
    : result (gmap nat (gset UnionFind.item)) :=
  r ←ᵣ UnionFind.add_csv lines mt strictness 0 UnionFind.init;
  let '(rowid, uf) := r in
  uf ←ᵣ
    match mt, all_ids with
    | UnionFind.MT_dedup, Some ids => add_all_ids ids rowid uf
    | _, _ => Ok uf
    end;
  Ok (UnionFind.group_to_item_set uf).

(** A cell handed to [csv.writer.writerow]. *)
Inductive cell :=
  | CItem (i : UnionFind.item)
  | CStr (s : string)
  | CInt (n : nat).

(** [s[2:]] *)
Definition drop2 (s : string) : string :=
  match s with
  | String _ (String _ r) => r
  | _ => EmptyString
  end.

(** The rows [write_to_csv] writes for matchtype M2M or dedup, after the
    header. [matches.items()] is given in the dict's iteration order and
    each set as the list of its elements in the set's iteration order;
    [i] is the position given by [enumerate]. *)
Fixpoint write_groups_rows (mt : UnionFind.matchtype) (i : nat)
    (items : list (nat * list UnionFind.item)) : list (list cell) :=
  match items with
  | [] => []
  | (id_1, row) :: rest =>
      flat_map (λ match_ids,
        match match_ids, mt with
        | UnionFind.Triple a b _, UnionFind.MT_M2M =>
            [[CStr (drop2 a); CStr (drop2 b); CInt i; CInt id_1]]
        | _, UnionFind.MT_dedup => [[CItem match_ids; CInt i]]
        | _, _ => []
        end) row
      ++ write_groups_rows mt (S i) rest
  end.

(** [items] lists a dict of sets in some iteration order. *)
Definition lists_dict (items : list (nat * list UnionFind.item))
    (d : gmap nat (gset UnionFind.item)) : Prop :=
  NoDup items.*1 ∧
  (∀ g l, (g, l) ∈ items → NoDup l ∧ d !! g = Some (list_to_set l)) ∧
  (∀ g s, d !! g = Some s → ∃ l, (g, l) ∈ items).

(** [id] is one of the two ids of a row the resolver takes. *)
Definition paired (strictness : option flag_col) (lines : list line)
    (id : string) : Prop :=
  ∃ l, l ∈ lines ∧ UnionFind.row_taken strictness l = true
       ∧ (strip (indv_id_a l) = id ∨ strip (indv_id_b l) = id).

(** The specification's words for the crosswalk of a dedup match: an id
    that is alone in its group is in no row of the file. *)
Definition spec_omits_singletons (d : gmap nat (gset UnionFind.item))
    (rows : list (list cell)) : Prop :=
  ∀ g id, d !! g = Some {[UnionFind.Atom id]} →
    ∀ i, [CItem (UnionFind.Atom id); CInt i] ∉ rows.

(** ** The one-to-many resolver *)

(** [line[c]] for the columns of the pair file that hold text in every
    row. Other column names are outside the rows modelled. *)
Definition column (l : line) (c : string) : result string :=
  if String.eqb c "indv_id_a" then Ok (indv_id_a l)
  else if String.eqb c "indv_id_b" then Ok (indv_id_b l)
  else if String.eqb c "weight" then Ok (weight l)
  else if String.eqb c "passnum" then Ok (passnum l)
  else Raise OutsideModel.

(** [line['weight'] == d[many][1] and one != d[many][0]] *)
Definition ties (e : entry) (one w : string) : bool :=
  String.eqb w (eweight e) && negb (String.eqb one (partner e)).

(** Body of the loop of [mone_or_onem_matching] for a considered line. *)
Definition mone_or_onem_step (onecol manycol : string) (d : gmap string entry)
    (l : line) : result (gmap string entry) :=
  one ←ᵣ column l onecol;
  many ←ᵣ column l manycol;
  match d !! many with
  | Some e => if ties e one (weight l) then Ok (<[many := mark e]> d) else Ok d
  | None => Ok (<[many := mk_entry one (weight l) false (passnum l)]> d)
  end.

Fixpoint mone_or_onem_loop (strictness : option flag_col)
    (onecol manycol : string) (lines : list line) (d : gmap string entry)
    : result (gmap string entry) :=
  match lines with
  | [] => Ok d
  | l :: rest =>
      c ←ᵣ considered strictness l;
      d ←ᵣ (if c then mone_or_onem_step onecol manycol d l else Ok d);
      mone_or_onem_loop strictness onecol manycol rest d
  end.

(** [mone_or_onem_matching]: the file is the list of its data rows. *)
Definition mone_or_onem_matching (lines : list line)
    (strictness : option flag_col) (onecol : string)
    : result (gmap string entry) :=
  let manycol :=
    if String.eqb onecol "indv_id_a" then "indv_id_b" else "indv_id_a" in
  mone_or_onem_loop strictness onecol manycol lines ∅.

(** The id columns of a row by role, for the two calls of the script:
    [onecol] is ["indv_id_a"] (matchtype 12M) or ["indv_id_b"] (M21). *)
Definition onecol_of (a_is_one : bool) : string :=
  if a_is_one then "indv_id_a" else "indv_id_b".

Definition one_id (a_is_one : bool) (l : line) : string :=
  if a_is_one then indv_id_a l else indv_id_b l.

Definition many_id (a_is_one : bool) (l : line) : string :=
  if a_is_one then indv_id_b l else indv_id_a l.

(** The [key_flag] the script passes to [write_to_csv]: 1 for 12M, where
    the keys of the dictionary are ids of file B, 0 otherwise. *)
Definition key_flag_of (a_is_one : bool) : nat := if a_is_one then 1 else 0.

(** The row is taken by the resolver. *)
Definition taken (strictness : option flag_col) (l : line) : bool :=
  match considered strictness l with
  | Ok true => true
  | _ => false
  end.

(** A taken row with the many-id and the weight of [l] and another
    one-id. *)
Definition rivals (strictness : option flag_col) (a_is_one : bool) (l r : line)
    : bool :=
  taken strictness r
  && String.eqb (many_id a_is_one r) (many_id a_is_one l)
  && String.eqb (weight r) (weight l)
  && negb (String.eqb (one_id a_is_one r) (one_id a_is_one l)).

(** [e'] is [e], or [e] marked as deleted. *)
Definition marked (e e' : entry) : Prop := e' = e ∨ e' = mark e.

End Postprocess.

(** * shared/record_linkage_shared/match_functions.py *)

Module MatchFunctions.

Local Open Scope Q_scope.

(** A float of a pandas column: a rational, or NaN. *)
Abbreviation float := (option Q).

(** Elementwise [==] on floats: false as soon as one side is NaN. *)
Definition feq (x y : float) : bool :=
  match x, y with
  | Some a, Some b => Qeq_bool a b
  | _, _ => false
  end.

(** [np.isnan] *)
Definition isnan (x : float) : bool :=
  match x with
  | None => true
  | Some _ => false
  end.

(** ** CompareBmonthBday *)

Record CompareBmonthBday := {
  swap_month_day : Q;
  either_month_day : Q;
  missing_value : Q
}.

(** [sim[(sim == 0) & mask] = v] on one row. *)
Definition assign_where_zero (sim : Q) (mask : bool) (v : Q) : Q :=
  if Qeq_bool sim 0 && mask then v else sim.

(** [CompareBmonthBday._compute_vectorized] on one row. *)
Definition compute_bmonthbday (self : CompareBmonthBday)
    (s1_m s1_d s2_m s2_d : float) : Q :=
  let sim := if feq s1_m s2_m && feq s1_d s2_d then 1 else 0 in
  let sim := assign_where_zero sim (feq s1_d s2_m && feq s1_m s2_d)
               (swap_month_day self) in
  let sim := assign_where_zero sim (feq s1_m s2_m || feq s1_d s2_d)
               (either_month_day self) in
  let sim := assign_where_zero sim
               (isnan s1_m || isnan s1_d || isnan s2_m || isnan s2_d)
               (missing_value self) in
  sim.

(** The tiers as the specification words them, top to bottom. *)
Definition spec_bmonthbday (self : CompareBmonthBday)
    (s1_m s1_d s2_m s2_d : float) : Q :=
  if feq s1_m s2_m && feq s1_d s2_d then 1
  else if feq s1_d s2_m && feq s1_m s2_d then swap_month_day self
  else if xorb (feq s1_m s2_m) (feq s1_d s2_d) then either_month_day self
  else if isnan s1_m || isnan s1_d || isnan s2_m || isnan s2_d
       then missing_value self
  else 0.

(** ** The frame handed to [calculate_weights] *)

(** A cell of a data frame. *)
Inductive value :=
  | VStr (s : string)
  | VInt (z : Z)
  | VFloat (q : Q)
  | VNaN
  | VBool (b : bool).

(** One row of a frame: its cells by column, in column order. *)
Abbreviation frame_row := (list (string * value)).

Definition col (r : frame_row) (c : string) : option value :=
  snd <$> List.find (λ cv, String.eqb (fst cv) c) r.

Definition dropped_columns : list string :=
  ["indv_id_a"; "indv_id_b"; "idx_a"; "idx_b"; "passnum"].

Definition is_dropped (c : string) : bool :=
  existsb (String.eqb c) dropped_columns.

(** [.replace(-1, .5)] on one cell. *)
Definition replace_missing (v : value) : value :=
  match v with
  | VInt z => if (z =? -1)%Z then VFloat (1 # 2) else v
  | VFloat q => if Qeq_bool q (-1) then VFloat (1 # 2) else v
  | _ => v
  end.

(** [.fillna(0)] on one cell: NaN is a cell of a float column, and the
    column keeps its type. *)
Definition fillna0 (v : value) : value :=
  match v with
  | VNaN => VFloat 0
  | _ => v
  end.

(** ** The arithmetic of the evaluated expression *)

(** An int64 after wrap-around. *)
Definition wrap64 (z : Z) : Z := ((z + 2 ^ 63) mod 2 ^ 64 - 2 ^ 63)%Z.

(** A number of binary64: [m * 2^e] with [|m| < 2^53]. *)
Definition binary64 (q : Q) : Prop :=
  ∃ m e : Z, (Z.abs m < 2 ^ 53)%Z ∧ (-1074 <= e <= 971)%Z
             ∧ q == inject_Z m * 2 ^ e.

(** The rounding of binary64 arithmetic is the parameter [rnd] of the
    definitions below. What is used of it is what rounding to nearest
    gives: it is monotone and leaves the numbers of binary64 unchanged. *)
Record rounding (rnd : Q → Q) : Prop := {
  rnd_mono : ∀ x y, x <= y → rnd x <= rnd y;
  rnd_exact : ∀ q, binary64 q → rnd q == q
}.

(** A value of the expression: an int64 or a binary64. *)
Inductive number :=
  | NInt (z : Z)
  | NFloat (q : Q).

(** An operand of a float operation. *)
Definition as_float (rnd : Q → Q) (n : number) : Q :=
  match n with
  | NInt z => rnd (inject_Z z)
  | NFloat q => q
  end.

Definition value_of (n : number) : Q :=
  match n with
  | NInt z => inject_Z z
  | NFloat q => q
  end.

(** [acc + column] on one row. An int64 added to an int64 or to a
    boolean is an int64 and wraps around; with a float operand the sum
    is the rounded binary64 sum. *)
Definition add_cell (rnd : Q → Q) (acc : number) (v : value) : result number :=
  match v, acc with
  | VInt y, NInt z => Ok (NInt (wrap64 (z + y)))
  | VBool b, NInt z => Ok (NInt (wrap64 (z + Z.b2z b)))
  | VInt y, NFloat q => Ok (NFloat (rnd (q + rnd (inject_Z y))))
  | VBool b, NFloat q => Ok (NFloat (rnd (q + inject_Z (Z.b2z b))))
  | VFloat x, _ => Ok (NFloat (rnd (as_float rnd acc + x)))
  | VNaN, _ => Raise TypeError
  | VStr _, _ => Raise TypeError
  end.

(** The left-to-right sum [acc + c1 + ... + cn] of the evaluated string. *)
Fixpoint eval_sum (rnd : Q → Q) (acc : number) (cells : list value)
    : result number :=
  match cells with
  | [] => Ok acc
  | v :: rest => acc ←ᵣ add_cell rnd acc v; eval_sum rnd acc rest
  end.

(** [10 ** (tot_pass_cnt - passnum)]. On an int64 column the difference
    and the power are int64 and wrap around, and a negative exponent
    raises [ValueError]. On a float64 column the power is a float: it is
    the exact power of ten for a whole exponent from 0 to 22, where the
    power is a number of binary64; other float exponents have no model
    here and are reported as [OutsideModel]. *)
Definition ten_to_the (tot_pass_cnt : Z) (passnum : value) : result number :=
  match passnum with
  | VInt p =>
      let k := wrap64 (tot_pass_cnt - p) in
      if (k <? 0)%Z then Raise ValueError else Ok (NInt (wrap64 (10 ^ k)))
  | VFloat p =>
      let k := (tot_pass_cnt - Qfloor p)%Z in
      if Qeq_bool p (inject_Z (Qfloor p)) && (0 <=? k)%Z && (k <=? 22)%Z
      then Ok (NFloat (inject_Z (10 ^ k)))
      else Raise OutsideModel
  | VBool _ => Raise OutsideModel
  | VNaN => Raise OutsideModel
  | VStr _ => Raise TypeError
  end.

(** [calculate_weights] on one row: the value stored in its [weight]
    column. [drop] raises [KeyError] on a missing label; with no column
    left the evaluated string ends in [+] and does not parse. *)
Definition calculate_weights (rnd : Q → Q) (r : frame_row) (tot_pass_cnt : Z)
    : result Q :=
  if forallb (λ c, bool_decide (is_Some (col r c))) dropped_columns then
    let summed := List.filter (λ cv, negb (is_dropped (fst cv))) r in
    let env := λ v, fillna0 (replace_missing v) in
    match summed with
    | [] => Raise SyntaxError
    | _ =>
        match env <$> col r "passnum" with
        | Some p =>
            acc ←ᵣ ten_to_the tot_pass_cnt p;
            w ←ᵣ eval_sum rnd acc (map (λ cv, env (snd cv)) summed);
            Ok (value_of w)
        | None => Raise KeyError
        end
    end
  else Raise KeyError.

(** ** CompareByear *)

Module Byear.

Record CompareByear := {
  within_year_dif : Q;
  missing_value : Q;
  year_dif : Q
}.

(** [abs(s1 - s2) <= d] on floats: false as soon as one side is NaN. *)
Definition within (s1 s2 : float) (d : Q) : bool :=
  match s1, s2 with
  | Some a, Some b => Qle_bool (Qabs (a - b)) d
  | _, _ => false
  end.

(** [CompareByear._compute_vectorized] on one row. *)
Definition compute_byear (self : CompareByear) (s1 s2 : float) : Q :=
  let sim := if feq s1 s2 then 1 else 0 in
  let sim := assign_where_zero sim (within s1 s2 (year_dif self))
               (within_year_dif self) in
  let sim := assign_where_zero sim (isnan s1 || isnan s2) (missing_value self) in
  sim.

(** The tiers of the docstring, the first that applies. *)
Definition tiers_byear (self : CompareByear) (s1 s2 : float) : Q :=
  if feq s1 s2 then 1
  else if within s1 s2 (year_dif self) then within_year_dif self
  else if isnan s1 || isnan s2 then missing_value self
  else 0.

End Byear.

(** ** CompareMinitial *)

Module Minitial.

Record CompareMinitial := {
  minit_match_mname_unclear : Q;
  missing_value : Q
}.

(** A cell of a column of texts: a text, or missing (None or NaN). *)
Abbreviation text := (option string).

(** Elementwise [==] on a column of texts: false as soon as one side is
    missing. *)
Definition teq (x y : text) : bool :=
  match x, y with
  | Some u, Some v => String.eqb u v
  | _, _ => false
  end.

(** [s.str.len() == 1]: the length of a missing text is NaN. *)
Definition one_letter (x : text) : bool :=
  match x with
  | Some u => (String.length u =? 1)%nat
  | None => false
  end.

(** [s.isnull()] *)
Definition isnull (x : text) : bool :=
  match x with
  | Some _ => false
  | None => true
  end.

(** [CompareMinitial._compute_vectorized] on one row. *)
Definition compute_minitial (self : CompareMinitial)
    (s1_minit s1_mname s2_minit s2_mname : text) : Q :=
  let sim := if teq s1_minit s2_minit
                && (one_letter s1_mname || one_letter s2_mname)
             then 1 else 0 in
  let sim := assign_where_zero sim (teq s1_minit s2_minit)
               (minit_match_mname_unclear self) in
  let sim := assign_where_zero sim (isnull s1_minit || isnull s2_minit)
               (missing_value self) in
  sim.

(** The tiers of the docstring, the first that applies. *)
Definition tiers_minitial (self : CompareMinitial)
    (s1_minit s1_mname s2_minit s2_mname : text) : Q :=
  if teq s1_minit s2_minit
  then if one_letter s1_mname || one_letter s2_mname then 1
       else minit_match_mname_unclear self
  else if isnull s1_minit || isnull s2_minit then missing_value self
  else 0.

End Minitial.

End MatchFunctions.

(** * shared/record_linkage_shared/accept.py *)

Module Accept.

(** A row of [df_match]: a candidate pair, its pass and its similarity
    scores by comparison name (NaN where the comparison does not apply). *)
Record candidate := mk_candidate {
  indv_id_a : string;
  indv_id_b : string;
  idx_a : Z;
  idx_b : Z;
  passnum : Z;
  scores : list (string * MatchFunctions.float)
}.

(** A row with the four boolean columns [accept_matches] adds. *)
Record accepted := mk_accepted {
  pair : candidate;
  match_strict : bool;
  match_moderate : bool;
  match_relaxed : bool;
  match_review : bool
}.

(** The module [accept_functions], default or project-specific: for a
    pass number and a strictness, [getattr] finds the function
    [accept_p<passnum>_<strictness>] or raises [AttributeError]; called
    on the frame, the masks and the thresholds (here [M]) the function
    raises (a column it reads is missing) or yields one boolean per row. *)
Definition accept_functions (M : Type) : Type :=
  Z → flag_col → result (M → result (candidate → bool)).

(** [accept_fn(df_match, masks, thresholds)] for one strictness. *)
Definition call_accept_fn {M} (fns : accept_functions M) (passnum : Z)
    (strictness : flag_col) (m : M) : result (candidate → bool) :=
  accept_fn ←ᵣ fns passnum strictness; accept_fn m.

(** The loop over [('strict', 'moderate', 'relaxed', 'review')]: each
    column is the function's answer or-ed with the previous column. *)
Definition evaluate {M} (fns : accept_functions M) (passnum : Z) (m : M)
    : result (candidate → accepted) :=
  let accepted_in_prev_strictness := λ _ : candidate, false in
  f ←ᵣ call_accept_fn fns passnum PairFile.match_strict m;
  let strict := λ r, f r || accepted_in_prev_strictness r in
  f ←ᵣ call_accept_fn fns passnum PairFile.match_moderate m;
  let moderate := λ r, f r || strict r in
  f ←ᵣ call_accept_fn fns passnum PairFile.match_relaxed m;
  let relaxed := λ r, f r || moderate r in
  f ←ᵣ call_accept_fn fns passnum PairFile.match_review m;
  let review := λ r, f r || relaxed r in
  Ok (λ r, mk_accepted r (strict r) (moderate r) (relaxed r) (review r)).

(** [accept_matches]. [prepare] stands for the first part of the
    function, which derives the thresholds and masks from the frame and
    the configuration. The mask [this_pass] selects the rows written and
    read back; the final boolean indexing raises [IndexingError] when the
    mask leaves a row of the frame out. *)
Definition accept_matches {M} (prepare : list candidate → result M)
    (fns : accept_functions M) (df_match : list candidate) (pass : Z)
    : result (list accepted) :=
  m ←ᵣ prepare df_match;
  flags ←ᵣ evaluate fns pass m;
  if forallb (λ r, (passnum r =? pass)%Z) df_match
  then Ok (List.filter match_review (map flags df_match))
  else Raise IndexingError.

(** The default [accept_functions] for pass 0: all four return [True]. *)
Definition accept_p0 {M} : accept_functions M :=
  λ passnum _, if (passnum =? 0)%Z then Ok (λ _, Ok (λ _, true))
               else Raise AttributeError.

(** [strict ⇒ moderate ⇒ relaxed ⇒ review] on one row. *)
Definition monotone (r : accepted) : Prop :=
  (match_strict r = true → match_moderate r = true)
  ∧ (match_moderate r = true → match_relaxed r = true)
  ∧ (match_relaxed r = true → match_review r = true).

End Accept.

(** * The frame [run_match_parallelized] hands to [calculate_weights] *)

Module Driver.

Import MatchFunctions.

Definition float_cell (x : float) : value :=
  match x with
  | Some q => VFloat q
  | None => VNaN
  end.

(** The candidate columns read from the candidates table. *)
Definition id_cells (c : Accept.candidate) : frame_row :=
  [("indv_id_a", VStr (Accept.indv_id_a c));
   ("indv_id_b", VStr (Accept.indv_id_b c));
   ("idx_a", VInt (Accept.idx_a c));
   ("idx_b", VInt (Accept.idx_b c))].

(** The comparison columns. *)
Definition score_cells (l : list (string * float)) : frame_row :=
  map (λ s, (fst s, float_cell (snd s))) l.

(** The four columns added by [accept_matches]. *)
Definition flag_cells (r : Accept.accepted) : frame_row :=
  [("match_strict", VBool (Accept.match_strict r));
   ("match_moderate", VBool (Accept.match_moderate r));
   ("match_relaxed", VBool (Accept.match_relaxed r));
   ("match_review", VBool (Accept.match_review r))].

(** The [passnum] column of the frame: an int64 column, or a float64
    column when the frame went through a concatenation that made it
    one. *)
Definition passnum_cell (float_passnum : bool) (p : Z) : value :=
  if float_passnum then VFloat (inject_Z p) else VInt p.

(** The columns of an accepted row after [pd.concat]. The frame has the
    columns of the first frame concatenated, in their order: the
    candidate columns, its comparison columns, [passnum] and the four
    flags; then come the comparison columns that only the frames after
    it have ([later]). A row has NaN in the comparison columns that the
    frame of its pass does not have. *)
Definition to_frame (float_passnum : bool) (r : Accept.accepted)
    (later : list (string * float)) : frame_row :=
  let c := Accept.pair r in
  (id_cells c ++ score_cells (Accept.scores c)
   ++ (("passnum", passnum_cell float_passnum (Accept.passnum c))
       :: flag_cells r)
   ++ score_cells later)%list.

(** The weight column of an accepted row. *)
Definition weight (rnd : Q → Q) (float_passnum : bool) (r : Accept.accepted)
    (later : list (string * float)) (tot_pass_cnt : Z) : result Q :=
  calculate_weights rnd (to_frame float_passnum r later) tot_pass_cnt.

(** The clamp of the specification: the sentinel -1 counts 0.5, an
    absent score counts 0. *)
Definition clamp (x : float) : Q :=
  match x with
  | Some q => if Qeq_bool q (-1) then 1 # 2 else q
  | None => 0
  end.

Definition sum_scores (l : list (string * float)) : Q :=
  fold_right (λ s acc, clamp (snd s) + acc)%Q 0%Q l.

(** The weight as the specification words it. *)
Definition spec_weight (r : Accept.accepted) (tot_pass_cnt : Z) : Q :=
  (10 ^ (tot_pass_cnt - Accept.passnum (Accept.pair r))
   + sum_scores (Accept.scores (Accept.pair r)))%Q.

Definition flag_value (b : bool) : Q := if b then 1%Q else 0%Q.

(** What the four boolean columns add to the evaluated sum. *)
Definition sum_flags (r : Accept.accepted) : Q :=
  (flag_value (Accept.match_strict r) + flag_value (Accept.match_moderate r)
   + flag_value (Accept.match_relaxed r) + flag_value (Accept.match_review r))%Q.

(** The comparison names are not names of dropped columns. *)
Definition names_ok (l : list (string * float)) : bool :=
  forallb (λ s, negb (is_dropped (fst s))) l.



(** What the columns of a row add to the power of ten, in column order:
    its scores after the clamp, its four flags, then its scores in the
    columns that stand after the flags. *)
Definition flag_values (r : Accept.accepted) : list Q :=
  [flag_value (Accept.match_strict r); flag_value (Accept.match_moderate r);
   flag_value (Accept.match_relaxed r); flag_value (Accept.match_review r)].

Definition addends (r : Accept.accepted) (later : list (string * float))
    : list Q :=
  (map (λ s, clamp (snd s)) (Accept.scores (Accept.pair r)) ++ flag_values r
   ++ map (λ s, clamp (snd s)) later)%list.

(** The sum [acc + x1 + ... + xn] from the left in binary64 arithmetic:
    every addition is rounded. *)
Fixpoint float_sum (rnd : Q → Q) (acc : Q) (xs : list Q) : Q :=
  match xs with
  | [] => acc
  | x :: rest => float_sum rnd (rnd (acc + x)%Q) rest
  end.

(** Every partial sum of [acc + x1 + ... + xn] is a number of binary64. *)
Fixpoint exact_sums (acc : Q) (xs : list Q) : Prop :=
  match xs with
  | [] => True
  | x :: rest => binary64 (acc + x)%Q ∧ exact_sums (acc + x)%Q rest
  end.

End Driver.

(** * shared/record_linkage_shared/block_functions.py *)

Module BlockFunctions.

(** ** The tables and the conditions sent to the database *)

(** SQL truth values. *)
Inductive tv := TRUE | FALSE | NULL.

Definition tv_of_bool (b : bool) : tv := if b then TRUE else FALSE.

Definition and3 (x y : tv) : tv :=
  match x, y with
  | FALSE, _ | _, FALSE => FALSE
  | TRUE, TRUE => TRUE
  | _, _ => NULL
  end.

Definition or3 (x y : tv) : tv :=
  match x, y with
  | TRUE, _ | _, TRUE => TRUE
  | FALSE, FALSE => FALSE
  | _, _ => NULL
  end.

Definition not3 (x : tv) : tv :=
  match x with
  | TRUE => FALSE
  | FALSE => TRUE
  | NULL => NULL
  end.

(** The type of the [idx] column. The loaders of the repository
    (preprocessing/import_prepped_data.py, preprocessing/run_preprocess.py)
    create every column as [TEXT]; a table already in the database may
    have an integer [idx]. *)
Inductive coltype := TEXT | INTEGER.

(** A row of an input table: its row number and its other columns by
    name, a column without value being NULL. A [TEXT] [idx] holds the
    decimal writing of the row number. *)
Record record := mk_record {
  idx : N;
  fields : gmap string string
}.

(** [x = y] *)
Definition eq3 (x y : option string) : tv :=
  match x, y with
  | Some u, Some v => tv_of_bool (String.eqb u v)
  | _, _ => NULL
  end.

(** [x != y] *)
Definition ne3 (x y : option string) : tv := not3 (eq3 x y).

(** [x IS NOT NULL] *)
Definition is_not_null (x : option string) : tv :=
  match x with
  | Some _ => TRUE
  | None => FALSE
  end.

Definition decimal (n : N) : string := NilEmpty.string_of_uint (N.to_uint n).

(** [a.idx < b.idx]: by value on integers, by characters on text. *)
Definition idx_lt (ty : coltype) (a b : record) : tv :=
  match ty with
  | INTEGER => tv_of_bool (idx a <? idx b)%N
  | TEXT => tv_of_bool (String.ltb (decimal (idx a)) (decimal (idx b)))
  end.

(** The text [join_cond_str]: the blocks [(a.x = b.y AND a.x != ''
    AND a.x IS NOT NULL)] joined by [AND]; no block is the empty text. *)
Abbreviation join_cond := (list (string * string)).

(** The text [past_join_cond_str]: parenthesised join conditions joined
    by [OR]; no condition is the empty text. *)
Abbreviation past_join_cond := (list join_cond).

(** The text [join_cond_fullstr] sent as the [ON] clause. *)
Inductive full_cond :=
  | Join (j : join_cond)
  | AndNotPast (c : full_cond) (past : past_join_cond)
  | AndIdxLt (c : full_cond)
  | AndIdNe (c : full_cond) (indv_id_a indv_id_b : string).

Definition eval_block (a b : record) (blk : string * string) : tv :=
  let x := fields a !! fst blk in
  let y := fields b !! snd blk in
  and3 (and3 (eq3 x y) (ne3 x (Some ""))) (is_not_null x).

(** A chain [c1 AND c2 AND ... AND cn], n > 0, read from the left. *)
Definition eval_join (a b : record) (j : join_cond) : tv :=
  match j with
  | [] => NULL
  | blk :: rest => fold_left (λ acc blk, and3 acc (eval_block a b blk)) rest
                             (eval_block a b blk)
  end.

(** A chain [(j1) OR (j2) OR ... OR (jn)], n > 0, read from the left. *)
Definition eval_past (a b : record) (past : past_join_cond) : tv :=
  match past with
  | [] => NULL
  | j :: rest => fold_left (λ acc j, or3 acc (eval_join a b j)) rest
                           (eval_join a b j)
  end.

Fixpoint eval_full (ty : coltype) (a b : record) (c : full_cond) : tv :=
  match c with
  | Join j => eval_join a b j
  | AndNotPast c past => and3 (eval_full ty a b c) (not3 (eval_past a b past))
  | AndIdxLt c => and3 (eval_full ty a b c) (idx_lt ty a b)
  | AndIdNe c ia ib =>
      and3 (eval_full ty a b c) (ne3 (fields a !! ia) (fields b !! ib))
  end.

(** An empty [join_cond_str] or an empty join inside the past
    conditions leaves the statement without an operand: the database
    refuses it. *)
Fixpoint well_formed (c : full_cond) : bool :=
  match c with
  | Join j => negb (bool_decide (j = []))
  | AndNotPast c past =>
      well_formed c && forallb (λ j, negb (bool_decide (j = []))) past
  | AndIdxLt c => well_formed c
  | AndIdNe c _ _ => well_formed c
  end.

(** A row of a candidates table. *)
Record pair := mk_pair {
  indv_id_a : option string;
  indv_id_b : option string;
  idx_a : N;
  idx_b : N
}.

Global Instance pair_eq_dec : EqDecision pair.
Proof. solve_decision. Defined.

(** ** The functions of the module *)

(** [get_pass_join_cond]; [passblocks_b[i]] raises [IndexError] when
    the second list is the shorter one. *)
Definition get_pass_join_cond (passblocks_a passblocks_b : list string)
    : result join_cond :=
  if (length passblocks_a <=? length passblocks_b)%nat
  then Ok (combine passblocks_a passblocks_b)
  else Raise IndexError.

Definition exclude_past_join_cond (join_cond_str : join_cond)
    (past_join_cond_str : past_join_cond) : full_cond :=
  match past_join_cond_str with
  | [] => Join join_cond_str
  | _ => AndNotPast (Join join_cond_str) past_join_cond_str
  end.

Definition update_past_join_cond (join_cond_str : join_cond)
    (past_join_cond_str : past_join_cond) : past_join_cond :=
  match past_join_cond_str with
  | [] => [join_cond_str]
  | _ => past_join_cond_str ++ [join_cond_str]
  end.

(** [execute_blocking_join]: the rows of the candidates table created
    by the inner join, the pairs on which the condition is true. *)
Definition execute_blocking_join (ty : coltype) (table_a table_b : list record)
    (indv_id_a indv_id_b : string) (join_cond_fullstr : full_cond)
    : result (list pair) :=
  if well_formed join_cond_fullstr then
    Ok (flat_map (λ a,
          flat_map (λ b,
            match eval_full ty a b join_cond_fullstr with
            | TRUE => [mk_pair (fields a !! indv_id_a) (fields b !! indv_id_b)
                               (idx a) (idx b)]
            | _ => []
            end) table_b) table_a)
  else Raise ProgrammingError.

(** [find_pass_candidates]: the new past conditions and the candidates
    table it creates. *)
Definition find_pass_candidates (ty : coltype)
    (passblocks_a passblocks_b : list string) (indv_id_a indv_id_b : string)
    (past_join_cond_str : past_join_cond) (table_a table_b : list record)
    (dedup : bool) : result (past_join_cond * list pair) :=
  join_cond_str ←ᵣ get_pass_join_cond passblocks_a passblocks_b;
  let join_cond_fullstr :=
    exclude_past_join_cond join_cond_str past_join_cond_str in
  let join_cond_fullstr :=
    if dedup
    then AndIdNe (AndIdxLt join_cond_fullstr) indv_id_a indv_id_b
    else join_cond_fullstr in
  cands ←ᵣ execute_blocking_join ty table_a table_b indv_id_a indv_id_b
             join_cond_fullstr;
  Ok (update_past_join_cond join_cond_str past_join_cond_str, cands).

(** ['_inv' in s] *)
Fixpoint contains_inv (s : string) : bool :=
  match s with
  | EmptyString => false
  | String _ r => String.prefix "_inv" s || contains_inv r
  end.

(** [s.replace('_inv', '')]: [skip] counts the characters of a found
    occurrence still to be dropped. *)
Fixpoint remove_inv_from (skip : nat) (s : string) : string :=
  match s with
  | EmptyString => EmptyString
  | String c r =>
      match skip with
      | S k => remove_inv_from k r
      | O => if String.prefix "_inv" s then remove_inv_from 3 r
             else String c (remove_inv_from 0 r)
      end
  end.

Definition remove_inv (s : string) : string := remove_inv_from 0 s.

(** [[vars[v] for v in blocking_vars if v in vars]] *)
Definition source_names (vars : gmap string string) (blocking_vars : list string)
    : list string :=
  omap (λ v, vars !! v) blocking_vars.

(** [run_blocking_pass]: the new past conditions and, when the pass is
    run, the candidates table it creates. *)
Definition run_blocking_pass (ty : coltype) (blocks_by_pass : list (list string))
    (passnum : nat) (vars_a vars_b : gmap string string) (name_b : string)
    (past_join_cond_str : past_join_cond) (table_a table_b : list record)
    : result (past_join_cond * option (list pair)) :=
  match blocks_by_pass !! passnum with
  | None => Raise IndexError
  | Some blocking_vars =>
      indv_id_a ←ᵣ getitem vars_a "indv_id";
      indv_id_b ←ᵣ getitem vars_b "indv_id";
      let dedup := String.eqb name_b "dedup" in
      let table_b := if dedup then table_a else table_b in
      match blocking_vars with
      | _ :: _ =>
          let inverted_blocks := existsb contains_inv blocking_vars in
          let blocking_vars :=
            if inverted_blocks then map remove_inv blocking_vars
            else blocking_vars in
          let passblocks_a := source_names vars_a blocking_vars in
          let passblocks_b := source_names vars_b blocking_vars in
          if negb (length passblocks_a =? length blocking_vars)%nat
             || negb (length passblocks_b =? length blocking_vars)%nat
          then Ok (past_join_cond_str, None)
          else
            let passblocks_b :=
              if inverted_blocks then rev passblocks_b else passblocks_b in
            r ←ᵣ find_pass_candidates ty passblocks_a passblocks_b
                   indv_id_a indv_id_b past_join_cond_str table_a table_b dedup;
            Ok (fst r, Some (snd r))
      | [] => Ok ([], None)
      end
  end.

(** The loop of [run_ground_truth_ids_passes]. *)
Fixpoint ground_truth_loop (ty : coltype) (ground_truth_ids : list string)
    (vars_a vars_b : gmap string string) (indv_id_a indv_id_b : string)
    (dedup : bool) (past_join_cond_str : past_join_cond)
    (table_a table_b : list record)
    : result (past_join_cond * list (string * list pair)) :=
  match ground_truth_ids with
  | [] => Ok (past_join_cond_str, [])
  | gid :: rest =>
      gid_a ←ᵣ getitem vars_a gid;
      gid_b ←ᵣ getitem vars_b gid;
      r ←ᵣ find_pass_candidates ty [gid_a] [gid_b] indv_id_a indv_id_b
             past_join_cond_str table_a table_b dedup;
      r' ←ᵣ ground_truth_loop ty rest vars_a vars_b indv_id_a indv_id_b dedup
              (fst r) table_a table_b;
      Ok (fst r', (gid, snd r) :: snd r')
  end.

Definition run_ground_truth_ids_passes (ty : coltype)
    (ground_truth_ids : list string) (vars_a vars_b : gmap string string)
    (name_b : string) (past_join_cond_str : past_join_cond)
    (table_a table_b : list record)
    : result (past_join_cond * list (string * list pair)) :=
  indv_id_a ←ᵣ getitem vars_a "indv_id";
  indv_id_b ←ᵣ getitem vars_b "indv_id";
  let dedup := String.eqb name_b "dedup" in
  let table_b := if dedup then table_a else table_b in
  ground_truth_loop ty ground_truth_ids vars_a vars_b indv_id_a indv_id_b dedup
    past_join_cond_str table_a table_b.

(** The blocking done by the loop of [run_match_parallelized] over
    [range(tot_pass_cnt)]: the candidates tables of the passes run, by
    pass number. *)
Fixpoint blocking_loop (ty : coltype) (blocks_by_pass : list (list string))
    (passnums : list nat) (vars_a vars_b : gmap string string) (name_b : string)
    (past_join_cond_str : past_join_cond) (table_a table_b : list record)
    : result (list (nat * list pair)) :=
  match passnums with
  | [] => Ok []
  | passnum :: rest =>
      r ←ᵣ run_blocking_pass ty blocks_by_pass passnum vars_a vars_b name_b
             past_join_cond_str table_a table_b;
      out ←ᵣ blocking_loop ty blocks_by_pass rest vars_a vars_b name_b
               (fst r) table_a table_b;
      Ok (match snd r with
          | Some cands => (passnum, cands) :: out
          | None => out
          end)
  end.

(** The label of a pass in the output. *)
Inductive pass_label :=
  | Dup (gid : string)
  | Pass (passnum : nat).

(** matching/match.py: the ground-truth-ID passes, then the regular
    passes, from an empty [past_join_cond_str]. *)
Definition all_blocking (ty : coltype) (ground_truth_ids : list string)
    (blocks_by_pass : list (list string)) (vars_a vars_b : gmap string string)
    (name_b : string) (table_a table_b : list record)
    : result (list (pass_label * list pair)) :=
  gt ←ᵣ (match ground_truth_ids with
         | [] => Ok ([], [])
         | _ => run_ground_truth_ids_passes ty ground_truth_ids vars_a vars_b
                  name_b [] table_a table_b
         end);
  ps ←ᵣ blocking_loop ty blocks_by_pass (seq 0 (length blocks_by_pass))
          vars_a vars_b name_b (fst gt) table_a table_b;
  Ok (map (λ x, (Dup (fst x), snd x)) (snd gt)
      ++ map (λ x, (Pass (fst x), snd x)) ps)%list.

(** The equijoin predicate of a pass as the specification words it:
    every blocking field is equal on the two sides and not absent. *)
Definition satisfies (a b : record) (j : join_cond) : Prop :=
  eval_join a b j = TRUE.

(** What the dedup conditions give for an emitted pair: two different
    rows, two different individuals, and the two rows in the order of
    the [idx] column as the table has it: the order of the row numbers
    when [idx] is an integer column, the order of their decimal texts
    when it is a text column. *)
Definition self_excluded (ty : coltype) (c : pair) : Prop :=
  idx_a c ≠ idx_b c
  ∧ (∃ u v, indv_id_a c = Some u ∧ indv_id_b c = Some v ∧ u ≠ v)
  ∧ match ty with
    | INTEGER => (idx_a c < idx_b c)%N
    | TEXT => String.ltb (decimal (idx_a c)) (decimal (idx_b c)) = true
    end.

(** A configuration and records for the examples. *)
Definition vars_example : gmap string string :=
  {[ "indv_id" := "id"; "common_id" := "ssn"; "zipcode" := "zip" ]}.

Definition person (n : N) (id ssn zip : string) : record :=
  mk_record n {[ "id" := id; "ssn" := ssn; "zip" := zip ]}.

(** ** What the candidates tables hold *)

(** The row of the candidates table made of two records. *)
Definition pair_of (indv_id_a indv_id_b : string) (a b : record) : pair :=
  mk_pair (fields a !! indv_id_a) (fields b !! indv_id_b) (idx a) (idx b).

(** The two records have, for each block of the join, the same text in
    the two fields, and it is not the empty text. *)
Definition agree (a b : record) (j : join_cond) : Prop :=
  ∀ x y, (x, y) ∈ j →
    ∃ u, fields a !! x = Some u ∧ fields b !! y = Some u ∧ u ≠ "".

(** On the records of the tables, the pairs of [E] satisfy one of the
    past join conditions. *)
Definition covered (table_a table_b : list record) (indv_id_a indv_id_b : string)
    (past : past_join_cond) (E : pair → Prop) : Prop :=
  ∀ a b, a ∈ table_a → b ∈ table_b → E (pair_of indv_id_a indv_id_b a b) →
    eval_past a b past = TRUE.

(** No candidates table holds a pair of [E] or a pair of a table before
    it in the list. *)
Fixpoint separated {L} (E : pair → Prop) (out : list (L * list pair)) : Prop :=
  match out with
  | [] => True
  | x :: rest =>
      (∀ c, c ∈ snd x → ¬ E c) ∧ separated (λ c, E c ∨ c ∈ snd x) rest
  end.

(** [idx] is a key of the table. *)
Definition idx_key (table : list record) : Prop :=
  ∀ a a', a ∈ table → a' ∈ table → idx a = idx a' → a = a'.

End BlockFunctions.

(** * matching/block.py *)

Module BlockScript.

Import BlockFunctions.

(** The script defines [get_pass_join_cond], [exclude_past_join_cond],
    [update_past_join_cond], [execute_blocking_join] and
    [find_pass_candidates] with the text they have in
    shared/record_linkage_shared/block_functions.py, but for the
    [ORDER BY] of the first subquery of the join, which changes no row of
    the candidates table. *)
Definition find_pass_candidates := BlockFunctions.find_pass_candidates.

(** The loop [for passnum in range(len(blocks_by_pass))] of the script,
    from pass [passnum] on: [blocks] is what is left of [blocks_by_pass].
    A pass without blocking fields, and a pass with a field one of the
    two datasets lacks, is skipped, [past_join_cond_str] unchanged. *)
Fixpoint pass_loop (ty : coltype) (blocks : list (list string)) (passnum : nat)
    (vars_a vars_b : gmap string string) (indv_id_a indv_id_b : string)
    (dedup : bool) (past_join_cond_str : past_join_cond)
    (table_a table_b : list record) : result (list (nat * list pair)) :=
  match blocks with
  | [] => Ok []
  | blocking_vars :: rest =>
      match blocking_vars with
      | _ :: _ =>
          let inverted_blocks := existsb contains_inv blocking_vars in
          let blocking_vars :=
            if inverted_blocks then map remove_inv blocking_vars
            else blocking_vars in
          let passblocks_a := source_names vars_a blocking_vars in
          let passblocks_b := source_names vars_b blocking_vars in
          if negb (length passblocks_a =? length blocking_vars)%nat
             || negb (length passblocks_b =? length blocking_vars)%nat
          then pass_loop ty rest (S passnum) vars_a vars_b indv_id_a indv_id_b
                 dedup past_join_cond_str table_a table_b
          else
            let passblocks_b :=
              if inverted_blocks then rev passblocks_b else passblocks_b in
            r ←ᵣ find_pass_candidates ty passblocks_a passblocks_b
                   indv_id_a indv_id_b past_join_cond_str table_a table_b dedup;
            out ←ᵣ pass_loop ty rest (S passnum) vars_a vars_b indv_id_a
                     indv_id_b dedup (fst r) table_a table_b;
            Ok ((passnum, snd r) :: out)
      | [] =>
          pass_loop ty rest (S passnum) vars_a vars_b indv_id_a indv_id_b
            dedup past_join_cond_str table_a table_b
      end
  end.

(** The script from the configuration read to the last pass. For a
    dedup match the second dataset is the first one. *)
Definition block_script (ty : coltype) (matchtype : string)
    (ground_truth_ids : list string) (blocks_by_pass : list (list string))
    (vars_a vars_b : gmap string string) (table_a table_b : list record)
    : result (list (pass_label * list pair)) :=
  let dedup := String.eqb matchtype "dedup" in
  let vars_b := if dedup then vars_a else vars_b in
  let table_b := if dedup then table_a else table_b in
  indv_id_a ←ᵣ getitem vars_a "indv_id";
  indv_id_b ←ᵣ getitem vars_b "indv_id";
  gt ←ᵣ ground_truth_loop ty ground_truth_ids vars_a vars_b indv_id_a indv_id_b
          dedup [] table_a table_b;
  ps ←ᵣ pass_loop ty blocks_by_pass 0 vars_a vars_b indv_id_a indv_id_b dedup
          (fst gt) table_a table_b;
  Ok (map (λ x, (Dup (fst x), snd x)) (snd gt)
      ++ map (λ x, (Pass (fst x), snd x)) ps)%list.

End BlockScript.

(** * Properties *)

(** ** UnionFind.find *)

Section FindRaises.

Import UnionFind.

(** C10. For every UnionFind instance and every argument, calling the
    find method raises a TypeError rather than returning a group name:
    the method applies the item_to_group dictionary as if it were a
    function instead of indexing it. *)
Theorem find_raises_TypeError (uf : UnionFind.t) (i : item) :
  find uf i = Raise TypeError.
Proof. reflexivity. Qed.

(** An item added to group 7 is found by indexing, not by [find]. *)
Example find_after_add :
  ∃ uf, add_item_dedup 7 (Atom "x") init = Ok uf
        ∧ find_by_index uf (Atom "x") = Ok 7
        ∧ find uf (Atom "x") = Raise TypeError.
Proof. eexists. split; [reflexivity|]. split; reflexivity. Qed.

End FindRaises.

(** ** CompareBmonthBday *)

Section BmonthBday.

Import MatchFunctions.
Local Open Scope Q_scope.

Lemma feq_true (x y : float) :
  feq x y = true → ∃ a b, x = Some a ∧ y = Some b ∧ a == b.
Proof.
  destruct x as [a|], y as [b|]; simpl; try discriminate.
  intros H. exists a, b. repeat split. by apply Qeq_bool_iff.
Qed.

Lemma feq_intro (a b : Q) : a == b → feq (Some a) (Some b) = true.
Proof. intros H. simpl. by apply Qeq_bool_iff. Qed.

Lemma feq_not_nan (x y : float) :
  feq x y = true → isnan x = false ∧ isnan y = false.
Proof. intros (a & b & -> & -> & _)%feq_true. done. Qed.

(** Month and day swapped and the months equal: the days are equal. *)
Lemma swapped_and_month (m1 d1 m2 d2 : float) :
  feq d1 m2 = true → feq m1 d2 = true → feq m1 m2 = true → feq d1 d2 = true.
Proof.
  intros (a & b & -> & -> & H1)%feq_true (c & d & -> & -> & H2)%feq_true
         (e & f & He & Hf & H3)%feq_true.
  simplify_eq. apply feq_intro. by rewrite H1, <- H3, H2.
Qed.

Lemma swapped_and_day (m1 d1 m2 d2 : float) :
  feq d1 m2 = true → feq m1 d2 = true → feq d1 d2 = true → feq m1 m2 = true.
Proof.
  intros (a & b & -> & -> & H1)%feq_true (c & d & -> & -> & H2)%feq_true
         (e & f & He & Hf & H3)%feq_true.
  simplify_eq. apply feq_intro. by rewrite H2, <- H3, H1.
Qed.

(** C7, as stated, fails when [either_month_day] is configured as 0:
    months equal, one day absent. The comparer answers [missing_value],
    the tiers of the specification answer [either_month_day]. *)
Lemma bmonthbday_either_zero_counterexample :
  let self := {| swap_month_day := 8 # 10; either_month_day := 0;
                 missing_value := 1 # 2 |} in
  compute_bmonthbday self (Some 1) None (Some 1) (Some 5) = 1 # 2
  ∧ spec_bmonthbday self (Some 1) None (Some 1) (Some 5) = 0
  ∧ ¬ (compute_bmonthbday self (Some 1) None (Some 1) (Some 5)
       == spec_bmonthbday self (Some 1) None (Some 1) (Some 5)).
Proof. vm_compute. repeat split; discriminate. Qed.

(** C7, amended. For every input quadruple and every configuration whose
    [either_month_day] is not 0, the comparer returns 1 if both month and
    day match; otherwise [swap_month_day] if month and day are swapped;
    otherwise [either_month_day] if exactly one of month or day matches;
    otherwise [missing_value] if any of the four inputs is NaN;
    otherwise 0. *)
Theorem compute_bmonthbday_tiers (self : CompareBmonthBday)
    (s1_m s1_d s2_m s2_d : float) :
  Qeq_bool (either_month_day self) 0 = false →
  compute_bmonthbday self s1_m s1_d s2_m s2_d
  = spec_bmonthbday self s1_m s1_d s2_m s2_d.
Proof.
  intros Hne. unfold compute_bmonthbday, spec_bmonthbday, assign_where_zero.
  destruct (feq s1_m s2_m) eqn:Hm, (feq s1_d s2_d) eqn:Hd; simpl.
  - done.
  - destruct (feq s1_d s2_m) eqn:H1, (feq s1_m s2_d) eqn:H2; simpl;
      try by rewrite Hne.
    by rewrite (swapped_and_month _ _ _ _ H1 H2 Hm) in Hd.
  - destruct (feq s1_d s2_m) eqn:H1, (feq s1_m s2_d) eqn:H2; simpl;
      try by rewrite Hne.
    by rewrite (swapped_and_day _ _ _ _ H1 H2 Hd) in Hm.
  - destruct (feq s1_d s2_m) eqn:H1, (feq s1_m s2_d) eqn:H2; simpl; try done.
    destruct (feq_not_nan _ _ H1) as [-> ->].
    destruct (feq_not_nan _ _ H2) as [-> ->]. simpl.
    by rewrite !andb_false_r.
Qed.

Lemma compute_bmonthbday_tiers_witness :
  let self := {| swap_month_day := 8 # 10; either_month_day := 6 # 10;
                 missing_value := 1 # 2 |} in
  compute_bmonthbday self (Some 3) (Some 4) (Some 4) (Some 3)
  = spec_bmonthbday self (Some 3) (Some 4) (Some 4) (Some 3).
Proof. apply compute_bmonthbday_tiers. reflexivity. Defined.

End BmonthBday.

(** ** accept_matches *)

Section AcceptMatches.

Import Accept.

Context {M : Type}.
Variable prepare : list candidate → result M.
Variable fns : accept_functions M.

Lemma evaluate_monotone (pass : Z) (m : M) (flags : candidate → accepted) :
  evaluate fns pass m = Ok flags → ∀ r, monotone (flags r) ∧ pair (flags r) = r.
Proof.
  unfold evaluate. intros H r.
  destruct (call_accept_fn fns pass PairFile.match_strict m) as [f1|]; [|done].
  destruct (call_accept_fn fns pass PairFile.match_moderate m) as [f2|]; [|done].
  destruct (call_accept_fn fns pass PairFile.match_relaxed m) as [f3|]; [|done].
  destruct (call_accept_fn fns pass PairFile.match_review m) as [f4|]; [|done].
  simpl in H. injection H as <-. unfold monotone. simpl.
  repeat split; intros ->; apply orb_true_r.
Qed.

Lemma evaluate_total (pass : Z) (m : M) :
  (∀ s, ∃ f, call_accept_fn fns pass s m = Ok f) →
  ∃ flags, evaluate fns pass m = Ok flags.
Proof.
  intros H. unfold evaluate.
  destruct (H PairFile.match_strict) as [f1 ->].
  destruct (H PairFile.match_moderate) as [f2 ->].
  destruct (H PairFile.match_relaxed) as [f3 ->].
  destruct (H PairFile.match_review) as [f4 ->]. simpl. eauto.
Qed.

(** C1. For every candidate row evaluated by accept_matches (any pass
    number, any configuration and acceptor), the four acceptance flags
    are monotone, match_strict implies match_moderate, match_moderate
    implies match_relaxed, match_relaxed implies match_review; every row
    of the returned frame has match_review true, the rows with
    match_review false being removed before the result is returned. The
    function returns whenever the preparation and the four acceptance
    functions do and the frame holds rows of the pass only. *)
Theorem accept_matches_monotone (df_match : list candidate) (pass : Z) :
  (∀ out, accept_matches prepare fns df_match pass = Ok out →
     ∃ m flags,
       prepare df_match = Ok m
       ∧ evaluate fns pass m = Ok flags
       ∧ (∀ r, r ∈ df_match → monotone (flags r))
       ∧ out = List.filter match_review (map flags df_match)
       ∧ (∀ r, r ∈ out → monotone r ∧ match_review r = true)
       ∧ (∀ r, r ∈ df_match → match_review (flags r) = false → flags r ∉ out))
  ∧ (∀ m, prepare df_match = Ok m →
       (∀ s, ∃ f, call_accept_fn fns pass s m = Ok f) →
       Forall (λ r, passnum r = pass) df_match →
       ∃ out, accept_matches prepare fns df_match pass = Ok out).
Proof.
  split.
  - intros out H. unfold accept_matches in H.
    destruct (prepare df_match) as [m|] eqn:Hp; [|done]. simpl in H.
    destruct (evaluate fns pass m) as [flags|] eqn:He; [|done]. simpl in H.
    destruct (forallb _ df_match); [|done]. injection H as <-.
    exists m, flags. split; [done|]. split; [done|].
    pose proof (evaluate_monotone _ _ _ He) as Hmono.
    split; [intros r _; apply Hmono|]. split; [done|]. split.
    + intros r [Hin Hrev]%list_elem_of_In%filter_In.
      apply in_map_iff in Hin as (c & <- & _). split; [apply Hmono|done].
    + intros r _ Hrev [_ Hrev']%list_elem_of_In%filter_In. congruence.
  - intros m Hp Hf Hall. unfold accept_matches. rewrite Hp. simpl.
    destruct (evaluate_total pass m Hf) as [flags ->]. simpl.
    assert (forallb (λ r, (passnum r =? pass)%Z) df_match = true) as ->; [|eauto].
    apply forallb_forall. intros r Hr%list_elem_of_In.
    rewrite Forall_forall in Hall. apply Z.eqb_eq. by apply Hall.
Qed.

End AcceptMatches.

(** The default pass 0 accepts a frame of two pairs at all four levels. *)
Lemma accept_matches_monotone_witness :
  let df := [Accept.mk_candidate "a1" "b1" 0 0 0 [];
             Accept.mk_candidate "a2" "b7" 1 6 0 []] in
  ∃ out, Accept.accept_matches (λ _, Ok tt) Accept.accept_p0 df 0 = Ok out
         ∧ ∀ r, r ∈ out → Accept.monotone r ∧ Accept.match_review r = true.
Proof.
  intros df.
  destruct (accept_matches_monotone (λ _, Ok tt) Accept.accept_p0 df 0)
    as [Hsound Htotal].
  destruct (Htotal tt eq_refl) as [out Hout].
  - intros s. eexists. reflexivity.
  - repeat constructor.
  - exists out. split; [done|].
    destruct (Hsound out Hout) as (m & flags & _ & _ & _ & _ & H & _). done.
Defined.

(** ** calculate_weights *)

Section Weights.

Import MatchFunctions Driver.
Local Open Scope Q_scope.
Local Open Scope list_scope.

Lemma col_app (l1 l2 : frame_row) (c : string) :
  col (l1 ++ l2) c = match col l1 c with Some v => Some v | None => col l2 c end.
Proof.
  unfold col. induction l1 as [|[n v] l1 IH]; simpl; [done|].
  by destruct (String.eqb n c).
Qed.

Lemma col_score_cells (l : list (string * float)) (c : string) :
  is_dropped c = true → names_ok l = true → col (score_cells l) c = None.
Proof.
  intros Hc. unfold names_ok, score_cells, col.
  induction l as [|[n x] l IH]; simpl; [done|].
  intros [Hn Hl]%andb_prop.
  destruct (String.eqb_spec n c) as [->|]; [|auto]. by rewrite Hc in Hn.
Qed.

Lemma filter_score_cells (l : list (string * float)) :
  names_ok l = true →
  List.filter (λ cv, negb (is_dropped (fst cv))) (score_cells l) = score_cells l.
Proof.
  unfold names_ok, score_cells. induction l as [|[n x] l IH]; simpl; [done|].
  intros [-> Hl]%andb_prop. by rewrite IH.
Qed.

Lemma env_score_cell (x : float) :
  fillna0 (replace_missing (float_cell x)) = VFloat (clamp x).
Proof.
  destruct x as [q|]; simpl; [|done]. by destruct (Qeq_bool q (-1)).
Qed.

Lemma env_passnum_cell (fp : bool) (p : Z) :
  (0 <= p)%Z →
  fillna0 (replace_missing (passnum_cell fp p)) = passnum_cell fp p.
Proof.
  intros Hp. destruct fp; simpl.
  - replace (Qeq_bool (inject_Z p) (-1)) with false; [done|].
    symmetry. apply not_true_is_false. intros H%Qeq_bool_iff.
    unfold Qeq in H. simpl in H. lia.
  - replace (p =? -1)%Z with false; [done|]. symmetry. apply Z.eqb_neq. lia.
Qed.

Lemma frame_has_dropped (fp : bool) (r : Accept.accepted)
    (later : list (string * float)) :
  names_ok (Accept.scores (Accept.pair r)) = true →
  forallb (λ c, bool_decide (is_Some (col (to_frame fp r later) c)))
    dropped_columns
  = true
  ∧ col (to_frame fp r later) "passnum"
    = Some (passnum_cell fp (Accept.passnum (Accept.pair r))).
Proof.
  intros Hn. unfold to_frame.
  set (pc := passnum_cell fp (Accept.passnum (Accept.pair r))).
  set (rest := (("passnum", pc) :: flag_cells r) ++ score_cells later).
  assert (∀ c, is_dropped c = true →
            col (id_cells (Accept.pair r) ++ score_cells (Accept.scores (Accept.pair r))
                 ++ rest) c
            = col (id_cells (Accept.pair r) ++ rest) c)
    as Hc.
  { intros c Hc. rewrite !col_app, col_score_cells; done. }
  split.
  - apply forallb_forall. intros c Hin. apply bool_decide_eq_true.
    rewrite Hc.
    + simpl in Hin. destruct Hin as [<-|[<-|[<-|[<-|[<-|[]]]]]]; by eexists.
    + unfold is_dropped. apply existsb_exists. exists c. split; [done|].
      apply String.eqb_refl.
  - by rewrite Hc.
Qed.

Lemma summed_columns (fp : bool) (r : Accept.accepted)
    (later : list (string * float)) :
  names_ok (Accept.scores (Accept.pair r)) = true → names_ok later = true →
  List.filter (λ cv, negb (is_dropped (fst cv))) (to_frame fp r later)
  = score_cells (Accept.scores (Accept.pair r)) ++ flag_cells r
    ++ score_cells later.
Proof.
  intros Hn Hn'. unfold to_frame.
  rewrite !List.filter_app, !filter_score_cells by done. reflexivity.
Qed.

Lemma wrap64_small (z : Z) : (- 2 ^ 63 <= z < 2 ^ 63)%Z → wrap64 z = z.
Proof. intros H. unfold wrap64. rewrite Z.mod_small; lia. Qed.

Lemma pow10_bound (k : Z) : (0 <= k <= 18)%Z → (0 < 10 ^ k <= 10 ^ 18)%Z.
Proof.
  intros H. split; [apply Z.pow_pos_nonneg; lia|].
  apply Z.pow_le_mono_r; lia.
Qed.

Lemma pow5_bound (k : Z) : (0 <= k <= 18)%Z → (0 < 5 ^ k <= 5 ^ 18)%Z.
Proof.
  intros H. split; [apply Z.pow_pos_nonneg; lia|].
  apply Z.pow_le_mono_r; lia.
Qed.


Lemma pow10_split (k : Z) : (10 ^ k = 2 ^ k * 5 ^ k)%Z.
Proof. change 10%Z with (2 * 5)%Z. apply Z.pow_mul_l. Qed.

(** The power of ten of a row of a regular pass. *)
Lemma ten_to_the_value (fp : bool) (P p : Z) :
  (0 <= P - p <= 18)%Z →
  ten_to_the P (passnum_cell fp p)
  = Ok (if fp then NFloat (inject_Z (10 ^ (P - p))) else NInt (10 ^ (P - p))).
Proof.
  intros Hk. destruct fp; unfold ten_to_the, passnum_cell; cbv zeta.
  - rewrite Qfloor_Z.
    replace (Qeq_bool (inject_Z p) (inject_Z p)) with true
      by (symmetry; apply Qeq_bool_iff; reflexivity).
    replace (0 <=? P - p)%Z with true by (symmetry; apply Z.leb_le; lia).
    replace (P - p <=? 22)%Z with true by (symmetry; apply Z.leb_le; lia).
    done.
  - pose proof (pow10_bound _ Hk) as Hb.
    change (10 ^ 18)%Z with 1000000000000000000%Z in Hb.
    rewrite (wrap64_small (P - p)) by lia.
    replace (P - p <? 0)%Z with false by (symmetry; apply Z.ltb_ge; lia).
    rewrite wrap64_small by lia. done.
Qed.

Lemma binary64_scaled (k m : Z) :
  (0 <= k <= 971)%Z → (0 <= m < 2 ^ 53)%Z → binary64 (inject_Z (2 ^ k * m)).
Proof.
  intros Hk Hm. exists m, k. split; [lia|]. split; [lia|].
  rewrite inject_Z_mult, Zpower_Qpower by lia. change (inject_Z 2) with 2. ring.
Qed.

Lemma binary64_pow10 (k : Z) : (0 <= k <= 18)%Z → binary64 (inject_Z (10 ^ k)).
Proof.
  intros Hk. rewrite pow10_split. apply binary64_scaled; [lia|].
  pose proof (pow5_bound _ Hk) as Hb.
  change (5 ^ 18)%Z with 3814697265625%Z in Hb. lia.
Qed.

Lemma rounding_id : rounding (λ q, q).
Proof. split; [done|]. intros q _. reflexivity. Qed.

Lemma sum_flags_values (r : Accept.accepted) :
  fold_right Qplus 0 (flag_values r) == sum_flags r.
Proof. unfold flag_values, sum_flags. simpl. ring. Qed.

Lemma sum_scores_values (l : list (string * float)) :
  fold_right Qplus 0 (map (λ s, clamp (snd s)) l) == sum_scores l.
Proof. induction l as [|[n x] l IH]; simpl; [reflexivity|]. by rewrite IH. Qed.

Lemma fold_right_Qplus_app (xs ys : list Q) :
  fold_right Qplus 0 (xs ++ ys)
  == fold_right Qplus 0 xs + fold_right Qplus 0 ys.
Proof. induction xs as [|x xs IH]; simpl; [ring|]. rewrite IH. ring. Qed.





Section Rounding.

Context (rnd : Q → Q) (Hrnd : rounding rnd).

Lemma rnd_proper (x y : Q) : x == y → rnd x == rnd y.
Proof.
  intros H. apply Qle_antisym; apply (rnd_mono rnd Hrnd); rewrite H; apply Qle_refl.
Qed.

Lemma float_sum_proper (a a' : Q) (xs : list Q) :
  a == a' → float_sum rnd a xs == float_sum rnd a' xs.
Proof.
  revert a a'. induction xs as [|x xs IH]; intros a a' H; simpl; [done|].
  apply IH, rnd_proper. by rewrite H.
Qed.

Lemma float_sum_app (a : Q) (xs ys : list Q) :
  float_sum rnd a (xs ++ ys) = float_sum rnd (float_sum rnd a xs) ys.
Proof. revert a. induction xs as [|x xs IH]; intros a; simpl; [done|]. apply IH. Qed.

(** Where no addition rounds, the sum is the exact sum. *)
Lemma float_sum_exact (a : Q) (xs : list Q) :
  exact_sums a xs → float_sum rnd a xs == a + fold_right Qplus 0 xs.
Proof.
  revert a. induction xs as [|x xs IH]; intros a; simpl; [intros _; ring|].
  intros [Hb He].
  transitivity (float_sum rnd (a + x) xs).
  - by apply float_sum_proper, (rnd_exact rnd Hrnd).
  - rewrite (IH _ He). ring.
Qed.



Lemma eval_sum_app (acc : number) (xs ys : list value) :
  eval_sum rnd acc (xs ++ ys)
  = (acc' ←ᵣ eval_sum rnd acc xs; eval_sum rnd acc' ys).
Proof.
  revert acc. induction xs as [|x xs IH]; intros acc; [done|].
  cbn [app eval_sum]. destruct (add_cell rnd acc x); [|done].
  cbn [rbind]. apply IH.
Qed.

Lemma eval_sum_scores (a : Q) (l : list (string * float)) :
  eval_sum rnd (NFloat a)
    (map (λ cv, fillna0 (replace_missing (snd cv))) (score_cells l))
  = Ok (NFloat (float_sum rnd a (map (λ s, clamp (snd s)) l))).
Proof.
  revert a. induction l as [|[n x] l IH]; intros a; [done|].
  cbn [score_cells map eval_sum snd fst]. rewrite env_score_cell.
  cbn [add_cell rbind as_float float_sum]. apply IH.
Qed.

(** The first float column turns an int64 sum into a binary64 sum. *)
Lemma eval_sum_scores_int (z : Z) (s : string * float)
    (l : list (string * float)) :
  eval_sum rnd (NInt z)
    (map (λ cv, fillna0 (replace_missing (snd cv))) (score_cells (s :: l)))
  = Ok (NFloat (float_sum rnd (rnd (inject_Z z))
                  (map (λ s, clamp (snd s)) (s :: l)))).
Proof.
  cbn [score_cells map eval_sum snd fst]. rewrite env_score_cell.
  cbn [add_cell rbind as_float float_sum].
  change (map (λ cv, fillna0 (replace_missing (snd cv)))
            (map (λ s, (fst s, float_cell (snd s))) l))
    with (map (λ cv, fillna0 (replace_missing (snd cv))) (score_cells l)).
  apply eval_sum_scores.
Qed.

Lemma eval_sum_flags_float (a : Q) (r : Accept.accepted) :
  eval_sum rnd (NFloat a)
    (map (λ cv, fillna0 (replace_missing (snd cv))) (flag_cells r))
  = Ok (NFloat (float_sum rnd a (flag_values r))).
Proof.
  unfold flag_cells, flag_values, flag_value.
  destruct (Accept.match_strict r), (Accept.match_moderate r),
    (Accept.match_relaxed r), (Accept.match_review r); reflexivity.
Qed.

Lemma eval_sum_flags_int (z : Z) (r : Accept.accepted) :
  (0 <= z)%Z → (z + 4 < 2 ^ 63)%Z →
  ∃ n, eval_sum rnd (NInt z)
         (map (λ cv, fillna0 (replace_missing (snd cv))) (flag_cells r))
       = Ok (NInt n)
     ∧ inject_Z n == inject_Z z + sum_flags r.
Proof.
  intros H0 H4. unfold flag_cells, sum_flags, flag_value.
  cbn [map snd replace_missing fillna0 eval_sum add_cell rbind].
  set (b1 := Z.b2z (Accept.match_strict r)).
  set (b2 := Z.b2z (Accept.match_moderate r)).
  set (b3 := Z.b2z (Accept.match_relaxed r)).
  set (b4 := Z.b2z (Accept.match_review r)).
  assert (0 <= b1 <= 1 ∧ 0 <= b2 <= 1 ∧ 0 <= b3 <= 1 ∧ 0 <= b4 <= 1)%Z
    as (? & ? & ? & ?).
  { subst b1 b2 b3 b4.
    destruct (Accept.match_strict r), (Accept.match_moderate r),
      (Accept.match_relaxed r), (Accept.match_review r); simpl; lia. }
  rewrite (wrap64_small (z + b1)) by lia.
  rewrite (wrap64_small (z + b1 + b2)) by lia.
  rewrite (wrap64_small (z + b1 + b2 + b3)) by lia.
  rewrite (wrap64_small (z + b1 + b2 + b3 + b4)) by lia.
  eexists. split; [done|]. rewrite !inject_Z_plus. subst b1 b2 b3 b4.
  destruct (Accept.match_strict r), (Accept.match_moderate r),
    (Accept.match_relaxed r), (Accept.match_review r); simpl; ring.
Qed.

(** The value of the weight column of an accepted row of a regular
    pass. The sum is an int64 sum up to the first float column and a
    sum in binary64 from there on. *)
Lemma weight_value (fp : bool) (r : Accept.accepted)
    (later : list (string * float)) (tot_pass_cnt : Z) :
  names_ok (Accept.scores (Accept.pair r)) = true → names_ok later = true →
  (0 <= Accept.passnum (Accept.pair r))%Z →
  (0 <= tot_pass_cnt - Accept.passnum (Accept.pair r) <= 18)%Z →
  let k := (tot_pass_cnt - Accept.passnum (Accept.pair r))%Z in
  ∃ w, weight rnd fp r later tot_pass_cnt = Ok w
       ∧ w == match Accept.scores (Accept.pair r), fp, later with
              | [], false, [] => 10 ^ k + sum_flags r
              | [], false, _ =>
                  float_sum rnd (rnd (10 ^ k + sum_flags r))
                    (map (λ s, clamp (snd s)) later)
              | _, _, _ => float_sum rnd (10 ^ k) (addends r later)
              end.
Proof.
  intros Hn Hn' Hp Hk k. unfold weight, calculate_weights.
  destruct (frame_has_dropped fp r later Hn) as [-> ->].
  rewrite summed_columns by done.
  destruct (score_cells _ ++ flag_cells r ++ score_cells later) eqn:Hs.
  { apply app_eq_nil in Hs as [_ Hs]. by apply app_eq_nil in Hs as [? _]. }
  rewrite <- Hs. clear Hs. cbn [fmap option_fmap option_map].
  rewrite env_passnum_cell by done. rewrite ten_to_the_value by done.
  fold k.
  assert (inject_Z (10 ^ k) == 10 ^ k) as Hpow.
  { rewrite Zpower_Qpower by lia. reflexivity. }
  pose proof (pow10_bound k Hk) as Hb.
  change (10 ^ 18)%Z with 1000000000000000000%Z in Hb.
  rewrite !map_app. unfold addends.
  assert (∀ a, eval_sum rnd (NFloat a)
                 (map (λ cv, fillna0 (replace_missing (snd cv)))
                    (score_cells (Accept.scores (Accept.pair r)))
                  ++ map (λ cv, fillna0 (replace_missing (snd cv))) (flag_cells r)
                  ++ map (λ cv, fillna0 (replace_missing (snd cv)))
                       (score_cells later))
               = Ok (NFloat (float_sum rnd a
                       (map (λ s, clamp (snd s)) (Accept.scores (Accept.pair r))
                        ++ flag_values r ++ map (λ s, clamp (snd s)) later))))
    as Hfloat.
  { intros a. rewrite eval_sum_app, eval_sum_scores. cbn [rbind].
    rewrite eval_sum_app, eval_sum_flags_float. cbn [rbind].
    rewrite eval_sum_scores. by rewrite !float_sum_app. }
  destruct fp; cbn [rbind].
  - rewrite Hfloat. cbn [rbind value_of].
    eexists. split; [done|].
    assert (float_sum rnd (inject_Z (10 ^ k))
              (map (λ s, clamp (snd s)) (Accept.scores (Accept.pair r))
               ++ flag_values r ++ map (λ s, clamp (snd s)) later)
            == float_sum rnd (10 ^ k)
                 (map (λ s, clamp (snd s)) (Accept.scores (Accept.pair r))
                  ++ flag_values r ++ map (λ s, clamp (snd s)) later)) as Heq
      by (by apply float_sum_proper).
    by destruct (Accept.scores (Accept.pair r)).
  - clear Hfloat. destruct (Accept.scores (Accept.pair r)) as [|s sc].
    + cbn [score_cells map app]. rewrite eval_sum_app.
      destruct (eval_sum_flags_int (10 ^ k) r) as (m & -> & Hm); [lia|lia|].
      cbn [rbind]. destruct later as [|s0 l0].
      * cbn [score_cells map eval_sum rbind value_of].
        eexists. split; [done|]. by rewrite Hm, Hpow.
      * rewrite eval_sum_scores_int. cbn [rbind value_of].
        eexists. split; [done|].
        apply float_sum_proper, rnd_proper. by rewrite Hm, Hpow.
    + rewrite eval_sum_app, eval_sum_scores_int. cbn [rbind].
      rewrite eval_sum_app, eval_sum_flags_float. cbn [rbind].
      rewrite eval_sum_scores. cbn [rbind value_of].
      eexists. split; [done|]. rewrite <- !float_sum_app.
      cbn [map app float_sum].
      apply float_sum_proper, rnd_proper. apply Qplus_comp; [|reflexivity].
      rewrite (rnd_exact rnd Hrnd) by (by apply binary64_pow10).
      by rewrite Hpow.
Qed.


(** Where no addition rounds, the weight is the exact sum. *)
Lemma weight_exact (fp : bool) (r : Accept.accepted)
    (later : list (string * float)) (k : Z) :
  exact_sums (10 ^ k) (addends r later) →
  match Accept.scores (Accept.pair r), fp, later with
  | [], false, [] => 10 ^ k + sum_flags r
  | [], false, _ =>
      float_sum rnd (rnd (10 ^ k + sum_flags r)) (map (λ s, clamp (snd s)) later)
  | _, _, _ => float_sum rnd (10 ^ k) (addends r later)
  end
  == 10 ^ k + sum_scores (Accept.scores (Accept.pair r)) + sum_flags r
     + sum_scores later.
Proof.
  intros Hex.
  assert (float_sum rnd (10 ^ k) (addends r later)
          == 10 ^ k + sum_scores (Accept.scores (Accept.pair r)) + sum_flags r
             + sum_scores later) as Hfloat.
  { rewrite (float_sum_exact _ _ Hex). unfold addends.
    rewrite !fold_right_Qplus_app, !sum_scores_values, sum_flags_values. ring. }
  destruct (Accept.scores (Accept.pair r)) as [|s sc] eqn:Hsc; [|done].
  destruct fp; [done|]. destruct later as [|s0 l0] eqn:Hl.
  { simpl. ring. }
  rewrite <- Hl in *. clear Hfloat. unfold addends in Hex. rewrite Hsc in Hex.
  cbn [map app flag_values exact_sums] in Hex.
  destruct Hex as (_ & _ & _ & Hb & Hex).
  assert (10 ^ k + flag_value (Accept.match_strict r)
          + flag_value (Accept.match_moderate r)
          + flag_value (Accept.match_relaxed r)
          + flag_value (Accept.match_review r) == 10 ^ k + sum_flags r) as Hsum
    by (unfold sum_flags; ring).
  transitivity (float_sum rnd
                  (10 ^ k + flag_value (Accept.match_strict r)
                   + flag_value (Accept.match_moderate r)
                   + flag_value (Accept.match_relaxed r)
                   + flag_value (Accept.match_review r))
                  (map (λ s, clamp (snd s)) later)).
  - apply float_sum_proper.
    rewrite (rnd_proper _ _ (Qeq_sym _ _ Hsum)). by apply (rnd_exact rnd Hrnd).
  - rewrite (float_sum_exact _ _ Hex), sum_scores_values, Hsum. simpl. ring.
Qed.

End Rounding.

(** C2, as stated, fails: the evaluated sum runs over every column but
    the five dropped ones, and the frame already holds the four boolean
    columns of [accept_matches]. A pass-0 pair accepted at all levels,
    with one pass in all and no comparison, weighs 14, not 10, whatever
    the rounding. *)
Lemma weight_counts_flags_counterexample :
  let r := Accept.mk_accepted (Accept.mk_candidate "a" "b" 0 1 0 [])
             true true true true in
  (∀ rnd, weight rnd false r [] 1 = Ok (14 # 1))
  ∧ spec_weight r 1 == 10
  ∧ ¬ (∃ rnd w, weight rnd false r [] 1 = Ok w ∧ w == spec_weight r 1).
Proof.
  intros r.
  assert (∀ rnd, weight rnd false r [] 1 = Ok (14 # 1)) as Hw by reflexivity.
  split; [done|]. split; [reflexivity|].
  intros (rnd & w & Hw' & Heq). rewrite Hw in Hw'. injection Hw' as <-.
  vm_compute in Heq. discriminate.
Qed.

(** C2, amended. For a row of a regular pass with P - passnum at most
    18, the weight computed by calculate_weights is the sum, taken from
    left to right in the order of the columns, of 10^(P - passnum), the
    row's comparison scores (each score equal to the sentinel -1
    replaced by 0.5, each absent score counting 0) and 1 for each of the
    four acceptance flags of the row that is true; the comparison
    columns stand before the flags or after them ([later]). The sum is
    an int64 sum as long as it has met no comparison column and passnum
    is an int64 column, and a binary64 sum from there on, every addition
    rounded; it is the exact sum whenever every partial sum is a number
    of binary64. *)
Theorem calculate_weights_formula (rnd : Q → Q) (float_passnum : bool)
    (r : Accept.accepted) (later : list (string * float)) (tot_pass_cnt : Z) :
  rounding rnd →
  names_ok (Accept.scores (Accept.pair r)) = true → names_ok later = true →
  (0 <= Accept.passnum (Accept.pair r) < tot_pass_cnt)%Z →
  (tot_pass_cnt - Accept.passnum (Accept.pair r) <= 18)%Z →
  let k := (tot_pass_cnt - Accept.passnum (Accept.pair r))%Z in
  ∃ w, weight rnd float_passnum r later tot_pass_cnt = Ok w
       ∧ w == match Accept.scores (Accept.pair r), float_passnum, later with
              | [], false, [] => 10 ^ k + sum_flags r
              | [], false, _ =>
                  float_sum rnd (rnd (10 ^ k + sum_flags r))
                    (map (λ s, clamp (snd s)) later)
              | _, _, _ => float_sum rnd (10 ^ k) (addends r later)
              end
       ∧ (exact_sums (10 ^ k) (addends r later) →
          w == 10 ^ k + sum_scores (Accept.scores (Accept.pair r))
               + sum_flags r + sum_scores later).
Proof.
  intros Hrnd Hn Hn' Hp Hk k.
  destruct (weight_value rnd Hrnd float_passnum r later tot_pass_cnt Hn Hn')
    as (w & Hw & Heq); [lia|lia|].
  fold k in Heq. exists w. split; [done|]. split; [done|].
  intros Hex. rewrite Heq. by apply weight_exact.
Qed.

Lemma calculate_weights_formula_witness :
  let r := Accept.mk_accepted
             (Accept.mk_candidate "a" "b" 3 8 1
                [("fname", Some (3 # 4)); ("mname", Some (-1)); ("lname", None)])
             false true true true in
  let later := [("byear", Some (1 # 4))] in
  rounding (λ q, q)
  ∧ ∃ w, weight (λ q, q) true r later 5 = Ok w
         ∧ w == 10 ^ 4 + (3 # 4) + (1 # 2) + 0 + 3 + (1 # 4).
Proof.
  intros r later. split; [apply rounding_id|].
  destruct (calculate_weights_formula (λ q, q) true r later 5 rounding_id)
    as (w & Hw & _ & Hex).
  - reflexivity.
  - reflexivity.
  - simpl. lia.
  - simpl. lia.
  - exists w. split; [done|]. rewrite Hex; [reflexivity|].
    simpl. repeat split.
    + exists 40003%Z, (-2)%Z. split; [reflexivity|]. split; [lia|]. vm_compute. reflexivity.
    + exists 40005%Z, (-2)%Z. split; [reflexivity|]. split; [lia|]. vm_compute. reflexivity.
    + exists 40005%Z, (-2)%Z. split; [reflexivity|]. split; [lia|]. vm_compute. reflexivity.
    + exists 40005%Z, (-2)%Z. split; [reflexivity|]. split; [lia|]. vm_compute. reflexivity.
    + exists 40009%Z, (-2)%Z. split; [reflexivity|]. split; [lia|]. vm_compute. reflexivity.
    + exists 40013%Z, (-2)%Z. split; [reflexivity|]. split; [lia|]. vm_compute. reflexivity.
    + exists 40017%Z, (-2)%Z. split; [reflexivity|]. split; [lia|]. vm_compute. reflexivity.
    + exists 40018%Z, (-2)%Z. split; [reflexivity|]. split; [lia|]. vm_compute. reflexivity.
Defined.




End Weights.

(** ** Blocking *)

Section Blocking.

Import BlockFunctions.
Local Open Scope list_scope.

(** C3 is broken by the code: a pass skipped by configuration (an empty
    list of blocking fields, the way config.py tells to skip a pass)
    makes [run_blocking_pass] return the empty text, which forgets the
    join conditions of all earlier passes. A pair sharing [common_id]
    and [zipcode] is emitted by pass 0 and again by pass 2. *)
Theorem skipped_pass_resets_exclusion :
  let a := person 0 "a1" "123" "60637" in
  let b := person 0 "b1" "123" "60637" in
  let p := mk_pair (Some "a1") (Some "b1") 0 0 in
  all_blocking TEXT [] [["common_id"]; []; ["zipcode"]]
    vars_example vars_example "B" [a] [b]
  = Ok [(Pass 0, [p]); (Pass 2, [p])].
Proof. vm_compute. reflexivity. Qed.

(** Without the skipped pass in between, pass 1 leaves the pair out. *)
Example exclusion_without_skipped_pass :
  let a := person 0 "a1" "123" "60637" in
  let b := person 0 "b1" "123" "60637" in
  let p := mk_pair (Some "a1") (Some "b1") 0 0 in
  all_blocking TEXT [] [["common_id"]; ["zipcode"]]
    vars_example vars_example "B" [a] [b]
  = Ok [(Pass 0, [p]); (Pass 1, [])].
Proof. vm_compute. reflexivity. Qed.

(** A second way out of the partition: with [common_id] NULL on the B
    side, the negated past condition is NULL, and the pair, which
    satisfies the predicate of pass 1, is emitted by no pass. *)
Example null_field_drops_pair :
  let a := person 0 "a1" "123" "60637" in
  let b := mk_record 0 {[ "id" := "b1"; "zip" := "60637" ]} in
  satisfies a b [("zip", "zip")]
  ∧ all_blocking TEXT [] [["common_id"]; ["zipcode"]]
      vars_example vars_example "B" [a] [b]
    = Ok [(Pass 0, []); (Pass 1, [])].
Proof. split; vm_compute; reflexivity. Qed.

Lemma and3_true (x y : tv) : and3 x y = TRUE → x = TRUE ∧ y = TRUE.
Proof. by destruct x, y. Qed.

Lemma ltb_irrefl (s : string) : String.ltb s s = false.
Proof.
  unfold String.ltb. pose proof (String.compare_antisym s s) as H.
  by destruct (String.compare s s).
Qed.

Lemma idx_lt_true (ty : coltype) (a b : record) :
  idx_lt ty a b = TRUE →
  idx a ≠ idx b
  ∧ match ty with
    | INTEGER => (idx a < idx b)%N
    | TEXT => String.ltb (decimal (idx a)) (decimal (idx b)) = true
    end.
Proof.
  destruct ty; simpl.
  - destruct (String.ltb _ _) eqn:H; [|done]. intros _. split; [|done].
    intros Heq. rewrite Heq in H. by rewrite ltb_irrefl in H.
  - destruct (N.ltb_spec (idx a) (idx b)); [|done]. intros _. split; [lia|done].
Qed.

Lemma ne3_true (x y : option string) :
  ne3 x y = TRUE → ∃ u v, x = Some u ∧ y = Some v ∧ u ≠ v.
Proof.
  destruct x as [u|], y as [v|]; try done. unfold ne3. simpl.
  destruct (String.eqb_spec u v); [done|]. eauto.
Qed.

Lemma execute_dedup_excluded (ty : coltype) (table_a table_b : list record)
    (ia ib : string) (c : full_cond) (cands : list pair) :
  execute_blocking_join ty table_a table_b ia ib (AndIdNe (AndIdxLt c) ia ib)
  = Ok cands →
  Forall (self_excluded ty) cands.
Proof.
  unfold execute_blocking_join. destruct (well_formed _); [|done].
  intros [= <-]. apply Forall_forall. intros p Hp.
  apply list_elem_of_In, in_flat_map in Hp as (a & _ & Hp).
  apply in_flat_map in Hp as (b & _ & Hp).
  simpl in Hp.
  destruct (and3 (and3 (eval_full ty a b c) (idx_lt ty a b))
                 (ne3 (fields a !! ia) (fields b !! ib))) eqn:He; try done.
  destruct Hp as [<-|[]].
  apply and3_true in He as [[_ Hlt]%and3_true Hne].
  apply idx_lt_true in Hlt as [? ?]. apply ne3_true in Hne.
  by repeat split.
Qed.

Lemma find_pass_candidates_dedup (ty : coltype) (pa pb : list string)
    (ia ib : string) (past : past_join_cond) (table_a table_b : list record)
    (r : past_join_cond * list pair) :
  find_pass_candidates ty pa pb ia ib past table_a table_b true = Ok r →
  Forall (self_excluded ty) (snd r).
Proof.
  unfold find_pass_candidates. destruct (get_pass_join_cond pa pb); [|done].
  simpl. destruct (execute_blocking_join _ _ _ _ _ _) eqn:He; [|done].
  intros [= <-]. by eapply execute_dedup_excluded.
Qed.

Lemma ground_truth_loop_dedup (ty : coltype) (gids : list string)
    (vars_a vars_b : gmap string string) (ia ib : string)
    (past : past_join_cond) (table_a table_b : list record)
    (r : past_join_cond * list (string * list pair)) :
  ground_truth_loop ty gids vars_a vars_b ia ib true past table_a table_b = Ok r →
  Forall (λ x, Forall (self_excluded ty) (snd x)) (snd r).
Proof.
  revert past r. induction gids as [|gid gids IH]; intros past r; simpl.
  - by intros [= <-].
  - destruct (getitem vars_a gid); [|done]. destruct (getitem vars_b gid); [|done].
    simpl. destruct (find_pass_candidates _ _ _ _ _ _ _ _ _) as [r1|] eqn:H1;
      [|done]. simpl.
    destruct (ground_truth_loop _ _ _ _ _ _ _ _ _ _) as [r2|] eqn:H2; [|done].
    intros [= <-]. simpl. constructor; [|by eapply IH].
    by eapply find_pass_candidates_dedup.
Qed.

Lemma run_blocking_pass_dedup (ty : coltype) (blocks : list (list string))
    (passnum : nat) (vars_a vars_b : gmap string string)
    (past : past_join_cond) (table_a table_b : list record)
    (r : past_join_cond * option (list pair)) (cands : list pair) :
  run_blocking_pass ty blocks passnum vars_a vars_b "dedup" past table_a table_b
  = Ok r →
  snd r = Some cands → Forall (self_excluded ty) cands.
Proof.
  unfold run_blocking_pass. destruct (blocks !! passnum) as [vs|]; [|done].
  destruct (getitem vars_a "indv_id"); [|done].
  destruct (getitem vars_b "indv_id"); [|done]. simpl.
  destruct vs as [|v vs]; [by intros [= <-]|].
  destruct (_ || _); [by intros [= <-]|].
  destruct (find_pass_candidates _ _ _ _ _ _ _ _ _) as [r1|] eqn:H1; [|done].
  intros [= <-] [= <-]. by eapply find_pass_candidates_dedup.
Qed.

Lemma blocking_loop_dedup (ty : coltype) (blocks : list (list string))
    (passnums : list nat) (vars_a vars_b : gmap string string)
    (past : past_join_cond) (table_a table_b : list record)
    (out : list (nat * list pair)) :
  blocking_loop ty blocks passnums vars_a vars_b "dedup" past table_a table_b
  = Ok out →
  Forall (λ x, Forall (self_excluded ty) (snd x)) out.
Proof.
  revert past out. induction passnums as [|p ps IH]; intros past out; simpl.
  - by intros [= <-].
  - destruct (run_blocking_pass _ _ _ _ _ _ _ _ _) as [r|] eqn:H1; [|done].
    simpl. destruct (blocking_loop _ _ _ _ _ _ _ _ _) as [o|] eqn:H2; [|done].
    intros [= <-]. specialize (IH _ _ H2).
    destruct (snd r) as [cands|] eqn:Hr; [|done]. constructor; [|done].
    by eapply run_blocking_pass_dedup.
Qed.

(** C6, as stated, fails on the tables the loaders of the repository
    create, where [idx] is a TEXT column: the rows numbered 9 and 10
    are paired as (10, 9), the one order in which the text of the first
    precedes the text of the second. *)
Lemma dedup_text_idx_counterexample :
  let t := [person 9 "p" "123" "60637"; person 10 "q" "123" "60601"] in
  all_blocking TEXT [] [["common_id"]] vars_example vars_example "dedup" t t
  = Ok [(Pass 0, [mk_pair (Some "q") (Some "p") 10 9])]
  ∧ ¬ (idx_a (mk_pair (Some "q") (Some "p") 10 9)
       < idx_b (mk_pair (Some "q") (Some "p") 10 9))%N.
Proof. split; [vm_compute; reflexivity|]. simpl. lia. Qed.

(** C6, amended. In a dedup match, every candidate pair emitted by any
    blocking pass (ground-truth-ID passes included) has idx_a ≠ idx_b
    and indv_id_a ≠ indv_id_b, both ids being present, and its two rows
    are in the order a.idx < b.idx of the idx column of the table:
    idx_a < idx_b as numbers when that column is an integer column, the
    decimal text of idx_a before the decimal text of idx_b when it is a
    text column. *)
Theorem dedup_self_exclusion (ty : coltype) (ground_truth_ids : list string)
    (blocks_by_pass : list (list string)) (vars_a vars_b : gmap string string)
    (table_a table_b : list record) (out : list (pass_label * list pair)) :
  all_blocking ty ground_truth_ids blocks_by_pass vars_a vars_b "dedup"
    table_a table_b = Ok out →
  ∀ label cands c, (label, cands) ∈ out → c ∈ cands → self_excluded ty c.
Proof.
  unfold all_blocking. intros H.
  assert (∃ gt, (match ground_truth_ids with
                 | [] => Ok ([], [])
                 | _ => run_ground_truth_ids_passes ty ground_truth_ids vars_a
                          vars_b "dedup" [] table_a table_b
                 end) = Ok gt
                ∧ Forall (λ x, Forall (self_excluded ty) (snd x)) (snd gt)
                ∧ ∃ ps, blocking_loop ty blocks_by_pass
                          (seq 0 (length blocks_by_pass)) vars_a vars_b "dedup"
                          (fst gt) table_a table_b = Ok ps
                        ∧ out = map (λ x, (Dup (fst x), snd x)) (snd gt)
                                ++ map (λ x, (Pass (fst x), snd x)) ps)
    as (gt & _ & Hgt & ps & Hps & ->).
  { destruct (match ground_truth_ids with [] => _ | _ => _ end) as [gt|] eqn:Hg;
      [|done]. simpl in H. exists gt. split; [done|]. split.
    - destruct ground_truth_ids; [by injection Hg as <-|].
      unfold run_ground_truth_ids_passes in Hg.
      destruct (getitem vars_a "indv_id"); [|done].
      destruct (getitem vars_b "indv_id"); [|done].
      change (String.eqb "dedup" "dedup") with true in Hg.
      cbn [rbind] in Hg. by eapply ground_truth_loop_dedup.
    - destruct (blocking_loop _ _ _ _ _ _ _ _ _) as [ps|]; [|done].
      injection H as <-. eauto. }
  apply blocking_loop_dedup in Hps.
  intros label cands c Hin Hc. rewrite Forall_forall in Hgt.
  rewrite Forall_forall in Hps.
  apply elem_of_app in Hin as [Hin|Hin];
    apply list_elem_of_fmap in Hin as ([n cs] & [= -> ->] & Hin).
  - specialize (Hgt _ Hin). rewrite Forall_forall in Hgt. by apply Hgt.
  - specialize (Hps _ Hin). rewrite Forall_forall in Hps. by apply Hps.
Qed.

Lemma dedup_self_exclusion_witness :
  let t := [person 9 "p" "123" "60637"; person 10 "q" "123" "60601"] in
  self_excluded TEXT (mk_pair (Some "q") (Some "p") 10 9).
Proof.
  intros t.
  apply (dedup_self_exclusion TEXT [] [["common_id"]] vars_example vars_example
           t t [(Pass 0, [mk_pair (Some "q") (Some "p") 10 9])]
           ltac:(vm_compute; reflexivity) (Pass 0)
           [mk_pair (Some "q") (Some "p") 10 9]).
  - apply list_elem_of_here.
  - apply list_elem_of_here.
Defined.

End Blocking.

(** ** One-to-one resolution *)

Section OneToOne.

Import Postprocess.
Local Open Scope list_scope.

Lemma same_match_refl e : same_match e e.
Proof. by repeat split. Qed.

Lemma same_match_mark e : same_match e (mark e).
Proof. by repeat split. Qed.

Lemma same_match_trans e1 e2 e3 :
  same_match e1 e2 → same_match e2 e3 → same_match e1 e3.
Proof. intros (?&?&?) (?&?&?). repeat split; try congruence. auto. Qed.

Lemma keeps_matches_refl d : keeps_matches d d.
Proof. intros k e H. exists e. split; [done|apply same_match_refl]. Qed.

Lemma keeps_matches_trans d1 d2 d3 :
  keeps_matches d1 d2 → keeps_matches d2 d3 → keeps_matches d1 d3.
Proof.
  intros H1 H2 k e Hk. destruct (H1 k e Hk) as (e' & Hk' & ?).
  destruct (H2 k e' Hk') as (e'' & ? & ?). exists e''. split; [done|].
  by eapply same_match_trans.
Qed.

Lemma keeps_matches_partners d d' : keeps_matches d d' → keeps_partners d d'.
Proof. intros H k e Hk. destruct (H k e Hk) as (e' & ? & ? & _). eauto. Qed.

Lemma keeps_partners_refl d : keeps_partners d d.
Proof. intros k e H. eauto. Qed.

Lemma keeps_partners_trans d1 d2 d3 :
  keeps_partners d1 d2 → keeps_partners d2 d3 → keeps_partners d1 d3.
Proof.
  intros H1 H2 k e Hk. destruct (H1 k e Hk) as (e' & Hk' & ?).
  destruct (H2 k e' Hk') as (e'' & ? & ?). exists e''. split; [done|congruence].
Qed.

(** Marking an entry keeps the matches. *)
Lemma keeps_matches_mark d k e :
  d !! k = Some e → keeps_matches d (<[k := mark e]> d).
Proof.
  intros Hk k' e' Hk'. destruct (decide (k = k')) as [<-|].
  - rewrite lookup_insert_eq. simplify_eq. eexists. split; [done|].
    apply same_match_mark.
  - rewrite lookup_insert_ne by done. exists e'. split; [done|apply same_match_refl].
Qed.

(** Adding an entry under a new key keeps the matches. *)
Lemma keeps_matches_new d k e :
  d !! k = None → keeps_matches d (<[k := e]> d).
Proof.
  intros Hk k' e' Hk'. rewrite lookup_insert_ne by congruence.
  exists e'. split; [done|apply same_match_refl].
Qed.

Lemma keeps_partners_insert d k e :
  (∀ e0, d !! k = Some e0 → partner e = partner e0) →
  keeps_partners d (<[k := e]> d).
Proof.
  intros H k' e' Hk'. destruct (decide (k = k')) as [<-|].
  - rewrite lookup_insert_eq. eexists. split; [done|]. by apply H.
  - rewrite lookup_insert_ne by done. eauto.
Qed.

(** The two dictionaries stay cross-present when entries keep their
    partners and the new entries have their partner on the other side. *)
Lemma cross_present_keeps (ab ba ab' ba' : gmap string entry) :
  cross_present (ab, ba) →
  keeps_partners ab ab' → keeps_partners ba ba' →
  (∀ k e, ab' !! k = Some e → (∃ e0, ab !! k = Some e0 ∧ partner e = partner e0)
                               ∨ is_Some (ba' !! partner e)) →
  (∀ k e, ba' !! k = Some e → (∃ e0, ba !! k = Some e0 ∧ partner e = partner e0)
                               ∨ is_Some (ab' !! partner e)) →
  cross_present (ab', ba').
Proof.
  intros [Ha Hb] Hka Hkb Hna Hnb. split; simpl in *.
  - intros a e He. destruct (Hna a e He) as [(e0 & H0 & ->)|]; [|done].
    destruct (Ha a e0 H0) as [eb Heb]. destruct (Hkb _ _ Heb) as (? & ? & _). eauto.
  - intros b e He. destruct (Hnb b e He) as [(e0 & H0 & ->)|]; [|done].
    destruct (Hb b e0 H0) as [ea Hea]. destruct (Hka _ _ Hea) as (? & ? & _). eauto.
Qed.

Lemma tie_on_a_spec (st : matching) (l : line) :
  cross_present st →
  (fst st !! indv_id_a l = None → is_Some (snd st !! indv_id_b l)) →
  ∃ st', tie_on_a st l = Ok st'
         ∧ cross_present st'
         ∧ keeps_matches (fst st) (fst st')
         ∧ keeps_matches (snd st) (snd st')
         ∧ adds_at_most (indv_id_a l) (fst st) (fst st')
         ∧ adds_at_most (indv_id_b l) (snd st) (snd st')
         ∧ is_Some (fst st' !! indv_id_a l)
         ∧ (∀ e, fst st !! indv_id_a l = Some e → partner e ≠ indv_id_b l →
              ∃ e', fst st' !! indv_id_a l = Some e' ∧ deleted e' = true).
Proof.
  destruct st as [ab ba]. intros Hinv Hb. simpl in Hb. unfold tie_on_a.
  destruct (ab !! indv_id_a l) as [e|] eqn:Ha.
  - case_bool_decide as Hne.
    + destruct (proj1 Hinv _ _ Ha) as [eb Heb]. unfold getitem. simpl in Heb.
      rewrite Heb. simpl.
      assert (keeps_matches ab (<[indv_id_a l := mark e]> ab)) as Hk1
        by by apply keeps_matches_mark.
      assert (keeps_matches ba (<[partner e := mark eb]> ba)) as Hk2
        by by apply keeps_matches_mark.
      assert (∀ e0, fst (ab, ba) !! indv_id_a l = Some e0 → partner e0 ≠ indv_id_b l →
        ∃ e', <[indv_id_a l:=mark e]> ab !! indv_id_a l = Some e' ∧ deleted e' = true).
      { intros. rewrite lookup_insert_eq. eauto. }
      case_bool_decide; eexists; (split; [done|]); simpl.
      * split_and!; try done.
        -- eapply cross_present_keeps; eauto using keeps_matches_partners.
           ++ intros k e0 Hk. left. destruct (decide (indv_id_a l = k)) as [<-|].
              ** rewrite lookup_insert_eq in Hk. simplify_eq. eauto.
              ** rewrite lookup_insert_ne in Hk by done. eauto.
           ++ intros k e0 Hk. left. destruct (decide (partner e = k)) as [<-|].
              ** rewrite lookup_insert_eq in Hk. simplify_eq. eauto.
              ** rewrite lookup_insert_ne in Hk by done. eauto.
        -- intros k Hk Hne'. by rewrite lookup_insert_ne.
        -- intros k Hk Hne'. rewrite lookup_insert_ne; [done|congruence].
        -- by rewrite lookup_insert_eq.
      * split_and!; try done.
        -- eapply cross_present_keeps; eauto using keeps_matches_partners, keeps_partners_refl.
           intros k e0 Hk. left. destruct (decide (indv_id_a l = k)) as [<-|].
           ++ rewrite lookup_insert_eq in Hk. simplify_eq. eauto.
           ++ rewrite lookup_insert_ne in Hk by done. eauto.
        -- apply keeps_matches_refl.
        -- intros k Hk Hne'. by rewrite lookup_insert_ne.
        -- by intros k Hk Hne'.
        -- by rewrite lookup_insert_eq.
    + eexists. split; [done|]. simpl. split_and!; try done;
        try apply keeps_matches_refl; try by intros k Hk Hne'.
      intros e0 ? ?. simplify_eq.
  - eexists. split; [done|]. simpl. split_and!.
    + eapply cross_present_keeps; eauto using keeps_partners_refl.
      * apply keeps_matches_partners. by apply keeps_matches_new.
      * intros k e0 Hk. destruct (decide (indv_id_a l = k)) as [<-|].
        -- rewrite lookup_insert_eq in Hk. simplify_eq. right. simpl. by apply Hb.
        -- rewrite lookup_insert_ne in Hk by done. eauto.
    + by apply keeps_matches_new.
    + apply keeps_matches_refl.
    + intros k Hk Hne'. by rewrite lookup_insert_ne.
    + by intros k Hk Hne'.
    + by rewrite lookup_insert_eq.
    + intros e0 ?. simplify_eq.
Qed.


Lemma tie_on_b_spec (st : matching) (l : line) :
  cross_present st →
  is_Some (fst st !! indv_id_a l) →
  ∃ st', tie_on_b st l = Ok st'
         ∧ cross_present st'
         ∧ keeps_matches (fst st) (fst st')
         ∧ keeps_partners (snd st) (snd st')
         ∧ adds_at_most (indv_id_a l) (fst st) (fst st')
         ∧ adds_at_most (indv_id_b l) (snd st) (snd st').
Proof.
  destruct st as [ab ba]. intros Hinv Ha. simpl in Ha. unfold tie_on_b.
  assert ((∀ e0, ba !! indv_id_b l = Some e0 → partner e0 = indv_id_a l) →
    ∃ st', (if bool_decide (indv_id_a l ∉ dom ba)
            then Ok (ab, <[indv_id_b l := new_entry (indv_id_a l) l true]> ba)
            else Ok (ab, ba)) = Ok st'
         ∧ cross_present st'
         ∧ keeps_matches (fst (ab, ba)) (fst st')
         ∧ keeps_partners (snd (ab, ba)) (snd st')
         ∧ adds_at_most (indv_id_a l) (fst (ab, ba)) (fst st')
         ∧ adds_at_most (indv_id_b l) (snd (ab, ba)) (snd st')) as Hother.
  { intros Hsame. case_bool_decide; eexists; (split; [done|]); simpl.
    - assert (keeps_partners ba (<[indv_id_b l := new_entry (indv_id_a l) l true]> ba))
        as Hk.
      { apply keeps_partners_insert. intros e0 H0. simpl. symmetry. by apply Hsame. }
      split_and!; try done.
      + eapply cross_present_keeps; eauto using keeps_partners_refl.
        intros k e0 Hk0. destruct (decide (indv_id_b l = k)) as [<-|].
        * rewrite lookup_insert_eq in Hk0. simplify_eq. by right.
        * rewrite lookup_insert_ne in Hk0 by done. eauto.
      + apply keeps_matches_refl.
      + by intros k Hk0 Hne'.
      + intros k Hk0 Hne'. by rewrite lookup_insert_ne.
    - split_and!; try done; try apply keeps_matches_refl;
        try apply keeps_partners_refl; by intros k ? ?. }
  destruct (ba !! indv_id_b l) as [e|] eqn:Hb.
  - destruct (decide (indv_id_a l = partner e)) as [Heq|Hne].
    { rewrite bool_decide_eq_false_2 by (by intros ?).
      apply Hother. intros e0 ?. by simplify_eq. }
    rewrite bool_decide_eq_true_2 by done. clear Hother.
    destruct (proj2 Hinv _ _ Hb) as [ea Hea]. unfold getitem. simpl in Hea.
    rewrite Hea. simpl. eexists. split; [done|]. simpl.
    assert (keeps_matches ab (if bool_decide (partner ea = indv_id_b l)
                              then <[partner e:=mark ea]> ab else ab)) as Hk1.
    { case_bool_decide; [by apply keeps_matches_mark|apply keeps_matches_refl]. }
    assert (keeps_matches ba (<[indv_id_b l := mark e]> ba)) as Hk2
      by by apply keeps_matches_mark.
    split_and!; try done.
    + eapply cross_present_keeps; eauto using keeps_matches_partners.
      * intros k e0 Hk. left. case_bool_decide; [|eauto].
        destruct (decide (partner e = k)) as [<-|].
        -- rewrite lookup_insert_eq in Hk. simplify_eq. eauto.
        -- rewrite lookup_insert_ne in Hk by done. eauto.
      * intros k e0 Hk. left. destruct (decide (indv_id_b l = k)) as [<-|].
        -- rewrite lookup_insert_eq in Hk. simplify_eq. eauto.
        -- rewrite lookup_insert_ne in Hk by done. eauto.
    + by apply keeps_matches_partners.
    + intros k Hk Hne'. case_bool_decide; [|done].
      rewrite lookup_insert_ne; [done|congruence].
    + intros k Hk Hne'. by rewrite lookup_insert_ne.
  - apply Hother. intros e0 ?. simplify_eq.
Qed.

Lemma same_weight_true (d : gmap string entry) (k w : string) :
  same_weight d k w = true → ∃ e, d !! k = Some e ∧ eweight e = w.
Proof.
  unfold same_weight. destruct (d !! k) as [e|]; [|done].
  intros H%String.eqb_eq. eauto.
Qed.

Lemma step_spec (st : matching) (l : line) :
  cross_present st →
  ∃ st', one_to_one_step st l = Ok st'
         ∧ cross_present st'
         ∧ keeps_matches (fst st) (fst st')
         ∧ keeps_partners (snd st) (snd st')
         ∧ adds_at_most (indv_id_a l) (fst st) (fst st')
         ∧ adds_at_most (indv_id_b l) (snd st) (snd st')
         ∧ (∀ e, fst st !! indv_id_a l = Some e → eweight e = weight l →
              partner e ≠ indv_id_b l →
              ∃ e', fst st' !! indv_id_a l = Some e' ∧ deleted e' = true).
Proof.
  destruct st as [ab ba]. intros Hinv. unfold one_to_one_step.
  destruct (same_weight ab _ _ || same_weight ba _ _) eqn:Htie.
  - destruct (tie_on_a_spec (ab, ba) l Hinv)
      as ([ab1 ba1] & -> & Hinv1 & Ha1 & Hb1 & Hna1 & Hnb1 & Hsome & Hmark).
    { simpl. intros Hnone. apply orb_true_iff in Htie as [H|H].
      - apply same_weight_true in H as (e & ? & _). congruence.
      - apply same_weight_true in H as (e & ? & _). eauto. }
    cbn [rbind fst snd] in *.
    destruct (tie_on_b_spec (ab1, ba1) l Hinv1 Hsome)
      as ([ab2 ba2] & -> & Hinv2 & Ha2 & Hb2 & Hna2 & Hnb2).
    cbn [fst snd] in *. eexists. split; [done|]. simpl. split_and!; try done.
    + by eapply keeps_matches_trans.
    + eapply keeps_partners_trans; [by apply keeps_matches_partners|done].
    + intros k Hk Hne. apply Hna2; [|done]. by apply Hna1.
    + intros k Hk Hne. apply Hnb2; [|done]. by apply Hnb1.
    + intros e He _ Hne. destruct (Hmark e He Hne) as (e1 & He1 & Hd1).
      destruct (Ha2 _ _ He1) as (e2 & He2 & _ & _ & Hd2). eauto.
  - apply orb_false_iff in Htie as [Hta Htb].
    assert (∀ e, ab !! indv_id_a l = Some e → eweight e ≠ weight l) as Hw.
    { intros e He Heq. unfold same_weight in Hta. rewrite He in Hta.
      apply String.eqb_neq in Hta. congruence. }
    destruct (bool_decide (indv_id_a l ∉ dom ab) && bool_decide (indv_id_b l ∉ dom ba))
      eqn:Hfresh.
    + apply andb_prop in Hfresh as [Hfa%bool_decide_eq_true Hfb%bool_decide_eq_true].
      apply not_elem_of_dom in Hfa, Hfb.
      eexists. split; [done|]. simpl. split_and!.
      * eapply cross_present_keeps; eauto.
        -- apply keeps_matches_partners. by apply keeps_matches_new.
        -- apply keeps_matches_partners. by apply keeps_matches_new.
        -- intros k e Hk. destruct (decide (indv_id_a l = k)) as [<-|].
           ++ rewrite lookup_insert_eq in Hk. simplify_eq. right. simpl.
              by rewrite lookup_insert_eq.
           ++ rewrite lookup_insert_ne in Hk by done. eauto.
        -- intros k e Hk. destruct (decide (indv_id_b l = k)) as [<-|].
           ++ rewrite lookup_insert_eq in Hk. simplify_eq. right. simpl.
              by rewrite lookup_insert_eq.
           ++ rewrite lookup_insert_ne in Hk by done. eauto.
      * by apply keeps_matches_new.
      * apply keeps_matches_partners. by apply keeps_matches_new.
      * intros k Hk Hne. by rewrite lookup_insert_ne.
      * intros k Hk Hne. by rewrite lookup_insert_ne.
      * intros e He. congruence.
    + eexists. split; [done|]. simpl. split_and!; try done;
        try apply keeps_matches_refl; try apply keeps_partners_refl;
        try (by intros k ? ?).
      intros e He Heq. by destruct (Hw e He).
Qed.




Lemma cross_present_empty : cross_present (∅, ∅).
Proof. split; intros k e H; simpl in H; by rewrite lookup_empty in H. Qed.


Lemma write_weights_rows_elem (items : list (string * entry)) (row : list string) :
  row ∈ write_weights_rows items 0 →
  ∃ k e, (k, e) ∈ items ∧ deleted e = false ∧ row = [k; partner e; epass e].
Proof.
  unfold write_weights_rows. intros Hin%list_elem_of_In%in_flat_map.
  destruct Hin as ([k e] & Hin%list_elem_of_In & Hrow).
  destruct (deleted e) eqn:Hd; [done|]. destruct Hrow as [<-|[]]. eauto.
Qed.




End OneToOne.

(** ** The union-find structure *)

#[local] Set Warnings "-clear-no-such-hyp".

Section UnionFindInvariants.

Import UnionFind.
Local Open Scope list_scope.

Lemma lookup_assign_all_cases `{Countable K} {V} (keys : gset K) (v : V)
    (d : gmap K V) (k : K) :
  (k ∈ keys → assign_all keys v d !! k = Some v)
  ∧ (k ∉ keys → assign_all keys v d !! k = d !! k).
Proof.
  unfold assign_all.
  apply (set_fold_ind_L (λ acc X, (k ∈ X → acc !! k = Some v)
                                  ∧ (k ∉ X → acc !! k = d !! k))).
  - split; [set_solver|done].
  - intros x X acc Hx [IH1 IH2]. split.
    + intros Hk. destruct (decide (x = k)) as [->|Hne].
      * apply lookup_insert_eq.
      * rewrite lookup_insert_ne by done. apply IH1. set_solver.
    + intros Hk. rewrite lookup_insert_ne by set_solver. apply IH2. set_solver.
Qed.

Lemma lookup_assign_all `{Countable K} {V} (keys : gset K) (v : V)
    (d : gmap K V) (k : K) :
  assign_all keys v d !! k = if decide (k ∈ keys) then Some v else d !! k.
Proof.
  destruct (lookup_assign_all_cases keys v d k) as [H1 H2].
  case_decide; auto.
Qed.

(** The group names after a merge of [b] into [a], described by lookups. *)
Lemma wf_groups_merge (live live' : gset nat) (gttg gttg' : gmap nat nat)
    (tg tg' : gmap nat (gset nat)) (a b : nat) :
  wf_groups live gttg tg →
  a ∈ live → b ∈ live → a ≠ b →
  live' = live ∖ {[b]} →
  (∀ x, gttg' !! x = if decide (x ∈ default ∅ (tg !! b) ∨ x = b) then Some a
                     else gttg !! x) →
  (∀ x, tg' !! x = if decide (x = b) then None
                   else if decide (x = a)
                        then Some (default ∅ (tg !! a) ∪ {[b]} ∪ default ∅ (tg !! b))
                        else tg !! x) →
  wf_groups live' gttg' tg'.
Proof.
  intros [Halias Hself Htracked Hmerged Htops] Ha Hb Hab -> Hg Ht.
  assert (∀ x top, gttg !! x = Some top → ¬ (x ∈ default ∅ (tg !! b) ∨ x = b) →
            top ≠ b) as Hnotb.
  { intros x top Hx Hn ->. destruct (decide (x = b)) as [->|Hxb]; [tauto|].
    destruct (Htracked _ _ Hx Hxb) as (m & Hm & Hin). rewrite Hm in Hn. simpl in Hn.
    tauto. }
  split.
  - intros x top. rewrite Hg. case_decide as Hc.
    + intros [= <-]. set_solver.
    + intros Hx. pose proof (Hnotb _ _ Hx Hc). pose proof (Halias _ _ Hx). set_solver.
  - intros x top. rewrite Hg. case_decide as Hc.
    + intros [= <-] Hx. destruct Hc as [Hc| ->]; [|set_solver].
      destruct (tg !! b) as [mb|] eqn:Hmb; simpl in Hc; [|set_solver].
      destruct (Hmerged _ _ _ Hmb Hc). set_solver.
    + intros Hx Hlive. apply (Hself _ _ Hx). set_solver.
  - intros x top. rewrite Hg, Ht. case_decide as Hc.
    + intros [= <-] Hxa. rewrite decide_False by done. rewrite decide_True by done.
      eexists. split; [done|]. set_solver.
    + intros Hx Hxt. pose proof (Hnotb _ _ Hx Hc).
      destruct (Htracked _ _ Hx Hxt) as (m & Hm & Hin).
      rewrite decide_False by done. case_decide as Hta.
      * subst top. rewrite Hm. simpl. eexists. split; [done|]. set_solver.
      * eauto.
  - intros top m x. rewrite Ht, Hg. case_decide; [done|]. case_decide as Hta.
    + intros [= <-] Hin. 
      assert (x ∈ default ∅ (tg !! a) ∨ x = b ∨ x ∈ default ∅ (tg !! b)) as Hcases
        by set_solver.
      destruct Hcases as [Hx|[->|Hx]].
      * destruct (tg !! a) as [ma|] eqn:Hma; simpl in Hx; [|set_solver].
        destruct (Hmerged _ _ _ Hma Hx) as [? [t' ?]].
        split; [set_solver|]. case_decide; eauto.
      * split; [set_solver|]. rewrite decide_True by tauto. eauto.
      * split; [|rewrite decide_True by tauto; eauto].
        destruct (tg !! b) as [mb|] eqn:Hmb; simpl in Hx; [|set_solver].
        destruct (Hmerged _ _ _ Hmb Hx). set_solver.
    + intros Hm Hin. destruct (Hmerged _ _ _ Hm Hin) as [? [t' ?]].
      split; [set_solver|]. case_decide; eauto.
  - intros top m. rewrite Ht. case_decide; [done|]. case_decide as Hta.
    + intros _. set_solver.
    + intros Hm. pose proof (Htops _ _ Hm). set_solver.
Qed.

Lemma live_top (live : gset nat) (gttg : gmap nat nat) (tg : gmap nat (gset nat))
    (a : nat) :
  wf_groups live gttg tg → a ∈ live → default a (gttg !! a) = a.
Proof.
  intros Hwf Ha. destruct (gttg !! a) as [top|] eqn:Htop; [|done].
  simpl. by eapply wf_self.
Qed.

Lemma live_not_merged_into (live : gset nat) (gttg : gmap nat nat)
    (tg : gmap nat (gset nat)) (a b : nat) :
  wf_groups live gttg tg → a ∈ live → a ≠ b → merged_into gttg a b = false.
Proof.
  intros Hwf Ha Hab. unfold merged_into.
  destruct (gttg !! a) as [top|] eqn:Htop; [|done].
  rewrite (wf_self _ _ _ Hwf _ _ Htop Ha). by apply bool_decide_eq_false_2.
Qed.

(** [union] on two different groups that have sets: it returns, the set
    of the second goes into the first, and the names stay well formed. *)
Lemma union_live (uf : t) (a b : nat) (sa sb : gset item) :
  wf_groups (dom (group_to_item_set uf)) (group_to_top_group uf)
    (top_group_to_merged_groups uf) →
  a ≠ b →
  group_to_item_set uf !! a = Some sa →
  group_to_item_set uf !! b = Some sb →
  ∃ uf', union a b uf = Ok uf'
    ∧ group_to_item_set uf' = delete b (<[a := sa ∪ sb]> (group_to_item_set uf))
    ∧ item_to_group uf' = assign_all sb a (item_to_group uf)
    ∧ wf_groups (dom (group_to_item_set uf')) (group_to_top_group uf')
        (top_group_to_merged_groups uf')
    ∧ count uf' = count uf
    ∧ (∀ x, group_to_top_group uf' !! x
            = if decide (x ∈ default ∅ (top_group_to_merged_groups uf !! b) ∨ x = b)
              then Some a else group_to_top_group uf !! x).
Proof.
  destruct uf as [gtis itg gttg tg n]. simpl. intros Hwf Hab Ha Hb.
  assert (a ∈ dom gtis) as Hla by (apply elem_of_dom; eauto).
  assert (b ∈ dom gtis) as Hlb by (apply elem_of_dom; eauto).
  unfold union. simpl. rewrite bool_decide_eq_false_2 by done.
  rewrite (live_not_merged_into _ _ _ a b Hwf Hla) by done.
  rewrite (live_not_merged_into _ _ _ b a Hwf Hlb) by done.
  rewrite (live_top _ _ _ a Hwf Hla), (live_top _ _ _ b Hwf Hlb).
  unfold getitem. rewrite Ha, Hb. simpl.
  set (tg1 := match tg !! a with
              | Some m => <[a:=m ∪ {[b]} ∪ {[b]}]> tg
              | None => <[a:={[b]} ∪ {[b]}]> tg
              end).
  assert (tg1 !! a = Some (default ∅ (tg !! a) ∪ {[b]})) as H1a.
  { unfold tg1. destruct (tg !! a); simpl; rewrite lookup_insert_eq; f_equal;
      set_solver. }
  assert (∀ x, x ≠ a → tg1 !! x = tg !! x) as H1x.
  { intros x Hx. unfold tg1. destruct (tg !! a); by rewrite lookup_insert_ne. }
  set (tg2 := match tg1 !! b with
              | Some mb => <[a:=default ∅ (tg1 !! a) ∪ mb]> tg1
              | None => tg1
              end).
  assert (tg2 !! a = Some (default ∅ (tg !! a) ∪ {[b]} ∪ default ∅ (tg !! b)))
    as H2a.
  { unfold tg2. rewrite H1x by done. destruct (tg !! b); simpl.
    - rewrite lookup_insert_eq, H1a. done.
    - rewrite H1a. f_equal. set_solver. }
  assert (∀ x, x ≠ a → tg2 !! x = tg !! x) as H2x.
  { intros x Hx. unfold tg2. destruct (tg1 !! b); [rewrite lookup_insert_ne by done|];
      by apply H1x. }
  clearbody tg2. clear H1a H1x tg1.
  set (p := match tg2 !! b with
            | Some mb => (assign_all mb a (<[b:=a]> (<[b:=a]> gttg)), delete b tg2)
            | None => (<[b:=a]> (<[b:=a]> gttg), tg2)
            end).
  assert (∀ x, fst p !! x
               = if decide (x ∈ default ∅ (tg !! b) ∨ x = b) then Some a
                 else gttg !! x) as Hg.
  { intros x. unfold p. rewrite H2x by done. destruct (tg !! b) as [mb|]; simpl.
    - rewrite lookup_assign_all. rewrite !lookup_insert.
      repeat case_decide; try done; exfalso; intuition congruence.
    - rewrite !lookup_insert. repeat case_decide; try done; exfalso;
        set_solver. }
  assert (∀ x, snd p !! x
               = if decide (x = b) then None
                 else if decide (x = a)
                      then Some (default ∅ (tg !! a) ∪ {[b]} ∪ default ∅ (tg !! b))
                      else tg !! x) as Ht.
  { intros x. unfold p. destruct (tg2 !! b) as [mb|] eqn:H2b; simpl.
    - rewrite lookup_delete. repeat case_decide; subst; try done. by apply H2x.
    - repeat case_decide; subst; try done. by apply H2x. }
  destruct p as [gttg' tg']. simpl in Hg, Ht.
  eexists. split; [reflexivity|]. simpl. split_and!; try done.
  eapply (wf_groups_merge (dom gtis) _ gttg gttg' tg tg' a b); try done.
  rewrite dom_delete_L, dom_insert_L. set_solver.
Qed.

Lemma dom_assign_all `{Countable K} {V} (keys : gset K) (v : V) (d : gmap K V) :
  dom (assign_all keys v d) = dom d ∪ keys.
Proof.
  apply set_eq. intros k. rewrite elem_of_union, !elem_of_dom, lookup_assign_all.
  case_decide; [|tauto]. split; [tauto|eauto].
Qed.

(** Items of [b] moved to [a]. *)
Lemma wf_items_merge (gtis : gmap nat (gset item)) (itg : gmap item nat)
    (a b : nat) (sa sb : gset item) :
  wf_items gtis itg → a ≠ b → gtis !! a = Some sa → gtis !! b = Some sb →
  wf_items (delete b (<[a := sa ∪ sb]> gtis)) (assign_all sb a itg).
Proof.
  intros [Hmem Hgrp Htri] Hab Ha Hb. split.
  - intros i g. rewrite lookup_assign_all. case_decide as Hi.
    + intros [= <-]. rewrite lookup_delete_ne, lookup_insert_eq by done.
      eexists. split; [done|]. set_solver.
    + intros Hg. destruct (Hmem _ _ Hg) as (s & Hs & His).
      assert (g ≠ b) by (intros ->; simplify_eq; done).
      rewrite lookup_delete_ne by done. destruct (decide (g = a)) as [->|].
      * rewrite lookup_insert_eq. simplify_eq. eexists. split; [done|]. set_solver.
      * rewrite lookup_insert_ne by done. eauto.
  - intros g s i. rewrite lookup_delete. case_decide; [done|].
    rewrite lookup_insert. case_decide.
    + intros [= <-] [Hi|Hi]%elem_of_union; rewrite lookup_assign_all;
        case_decide; subst; eauto; done.
    + intros Hs Hi. rewrite lookup_assign_all. pose proof (Hgrp _ _ _ Hs Hi).
      case_decide as Hib; [|done]. pose proof (Hgrp _ _ _ Hb Hib). congruence.
  - intros x y p g. rewrite !lookup_assign_all. case_decide as Hi.
    + intros [= <-]. pose proof (Hgrp _ _ _ Hb Hi) as Ht.
      destruct (Htri _ _ _ _ Ht) as [Hx Hy].
      destruct (Hmem _ _ Hx) as (s1 & ? & ?). destruct (Hmem _ _ Hy) as (s2 & ? & ?).
      simplify_eq. by rewrite !decide_True.
    + intros Ht. destruct (Htri _ _ _ _ Ht) as [Hx Hy].
      assert (g ≠ b).
      { intros ->. destruct (Hmem _ _ Ht) as (s & ? & ?). by simplify_eq. }
      split; case_decide as Hin; try done; pose proof (Hgrp _ _ _ Hb Hin); congruence.
Qed.

(** Items [X] attached to the group [c], new or not. *)
Lemma wf_items_attach (gtis : gmap nat (gset item)) (itg : gmap item nat)
    (c : nat) (X : gset item) :
  wf_items gtis itg →
  (∀ i, i ∈ X → itg !! i = None ∨ itg !! i = Some c) →
  (∀ x y p, Triple x y p ∈ X →
     (Atom x ∈ X ∨ itg !! Atom x = Some c) ∧ (Atom y ∈ X ∨ itg !! Atom y = Some c)) →
  wf_items (<[c := default ∅ (gtis !! c) ∪ X]> gtis) (assign_all X c itg).
Proof.
  intros [Hmem Hgrp Htri] HX Hclo. split.
  - intros i g. rewrite lookup_assign_all. case_decide as Hi.
    + intros [= <-]. rewrite lookup_insert_eq. eexists. split; [done|]. set_solver.
    + intros Hg. destruct (Hmem _ _ Hg) as (s & Hs & His).
      destruct (decide (g = c)) as [->|].
      * rewrite lookup_insert_eq, Hs. simpl. eexists. split; [done|]. set_solver.
      * rewrite lookup_insert_ne by done. eauto.
  - intros g s i. rewrite lookup_insert, lookup_assign_all. case_decide.
    + intros [= <-] [Hi|Hi]%elem_of_union; subst; [|by rewrite decide_True].
      destruct (gtis !! g) as [s0|] eqn:Hs0; simpl in Hi; [|set_solver].
      pose proof (Hgrp _ _ _ Hs0 Hi). by case_decide.
    + intros Hs Hi. pose proof (Hgrp _ _ _ Hs Hi) as Hig.
      case_decide as HiX; [|done]. destruct (HX _ HiX); congruence.
  - intros x y p g. rewrite !lookup_assign_all. case_decide as Hi.
    + intros [= <-]. destruct (Hclo _ _ _ Hi) as [Hx Hy].
      split; case_decide; try done; tauto.
    + intros Ht. destruct (Htri _ _ _ _ Ht) as [Hx Hy].
      split; case_decide as Hin; try done; destruct (HX _ Hin); congruence.
Qed.

(** A new group name with a set. *)
Lemma wf_groups_fresh (live : gset nat) (gttg : gmap nat nat)
    (tg : gmap nat (gset nat)) (g : nat) :
  wf_groups live gttg tg → gttg !! g = None → wf_groups (live ∪ {[g]}) gttg tg.
Proof.
  intros [Halias Hself Htracked Hmerged Htops] Hg. split.
  - intros x top Hx. pose proof (Halias _ _ Hx). set_solver.
  - intros x top Hx Hl. apply (Hself _ _ Hx).
    assert (x ≠ g) by congruence. set_solver.
  - done.
  - intros top m x Hm Hx. destruct (Hmerged _ _ _ Hm Hx) as [Hn [t' Ht']].
    split; [|eauto]. assert (x ≠ g) by congruence. set_solver.
  - intros top m Hm. pose proof (Htops _ _ Hm). set_solver.
Qed.

(** A new group name that is its own alias. *)
Lemma wf_groups_self (live : gset nat) (gttg : gmap nat nat)
    (tg : gmap nat (gset nat)) (g : nat) :
  wf_groups live gttg tg → gttg !! g = None →
  wf_groups (live ∪ {[g]}) (<[g := g]> gttg) tg.
Proof.
  intros [Halias Hself Htracked Hmerged Htops] Hg. split.
  - intros x top. rewrite lookup_insert. case_decide.
    + intros [= <-]. set_solver.
    + intros Hx. pose proof (Halias _ _ Hx). set_solver.
  - intros x top. rewrite lookup_insert. case_decide.
    + intros [= <-]. done.
    + intros Hx Hl. apply (Hself _ _ Hx). set_solver.
  - intros x top. rewrite lookup_insert. case_decide.
    + intros [= <-]. done.
    + apply Htracked.
  - intros top m x Hm Hx. destruct (Hmerged _ _ _ Hm Hx) as [Hn [t' Ht']].
    assert (x ≠ g) by congruence.
    split; [set_solver|]. rewrite lookup_insert_ne by done. eauto.
  - intros top m Hm. pose proof (Htops _ _ Hm). set_solver.
Qed.

(** A group name without a set tracks no merged group. *)
Lemma not_live_no_merged (live : gset nat) (gttg : gmap nat nat)
    (tg : gmap nat (gset nat)) (g : nat) :
  wf_groups live gttg tg → g ∉ live → tg !! g = None.
Proof.
  intros Hwf Hg. destruct (tg !! g) as [m|] eqn:Hm; [|done].
  destruct Hg. by eapply wf_tops.
Qed.

(** [union] on two groups that have sets keeps the structure well
    formed and brings no new name. *)
Lemma union_wf (uf : t) (a b : nat) :
  wf uf →
  a ∈ dom (group_to_item_set uf) → b ∈ dom (group_to_item_set uf) →
  ∃ uf', union a b uf = Ok uf' ∧ wf uf' ∧ groups uf' ⊆ groups uf
    ∧ dom (item_to_group uf') = dom (item_to_group uf).
Proof.
  intros [Hi Hg] [sa Ha]%elem_of_dom [sb Hb]%elem_of_dom.
  destruct (decide (a = b)) as [->|Hab].
  { exists uf. unfold union. rewrite bool_decide_eq_true_2 by done.
    split_and!; try done. }
  destruct (union_live uf a b sa sb Hg Hab Ha Hb)
    as (uf' & Hu & Hgtis & Hitg & Hg' & _ & Hgttg).
  exists uf'. split; [done|]. split_and!.
  - split; [|done]. rewrite Hgtis, Hitg. by apply wf_items_merge.
  - unfold groups. rewrite Hgtis, dom_delete_L, dom_insert_L.
    assert (a ∈ dom (group_to_item_set uf)) by (apply elem_of_dom; eauto).
    assert (dom (group_to_top_group uf') ⊆
            dom (group_to_item_set uf) ∪ dom (group_to_top_group uf)); [|set_solver].
    intros x [top Hx]%elem_of_dom. rewrite Hgttg in Hx. case_decide as Hc.
    + destruct Hc as [Hc| ->]; [|apply elem_of_union_l, elem_of_dom; eauto].
      destruct (top_group_to_merged_groups uf !! b) as [mb|] eqn:Hmb;
        simpl in Hc; [|set_solver].
      destruct (wf_merged _ _ _ Hg _ _ _ Hmb Hc) as [_ Hs].
      apply elem_of_union_r, elem_of_dom. done.
    + apply elem_of_union_r, elem_of_dom. eauto.
  - rewrite Hitg, dom_assign_all.
    assert (sb ⊆ dom (item_to_group uf)); [|set_solver].
    intros i Hin. apply elem_of_dom. exists b. by eapply wf_group.
Qed.

(** A group created under a new name and merged at once into [c]. *)
Lemma union_fresh (uf0 : t) (gtis : gmap nat (gset item)) (c g : nat)
    (sc X : gset item) :
  wf_groups (dom gtis) (group_to_top_group uf0) (top_group_to_merged_groups uf0) →
  g ∉ dom gtis → group_to_top_group uf0 !! g = None →
  gtis !! c = Some sc →
  group_to_item_set uf0 = <[g := X]> gtis →
  ∃ uf', union c g uf0 = Ok uf'
    ∧ group_to_item_set uf' = <[c := sc ∪ X]> gtis
    ∧ item_to_group uf' = assign_all X c (item_to_group uf0)
    ∧ wf_groups (dom gtis) (group_to_top_group uf')
        (top_group_to_merged_groups uf')
    ∧ count uf' = count uf0
    ∧ dom (group_to_top_group uf') = dom (group_to_top_group uf0) ∪ {[g]}.
Proof.
  intros Hwf Hg Hgt Hc H0.
  assert (c ≠ g) as Hcg. { intros ->. apply Hg, elem_of_dom. eauto. }
  assert (c ∈ dom gtis) as Hcl by (apply elem_of_dom; eauto).
  pose proof (not_live_no_merged _ _ _ g Hwf Hg) as Htg.
  destruct (union_live uf0 c g sc X) as (uf' & Hu & Hgtis & Hitg & Hg' & Hn & Hgttg).
  - rewrite H0, dom_insert_L.
    replace ({[g]} ∪ dom gtis) with (dom gtis ∪ {[g]}) by set_solver.
    by apply wf_groups_fresh.
  - done.
  - rewrite H0. by rewrite lookup_insert_ne.
  - rewrite H0. by rewrite lookup_insert_eq.
  - assert (group_to_item_set uf' = <[c := sc ∪ X]> gtis) as Hgtis'.
    { rewrite Hgtis, H0. apply map_eq. intros x.
      rewrite lookup_delete, !lookup_insert. repeat case_decide; subst; try done.
      symmetry. apply not_elem_of_dom. done. }
    exists uf'. split_and!; try done.
    + replace (dom gtis) with (dom (group_to_item_set uf')); [done|].
      rewrite Hgtis', dom_insert_L. set_solver.
    + apply set_eq. intros x. rewrite elem_of_union, elem_of_singleton, !elem_of_dom.
      rewrite Hgttg, Htg. simpl. case_decide as Hx.
      * destruct Hx as [Hx| ->]; [set_solver|]. split; eauto.
      * split; [tauto|]. intros [?|?]; [done|]. tauto.
Qed.

Lemma assign_all_singleton `{Countable K} {V} (k : K) (v : V) (d : gmap K V) :
  assign_all {[k]} v d = <[k := v]> d.
Proof.
  apply map_eq. intros x. rewrite lookup_assign_all, lookup_insert.
  repeat case_decide; try done; set_solver.
Qed.

Lemma wf_incr_count (uf : t) : wf uf → wf (incr_count uf).
Proof. done. Qed.

(** One id attached to the group [c]. *)
Lemma wf_items_attach_atom (gtis : gmap nat (gset item)) (itg : gmap item nat)
    (c : nat) (s : string) :
  wf_items gtis itg →
  itg !! Atom s = None ∨ itg !! Atom s = Some c →
  wf_items (<[c := default ∅ (gtis !! c) ∪ {[Atom s]}]> gtis)
           (<[Atom s := c]> itg).
Proof.
  intros Hwf Hs. rewrite <- (assign_all_singleton (Atom s) c itg).
  apply wf_items_attach; [done|..].
  - intros i ->%elem_of_singleton. done.
  - intros x y p Hin%elem_of_singleton. done.
Qed.

(** [add_item_dedup] of an id: it returns, whatever the group name. *)
Lemma add_item_dedup_wf (uf : t) (group : nat) (s : string) :
  wf uf →
  ∃ uf', add_item_dedup group (Atom s) uf = Ok uf' ∧ wf uf'
    ∧ groups uf' ⊆ groups uf ∪ {[group]}
    ∧ dom (item_to_group uf') = dom (item_to_group uf) ∪ {[Atom s]}.
Proof.
  intros Hwf. pose proof Hwf as [Hi Hg]. unfold add_item_dedup.
  destruct (item_to_group uf !! Atom s) as [cur|] eqn:Hcur.
  - destruct (wf_member _ _ Hi _ _ Hcur) as (sa & Hsa & Hin).
    assert (cur ∈ dom (group_to_item_set uf)) as Hcl by (apply elem_of_dom; eauto).
    assert (Atom s ∈ dom (item_to_group uf)) as Hsd by (apply elem_of_dom; eauto).
    case_bool_decide as Hgc.
    { exists uf. split_and!; [done|done|set_solver|set_solver]. }
    case_bool_decide as Hgl.
    { destruct (union_wf uf cur group Hwf Hcl Hgl) as (uf' & -> & Hwf' & Hgr & Hd).
      exists (incr_count uf'). simpl. split_and!; [done|done|..].
      - unfold groups in *. simpl. set_solver.
      - set_solver. }
    destruct (group_to_top_group uf !! group) as [top|] eqn:Htop.
    + case_bool_decide as Htc.
      * assert (top ∈ dom (group_to_item_set uf)) as Htl by (by eapply wf_alias).
        destruct (union_wf uf top cur Hwf Htl Hcl) as (uf' & -> & Hwf' & Hgr & Hd).
        exists (incr_count uf'). simpl. split_and!; [done|done|..].
        -- unfold groups in *. simpl. set_solver.
        -- set_solver.
      * exists (incr_count uf). split_and!; [done|done|..].
        -- unfold groups. simpl. set_solver.
        -- simpl. set_solver.
    + destruct (union_fresh (with_sets uf (<[group := {[Atom s]}]> (group_to_item_set uf)))
                  (group_to_item_set uf) cur group sa {[Atom s]})
        as (uf' & -> & Hgtis & Hitg & Hg' & _ & Hdg); try done.
      exists (incr_count uf'). simpl. split_and!; [done|..].
      * split; simpl.
        -- rewrite Hgtis, Hitg. simpl. rewrite assign_all_singleton.
           replace (sa ∪ {[Atom s]})
             with (default ∅ (group_to_item_set uf !! cur) ∪ {[Atom s]})
             by (by rewrite Hsa).
           apply wf_items_attach_atom; auto.
        -- rewrite Hgtis, dom_insert_L.
           replace ({[cur]} ∪ dom (group_to_item_set uf))
             with (dom (group_to_item_set uf)) by set_solver.
           done.
      * unfold groups. simpl. rewrite Hgtis, Hdg, dom_insert_L. simpl. set_solver.
      * rewrite Hitg, dom_assign_all. done.
  - destruct (group_to_top_group uf !! group) as [top|] eqn:Htop.
    + assert (top ∈ dom (group_to_item_set uf)) as Htl by (by eapply wf_alias).
      pose proof Htl as [st Hst]%elem_of_dom.
      unfold set_add, getitem. rewrite Hst. simpl.
      eexists. split; [done|]. split_and!.
      * split; simpl.
        -- replace (st ∪ {[Atom s]})
             with (default ∅ (group_to_item_set uf !! top) ∪ {[Atom s]})
             by (by rewrite Hst).
           apply wf_items_attach_atom; auto.
        -- rewrite dom_insert_L.
           replace ({[top]} ∪ dom (group_to_item_set uf))
             with (dom (group_to_item_set uf)) by set_solver.
           done.
      * unfold groups. simpl. rewrite dom_insert_L. set_solver.
      * simpl. rewrite dom_insert_L. set_solver.
    + destruct (group_to_item_set uf !! group) as [sg|] eqn:Hsg.
      * assert (group ∈ dom (group_to_item_set uf)) as Hgl
          by (apply elem_of_dom; eauto).
        eexists. split; [done|]. split_and!.
        -- split; simpl.
           ++ replace (sg ∪ {[Atom s]})
                with (default ∅ (group_to_item_set uf !! group) ∪ {[Atom s]})
                by (by rewrite Hsg).
              apply wf_items_attach_atom; auto.
           ++ rewrite dom_insert_L.
              replace ({[group]} ∪ dom (group_to_item_set uf))
                with (dom (group_to_item_set uf)) by set_solver.
              done.
        -- unfold groups. simpl. rewrite dom_insert_L. set_solver.
        -- simpl. rewrite dom_insert_L. set_solver.
      * eexists. split; [done|]. split_and!.
        -- split; simpl.
           ++ replace ({[Atom s]} : gset item)
                with (default ∅ (group_to_item_set uf !! group) ∪ {[Atom s]})
                by (rewrite Hsg; simpl; set_solver).
              apply wf_items_attach_atom; auto.
           ++ rewrite dom_insert_L.
              replace ({[group]} ∪ dom (group_to_item_set uf))
                with (dom (group_to_item_set uf) ∪ {[group]}) by set_solver.
              by apply wf_groups_fresh.
        -- unfold groups. simpl. rewrite dom_insert_L. set_solver.
        -- simpl. rewrite dom_insert_L. set_solver.
Qed.

Lemma union_live_names (uf uf' : t) (a b : nat) (sa sb : gset item) :
  wf_groups (dom (group_to_item_set uf)) (group_to_top_group uf)
    (top_group_to_merged_groups uf) →
  a ≠ b →
  group_to_item_set uf !! a = Some sa →
  group_to_item_set uf !! b = Some sb →
  union a b uf = Ok uf' →
  dom (group_to_top_group uf')
    ⊆ dom (group_to_item_set uf) ∪ dom (group_to_top_group uf).
Proof.
  intros Hg Hab Ha Hb Hu.
  destruct (union_live uf a b sa sb Hg Hab Ha Hb)
    as (uf1 & Hu1 & _ & _ & _ & _ & Hgttg).
  rewrite Hu in Hu1. injection Hu1 as <-.
  intros x [top Hx]%elem_of_dom. rewrite Hgttg in Hx. case_decide as Hc.
  - destruct Hc as [Hc| ->]; [|apply elem_of_union_l, elem_of_dom; eauto].
    destruct (top_group_to_merged_groups uf !! b) as [mb|] eqn:Hmb;
      simpl in Hc; [|set_solver].
    destruct (wf_merged _ _ _ Hg _ _ _ Hmb Hc) as [_ Hs].
    apply elem_of_union_r, elem_of_dom. done.
  - apply elem_of_union_r, elem_of_dom. eauto.
Qed.

Lemma wf_items_eq (gtis gtis' : gmap nat (gset item)) (itg itg' : gmap item nat) :
  wf_items gtis itg →
  (∀ g, gtis' !! g = gtis !! g) → (∀ i, itg' !! i = itg !! i) →
  wf_items gtis' itg'.
Proof.
  intros Hwf H1%map_eq H2%map_eq. by subst.
Qed.

Lemma triple_unseen (gtis : gmap nat (gset item)) (itg : gmap item nat)
    (a b p : string) :
  wf_items gtis itg → itg !! Atom a = None ∨ itg !! Atom b = None →
  itg !! Triple a b p = None.
Proof.
  intros Hwf Hn. destruct (itg !! Triple a b p) as [g|] eqn:Ht; [|done].
  destruct (wf_triple _ _ Hwf _ _ _ _ Ht) as [Ha Hb]. destruct Hn; congruence.
Qed.

(** The pair tuple and one new id attached to the group of the other id. *)
Lemma wf_items_attach_pair (gtis : gmap nat (gset item)) (itg : gmap item nat)
    (c : nat) (sc : gset item) (a b p : string) (X : gset item) :
  wf_items gtis itg → gtis !! c = Some sc →
  (itg !! Atom a = Some c ∨ Atom a ∈ X) →
  (itg !! Atom b = Some c ∨ Atom b ∈ X) →
  (∀ i, i ∈ X → i = Triple a b p
                ∨ (i = Atom a ∧ itg !! Atom a = None)
                ∨ (i = Atom b ∧ itg !! Atom b = None)) →
  (itg !! Triple a b p = None ∨ itg !! Triple a b p = Some c) →
  wf_items (<[c := sc ∪ X]> gtis) (assign_all X c itg).
Proof.
  intros Hwf Hc Ha Hb HX Ht.
  replace sc with (default ∅ (gtis !! c)) by (by rewrite Hc).
  apply wf_items_attach; [done|..].
  - intros i Hi. destruct (HX _ Hi) as [->|[[-> ?]|[-> ?]]]; auto.
  - intros x y q Hi. destruct (HX _ Hi) as [[= -> -> ->]|[[? ?]|[? ?]]]; try done.
    split; tauto.
Qed.

Lemma wf_groups_live (live live' : gset nat) (gttg : gmap nat nat)
    (tg : gmap nat (gset nat)) :
  wf_groups live gttg tg → live' = live → wf_groups live' gttg tg.
Proof. by intros ? ->. Qed.

(** [add_item_M2M] under a group name not used before: it returns and
    the structure stays well formed. *)
Lemma add_item_M2M_wf (uf : t) (group : nat) (a b p : string) :
  wf uf → group ∉ groups uf →
  ∃ uf', add_item_M2M group (a, b) p uf = Ok uf' ∧ wf uf'
    ∧ groups uf' ⊆ groups uf ∪ {[group]}.
Proof.
  intros Hwf Hfresh. pose proof Hwf as [Hi Hg].
  destruct uf as [gtis itg gttg tg n]. unfold groups in *. simpl in *.
  assert (group ∉ dom gtis) as Hfl by set_solver.
  assert (gttg !! group = None) as Hfa by (apply not_elem_of_dom; set_solver).
  assert (gtis !! group = None) as Hfn by (by apply not_elem_of_dom).
  unfold add_item_M2M, set_group, with_sets. simpl.
  rewrite !lookup_insert_ne by done.
  set (it := Triple a b p).
  set (uf0 := with_items _ _).
  destruct (itg !! Atom a) as [grp|] eqn:Ha; destruct (itg !! Atom b) as [grpb|] eqn:Hb.
  - destruct (wf_member _ _ Hi _ _ Ha) as (sa & Hsa & Hina).
    destruct (wf_member _ _ Hi _ _ Hb) as (sb & Hsb & Hinb).
    assert (grp ∈ dom gtis) as Hla by (apply elem_of_dom; eauto).
    destruct (union_fresh uf0 gtis grp group sa {[it]})
      as (uf1 & -> & Hgtis1 & Hitg1 & Hg1 & _ & Hd1); try done.
    assert (itg !! it = None ∨ itg !! it = Some grp) as Hit.
    { destruct (itg !! it) as [g|] eqn:Ht; [right|by left].
      destruct (wf_triple _ _ Hi _ _ _ _ Ht). congruence. }
    case_bool_decide as Hne; simpl.
    + assert (itg !! it = None) as Hit0.
      { destruct (itg !! it) as [g|] eqn:Ht; [|done].
        destruct (wf_triple _ _ Hi _ _ _ _ Ht). congruence. }
      assert (Atom a ∉ sb) as Hasb.
      { intros Hin. pose proof (wf_group _ _ Hi _ _ _ Hsb Hin). congruence. }
      assert (it ∉ sb) as Htsb.
      { intros Hin. pose proof (wf_group _ _ Hi _ _ _ Hsb Hin). congruence. }
      destruct (union_live uf1 grp grpb (sa ∪ {[it]}) sb)
        as (uf2 & Hu2 & Hgtis2 & Hitg2 & Hg2 & _ & _); try done.
      { apply (wf_groups_live _ _ _ _ Hg1). rewrite Hgtis1, dom_insert_L. set_solver. }
      { rewrite Hgtis1. by rewrite lookup_insert_eq. }
      { rewrite Hgtis1. by rewrite lookup_insert_ne. }
      pose proof (union_live_names uf1 uf2 grp grpb (sa ∪ {[it]}) sb) as Hd2.
      rewrite Hu2. simpl.
      assert (item_to_group uf2 !! Atom a = Some grp) as Ha2.
      { rewrite Hitg2, Hitg1. simpl. rewrite !lookup_assign_all.
        rewrite decide_False by done. rewrite decide_False by set_solver.
        by rewrite lookup_insert_ne. }
      unfold getitem at 1. rewrite Ha2. simpl.
      unfold getitem at 1. rewrite lookup_insert_ne, Ha2 by congruence. simpl.
      unfold add_to, set_add, getitem. simpl.
      rewrite Hgtis2, lookup_delete_ne, lookup_insert_eq by done. simpl.
      eexists. split; [done|]. simpl. split.
      * split; simpl.
        -- pose proof (wf_items_merge gtis itg grp grpb sa sb Hi Hne Hsa Hsb) as Hm.
           eapply wf_items_eq.
           ++ apply (wf_items_attach_pair _ _ grp (sa ∪ sb) a b p {[it]} Hm).
              ** rewrite lookup_delete_ne by done. by rewrite lookup_insert_eq.
              ** left. rewrite lookup_assign_all. by rewrite decide_False.
              ** left. rewrite lookup_assign_all. by rewrite decide_True.
              ** intros i ->%elem_of_singleton. by left.
              ** left. rewrite lookup_assign_all. by rewrite decide_False.
           ++ intros g. rewrite Hgtis1. rewrite !lookup_insert, !lookup_delete, !lookup_insert.
              repeat case_decide; simplify_eq; try done. f_equal. set_solver.
           ++ intros i. rewrite Hitg2, Hitg1. simpl.
              rewrite !lookup_insert, !lookup_assign_all, !lookup_insert.
              repeat case_decide; simplify_eq; try done; set_solver.
        -- apply (wf_groups_live _ _ _ _ Hg2).
           rewrite Hgtis2, !dom_insert_L, !dom_delete_L, !dom_insert_L. set_solver.
      * rewrite Hgtis1, !dom_insert_L, !dom_delete_L, !dom_insert_L.
        assert (dom (group_to_top_group uf2)
                ⊆ dom (group_to_item_set uf1) ∪ dom (group_to_top_group uf1)) as Hd
          by (apply Hd2; try done;
              [apply (wf_groups_live _ _ _ _ Hg1); rewrite Hgtis1, dom_insert_L; set_solver
              |rewrite Hgtis1; by rewrite lookup_insert_eq
              |rewrite Hgtis1; by rewrite lookup_insert_ne]).
        rewrite Hgtis1, Hd1, dom_insert_L in Hd. simpl in Hd. set_solver.
    + assert (grpb = grp) as -> by (destruct (decide (grp = grpb)); [done|tauto]).
      unfold add_to, set_add, getitem. simpl.
      rewrite Hgtis1, lookup_insert_eq. simpl.
      eexists. split; [done|]. simpl. split.
      * split; simpl.
        -- eapply wf_items_eq.
           ++ apply (wf_items_attach_pair gtis itg grp sa a b p {[it]} Hi Hsa);
                [by left|by left| |done].
              intros i ->%elem_of_singleton. by left.
           ++ intros g. rewrite !lookup_insert.
              repeat case_decide; simplify_eq; try done. f_equal. set_solver.
           ++ intros i. rewrite Hitg1. simpl.
              rewrite !lookup_assign_all, !lookup_insert.
              repeat case_decide; simplify_eq; try done; set_solver.
        -- apply (wf_groups_live _ _ _ _ Hg1). rewrite !dom_insert_L. set_solver.
      * rewrite Hd1, !dom_insert_L. simpl. set_solver.
  - destruct (wf_member _ _ Hi _ _ Ha) as (sa & Hsa & Hina).
    assert (grp ∈ dom gtis) as Hla by (apply elem_of_dom; eauto).
    destruct (union_fresh uf0 gtis grp group sa {[it]})
      as (uf1 & -> & Hgtis1 & Hitg1 & Hg1 & _ & Hd1); try done.
    simpl. unfold add_to, set_add, getitem. simpl.
    rewrite Hgtis1, lookup_insert_eq. simpl. rewrite lookup_insert_eq. simpl.
    eexists. split; [done|]. simpl. split.
    + split; simpl.
      * eapply wf_items_eq.
        -- apply (wf_items_attach_pair gtis itg grp sa a b p {[it; Atom b]} Hi Hsa);
             [by left|right; set_solver| |left; eapply triple_unseen; eauto].
           intros i [->%elem_of_singleton| ->%elem_of_singleton]%elem_of_union; auto.
        -- intros g. rewrite !lookup_insert.
           repeat case_decide; simplify_eq; try done. f_equal. set_solver.
        -- intros i. rewrite Hitg1. simpl.
           rewrite !lookup_insert, !lookup_assign_all, !lookup_insert.
           repeat case_decide; simplify_eq; try done; set_solver.
      * apply (wf_groups_live _ _ _ _ Hg1). rewrite !dom_insert_L. set_solver.
    + rewrite Hd1, !dom_insert_L. simpl. set_solver.
  - destruct (wf_member _ _ Hi _ _ Hb) as (sb & Hsb & Hinb).
    assert (grpb ∈ dom gtis) as Hlb by (apply elem_of_dom; eauto).
    destruct (union_fresh uf0 gtis grpb group sb {[it]})
      as (uf1 & -> & Hgtis1 & Hitg1 & Hg1 & _ & Hd1); try done.
    simpl. unfold add_to, set_add, getitem. simpl.
    rewrite Hgtis1, lookup_insert_eq. simpl. rewrite lookup_insert_eq. simpl.
    eexists. split; [done|]. simpl. split.
    + split; simpl.
      * eapply wf_items_eq.
        -- apply (wf_items_attach_pair gtis itg grpb sb a b p {[it; Atom a]} Hi Hsb);
             [right; set_solver|by left| |left; eapply triple_unseen; eauto].
           intros i [->%elem_of_singleton| ->%elem_of_singleton]%elem_of_union; auto.
        -- intros g. rewrite !lookup_insert.
           repeat case_decide; simplify_eq; try done. f_equal. set_solver.
        -- intros i. rewrite Hitg1. simpl.
           rewrite !lookup_insert, !lookup_assign_all, !lookup_insert.
           repeat case_decide; simplify_eq; try done; set_solver.
      * apply (wf_groups_live _ _ _ _ Hg1). rewrite !dom_insert_L. set_solver.
    + rewrite Hd1, !dom_insert_L. simpl. set_solver.
  - unfold uf0, with_tops, with_items, add_to, set_add, getitem. simpl.
    rewrite lookup_insert_eq. simpl. rewrite lookup_insert_eq. simpl.
    eexists. split; [done|]. simpl. split.
    + split; simpl.
      * eapply wf_items_eq.
        -- apply (wf_items_attach gtis itg group {[it; Atom a; Atom b]} Hi).
           ++ intros i Hin. left.
              assert (i = it ∨ i = Atom a ∨ i = Atom b) as [->|[->| ->]]
                by set_solver; try done.
              eapply triple_unseen; eauto.
           ++ intros x y q Hin.
              assert (Triple x y q = it) as [= -> -> ->] by set_solver.
              split; left; set_solver.
        -- intros g. rewrite !lookup_insert.
           repeat case_decide; simplify_eq; try done. rewrite Hfn. simpl.
           f_equal. set_solver.
        -- intros i. rewrite !lookup_insert, !lookup_assign_all.
           repeat case_decide; simplify_eq; try done; set_solver.
      * apply (wf_groups_live (dom gtis ∪ {[group]})).
        -- by apply wf_groups_self.
        -- rewrite !dom_insert_L. set_solver.
    + rewrite !dom_insert_L. set_solver.
Qed.

Lemma wf_init : wf init.
Proof.
  split; simpl.
  - split; intros *; rewrite lookup_empty; done.
  - split; intros *; rewrite lookup_empty; done.
Qed.

Lemma reachable_wf (uf : t) : reachable uf → wf uf.
Proof.
  induction 1 as [|uf group s uf' _ IH Hop|uf group a b p uf' _ IH Hf Hop
                  |uf ga gb uf' _ IH Ha Hb Hop].
  - apply wf_init.
  - destruct (add_item_dedup_wf uf group s IH) as (uf1 & Hop1 & Hwf & _).
    congruence.
  - destruct (add_item_M2M_wf uf group a b p IH Hf) as (uf1 & Hop1 & Hwf & _).
    congruence.
  - destruct (union_wf uf ga gb IH Ha Hb) as (uf1 & Hop1 & Hwf & _).
    congruence.
Qed.

Lemma wf_stated_invariants (uf : t) : wf uf → stated_invariants uf.
Proof.
  intros [Hi Hg]. split_and!.
  - apply (wf_member _ _ Hi).
  - intros g top Htop. apply elem_of_dom. by eapply wf_alias.
  - intros g1 g2 s1 s2 i H1 H2 Hi1 Hi2.
    pose proof (wf_group _ _ Hi _ _ _ H1 Hi1).
    pose proof (wf_group _ _ Hi _ _ _ H2 Hi2). congruence.
Qed.

(** C8, as stated, fails. With three ids under the group names 0, 1
    and 2, and 1 and 2 merged into 0, the call [union 1 2] finds 0 as
    the top group of both names and deletes its set: every id is still
    recorded under 0, and the names 0, 1 and 2 map to 0, which has no
    set any more. *)
Lemma union_of_merged_names_counterexample :
  ∃ uf, merged_names_example = Ok uf
    ∧ item_to_group uf !! Atom "x" = Some 0
    ∧ group_to_top_group uf !! 1 = Some 0
    ∧ group_to_item_set uf !! 0 = None
    ∧ ¬ stated_invariants uf.
Proof.
  assert (match merged_names_example with
          | Ok uf => Some (item_to_group uf !! Atom "x",
                           group_to_top_group uf !! 1,
                           group_to_item_set uf !! 0)
          | Raise _ => None
          end = Some (Some 0, Some 0, None)) as Hc by (vm_compute; reflexivity).
  destruct merged_names_example as [uf|e]; [|discriminate].
  injection Hc as Hx H1 H0. exists uf. split_and!; try done.
  intros (Hm & _). destruct (Hm _ _ Hx) as (s & Hs & _). congruence.
Qed.

(** The same failure with [add_item_M2M] alone: a second pair added
    under the group name of the first replaces the set of that group,
    and the ids of the first pair stay recorded under it. *)
Example reused_name_breaks_membership :
  ∃ uf s, reused_name_example = Ok uf
    ∧ item_to_group uf !! Atom "a" = Some 0
    ∧ group_to_item_set uf !! 0 = Some s ∧ (Atom "a" ∉ s)
    ∧ ¬ stated_invariants uf.
Proof.
  assert (match reused_name_example with
          | Ok uf => Some (item_to_group uf !! Atom "a",
                           bool_decide (group_to_item_set uf !! 0
                             = Some {[Triple "c" "d" "0"; Atom "c"; Atom "d"]}))
          | Raise _ => None
          end = Some (Some 0, true)) as Hc by (vm_compute; reflexivity).
  destruct reused_name_example as [uf|e]; [|discriminate].
  injection Hc as Ha H0. apply bool_decide_eq_true in H0.
  exists uf, {[Triple "c" "d" "0"; Atom "c"; Atom "d"]}. split_and!; try done.
  intros (Hm & _). destruct (Hm _ _ Ha) as (s & Hs & Hin).
    rewrite H0 in Hs. injection Hs as <-. set_solver.

Qed.

(** C8, amended. Starting from the empty structure, after any sequence
    of [add_item_dedup] calls on ids (under any group name),
    [add_item_M2M] calls under a group name not in use before the call
    (it has no set and is no alias), and [union] calls on two groups
    that have sets, the three invariants hold: every item recorded in
    item_to_group is a member of the set of its group, every alias maps
    to a group that has a set, and no item is in the sets of two
    groups. In every such state each of these calls returns. *)
Theorem reachable_invariants (uf : t) :
  reachable uf →
  stated_invariants uf
  ∧ (∀ group s, ∃ uf', add_item_dedup group (Atom s) uf = Ok uf')
  ∧ (∀ group a b passnum, (group ∉ groups uf) →
       ∃ uf', add_item_M2M group (a, b) passnum uf = Ok uf')
  ∧ (∀ group_a group_b,
       group_a ∈ dom (group_to_item_set uf) →
       group_b ∈ dom (group_to_item_set uf) →
       ∃ uf', union group_a group_b uf = Ok uf').
Proof.
  intros Hwf%reachable_wf. split_and!.
  - by apply wf_stated_invariants.
  - intros group s.
    destruct (add_item_dedup_wf uf group s Hwf) as (uf' & Hop & _). eauto.
  - intros group a b passnum Hf.
    destruct (add_item_M2M_wf uf group a b passnum Hwf Hf) as (uf' & Hop & _). eauto.
  - intros ga gb Ha Hb.
    destruct (union_wf uf ga gb Hwf Ha Hb) as (uf' & Hop & _). eauto.
Qed.

Lemma reachable_invariants_witness :
  let uf := {| group_to_item_set :=
                 {[0 := {[Triple "a_1" "b_1" "0"; Atom "a_1"; Atom "b_1"]}]};
               item_to_group :=
                 {[Triple "a_1" "b_1" "0" := 0; Atom "a_1" := 0; Atom "b_1" := 0]};
               group_to_top_group := {[0 := 0]};
               top_group_to_merged_groups := ∅;
               count := 2 |} in
  reachable uf
  ∧ stated_invariants uf
  ∧ (∀ group s, ∃ uf', add_item_dedup group (Atom s) uf = Ok uf')
  ∧ (∀ group a b passnum, (group ∉ groups uf) →
       ∃ uf', add_item_M2M group (a, b) passnum uf = Ok uf')
  ∧ (∀ group_a group_b,
       group_a ∈ dom (group_to_item_set uf) →
       group_b ∈ dom (group_to_item_set uf) →
       ∃ uf', union group_a group_b uf = Ok uf').
Proof.
  intros uf.
  assert (reachable uf) as Hr.
  { apply (reach_M2M init 0 "a_1" "b_1" "0").
    - apply reach_init.
    - unfold groups. simpl. rewrite !dom_empty_L. set_solver.
    - vm_compute. reflexivity. }
  split; [exact Hr|]. apply (reachable_invariants uf Hr).
Defined.

End UnionFindInvariants.

(** ** Dedup resolution *)

Section DedupResolution.

Import UnionFind Postprocess.
Local Open Scope list_scope.

(** [add_item_dedup] under a group name not used before: an id seen
    before keeps every set as it is, a new id gets a set of its own. *)
Lemma add_item_dedup_fresh (uf uf' : t) (group : nat) (s : string) :
  wf uf → group ∉ groups uf →
  add_item_dedup group (Atom s) uf = Ok uf' →
  group_to_item_set uf'
  = match item_to_group uf !! Atom s with
    | Some _ => group_to_item_set uf
    | None => <[group := {[Atom s]}]> (group_to_item_set uf)
    end.
Proof.
  intros [Hi Hg] Hfresh. unfold groups in Hfresh.
  assert (group ∉ dom (group_to_item_set uf)) as Hfl by set_solver.
  assert (group_to_top_group uf !! group = None) as Hfa
    by (apply not_elem_of_dom; set_solver).
  assert (group_to_item_set uf !! group = None) as Hfn by (by apply not_elem_of_dom).
  unfold add_item_dedup. rewrite Hfa.
  destruct (item_to_group uf !! Atom s) as [cur|] eqn:Hcur.
  - destruct (wf_member _ _ Hi _ _ Hcur) as (sa & Hsa & Hin).
    assert (group ≠ cur) by congruence.
    rewrite bool_decide_eq_false_2 by done. rewrite bool_decide_eq_false_2 by done.
    destruct (union_fresh (with_sets uf (<[group := {[Atom s]}]> (group_to_item_set uf)))
                (group_to_item_set uf) cur group sa {[Atom s]})
      as (uf1 & -> & Hgtis & _); try done.
    simpl. intros [= <-]. simpl. rewrite Hgtis.
    replace (sa ∪ {[Atom s]}) with sa by set_solver. by apply insert_id.
  - rewrite Hfn. intros [= <-]. done.
Qed.

(** [add_csv] keeps to the calls of [reachable], and the row number it
    returns is above every group name in use. *)
Lemma add_csv_spec (lines : list line) (mt : matchtype)
    (strictness : option flag_col) (rowid : nat) (uf : t) :
  reachable uf → (∀ g, g ∈ groups uf → g < rowid) →
  ∃ rowid' uf', add_csv lines mt strictness rowid uf = Ok (rowid', uf')
    ∧ reachable uf' ∧ (∀ g, g ∈ groups uf' → g < rowid')
    ∧ (mt = MT_dedup → ∀ i, i ∈ dom (item_to_group uf') →
         i ∈ dom (item_to_group uf) ∨ ∃ id, i = Atom id ∧ paired strictness lines id).
Proof.
  revert rowid uf. induction lines as [|row rest IH]; intros rowid uf Hr Hb.
  { exists rowid, uf. simpl. split_and!; auto. }
  cbn [add_csv]. destruct (row_taken strictness row) eqn:Htaken.
  - assert (∃ uf1, match mt with
                   | MT_dedup =>
                       uf ←ᵣ add_item_dedup rowid (Atom (strip (indv_id_a row))) uf;
                       add_item_dedup rowid (Atom (strip (indv_id_b row))) uf
                   | _ => add_item_M2M rowid
                            ("a_" ++ strip (indv_id_a row), "b_" ++ strip (indv_id_b row))%string
                            (passnum row) uf
                   end = Ok uf1
                 ∧ reachable uf1 ∧ groups uf1 ⊆ groups uf ∪ {[rowid]}
                 ∧ (mt = MT_dedup → dom (item_to_group uf1)
                      = dom (item_to_group uf) ∪ {[Atom (strip (indv_id_a row))]}
                          ∪ {[Atom (strip (indv_id_b row))]}))
      as (uf1 & -> & Hr1 & Hg1 & Hd1).
    { assert (rowid ∉ groups uf) as Hf by (intros Hin%Hb; lia).
      pose proof (reachable_wf _ Hr) as Hwf.
      assert (∃ uf1, add_item_M2M rowid
                ("a_" ++ strip (indv_id_a row), "b_" ++ strip (indv_id_b row))%string
                (passnum row) uf = Ok uf1
              ∧ reachable uf1 ∧ groups uf1 ⊆ groups uf ∪ {[rowid]}) as (u & Hu & Hru & Hgu).
      { destruct (add_item_M2M_wf uf rowid ("a_" ++ strip (indv_id_a row))%string
                    ("b_" ++ strip (indv_id_b row))%string (passnum row) Hwf Hf)
          as (u & Hu & _ & Hgu).
        exists u. split_and!; try done. by eapply reach_M2M. }
      destruct mt; try (exists u; split_and!; [done..|discriminate]).
      destruct (add_item_dedup_wf uf rowid (strip (indv_id_a row)) Hwf)
        as (u1 & Hu1 & Hwf1 & Hg1 & Hd1).
      destruct (add_item_dedup_wf u1 rowid (strip (indv_id_b row)) Hwf1)
        as (u2 & Hu2 & Hwf2 & Hg2 & Hd2).
      exists u2. rewrite Hu1. simpl. split; [done|]. split; [|split].
      - apply (reach_dedup u1 rowid (strip (indv_id_b row)) u2); [|done].
        by apply (reach_dedup uf rowid (strip (indv_id_a row)) u1).
      - set_solver.
      - intros _. rewrite Hd2, Hd1. done. }
    simpl.
    destruct (IH (S rowid) uf1 Hr1) as (rowid' & uf' & -> & Hr' & Hb' & Hd').
    { intros g Hin. apply Hg1 in Hin.
      apply elem_of_union in Hin as [Hin%Hb| ->%elem_of_singleton]; lia. }
    exists rowid', uf'. split_and!; try done.
    intros Hmt i Hin. destruct (Hd' Hmt i Hin) as [Hin1|(id & -> & l & Hl & Ht & Hid)].
    + rewrite (Hd1 Hmt) in Hin1.
      apply elem_of_union in Hin1 as [[Hin1| ->%elem_of_singleton]%elem_of_union
                                     | ->%elem_of_singleton].
      * by left.
      * right. eexists. split; [done|]. exists row. split_and!; auto. left.
      * right. eexists. split; [done|]. exists row. split_and!; auto. left.
    + right. exists id. split; [done|]. exists l. split_and!; auto. by right.
  - destruct (IH rowid uf Hr Hb) as (rowid' & uf' & -> & Hr' & Hb' & Hd').
    exists rowid', uf'. split_and!; try done.
    intros Hmt i Hin. destruct (Hd' Hmt i Hin) as [Hin1|(id & -> & l & Hl & Ht & Hid)].
    + by left.
    + right. exists id. split; [done|]. exists l. split_and!; auto. by right.
Qed.

(** The loop over the ids of the table: no set already there changes,
    and an id not recorded before gets a set of its own. *)
Lemma add_all_ids_spec (ids : list string) (rowid : nat) (uf : t) :
  wf uf → (∀ g, g ∈ groups uf → g < rowid) →
  ∃ uf', add_all_ids ids rowid uf = Ok uf'
    ∧ (∀ g s, group_to_item_set uf !! g = Some s →
         group_to_item_set uf' !! g = Some s)
    ∧ ∀ id, id ∈ ids → Atom id ∉ dom (item_to_group uf) →
        ∃ g, group_to_item_set uf' !! g = Some {[Atom id]}.
Proof.
  revert rowid uf. induction ids as [|id0 rest IH]; intros rowid uf Hwf Hb.
  { exists uf. split_and!; [done|done|]. intros id Hin. by apply elem_of_nil in Hin. }
  cbn [add_all_ids].
  assert (rowid ∉ groups uf) as Hf by (intros Hin%Hb; lia).
  destruct (add_item_dedup_wf uf rowid id0 Hwf) as (uf1 & Hop & Hwf1 & Hg1 & Hd1).
  pose proof (add_item_dedup_fresh uf uf1 rowid id0 Hwf Hf Hop) as Hgtis.
  rewrite Hop. simpl.
  destruct (IH (S rowid) uf1 Hwf1) as (uf' & -> & Hkeep & Hnew).
  { intros g Hin. apply Hg1 in Hin.
    apply elem_of_union in Hin as [Hin%Hb| ->%elem_of_singleton]; lia. }
  assert (∀ g s, group_to_item_set uf !! g = Some s →
            group_to_item_set uf1 !! g = Some s) as Hkeep1.
  { intros g s Hs. rewrite Hgtis. destruct (item_to_group uf !! Atom id0); [done|].
    rewrite lookup_insert_ne; [done|]. intros <-. apply Hf.
    apply elem_of_union_l, elem_of_dom. eauto. }
  exists uf'. split_and!; [done|auto|].
  intros id Hin Hunseen. destruct (decide (id = id0)) as [->|Hne].
  - exists rowid. apply Hkeep. rewrite Hgtis.
    apply not_elem_of_dom in Hunseen. rewrite Hunseen. apply lookup_insert_eq.
  - apply Hnew.
    + apply elem_of_cons in Hin as [?|?]; done.
    + rewrite Hd1. set_solver.
Qed.

(** The rows of a dedup crosswalk: one for each item of each set, with
    the position of the set in the iteration. *)
Lemma elem_of_write_groups_rows_dedup (items : list (nat * list item))
    (i0 : nat) (x : item) (j : nat) :
  [CItem x; CInt j] ∈ write_groups_rows MT_dedup i0 items
  ↔ ∃ k g l, items !! k = Some (g, l) ∧ j = i0 + k ∧ x ∈ l.
Proof.
  revert i0. induction items as [|[g l] rest IH]; intros i0.
  { simpl. split; [by intros ?%elem_of_nil|]. by intros (k & ? & ? & ? & _). }
  cbn [write_groups_rows]. rewrite elem_of_app, IH.
  rewrite list_elem_of_In, in_flat_map. split.
  - intros [(z & Hz & Hin)|(k & g' & l' & Hk & -> & Hx)].
    + exists 0, g, l. apply list_elem_of_In in Hz.
      assert ([CItem x; CInt j] = [CItem z; CInt i0]) as [= -> ->].
      { destruct z; simpl in Hin; destruct Hin as [<-|[]]; done. }
      split_and!; [done|lia|done].
    + exists (S k), g', l'. split_and!; [done|lia|done].
  - intros ([|k] & g' & l' & Hk & -> & Hx).
    + simpl in Hk. injection Hk as <- <-. left. exists x.
      split; [by apply list_elem_of_In|].
      replace (i0 + 0) with i0 by lia. destruct x; simpl; auto.
    + right. exists k, g', l'. split_and!; [done|lia|done].
Qed.

(** C9, as stated, fails: the loop of [write_to_csv] writes a row for
    each item of each group, the groups of one id included. With one
    accepted row (1, 2) and the ids 1, 2 and 3 in the table, id 3 gets a
    group of its own and the crosswalk holds the row (3, 1). *)
Lemma dedup_singleton_written_counterexample :
  let lines := [mk_line "1" "2" "11.9" "0" (λ _, None)] in
  let d : gmap nat (gset item) :=
    {[0 := {[Atom "1"; Atom "2"]}; 3 := {[Atom "3"]}]} in
  let items := [(0, [Atom "1"; Atom "2"]); (3, [Atom "3"])] in
  mtom_or_dedup_matching lines MT_dedup None (Some ["1"; "2"; "3"]) = Ok d
  ∧ ¬ paired None lines "3"
  ∧ lists_dict items d
  ∧ write_groups_rows MT_dedup 0 items
    = [[CItem (Atom "1"); CInt 0]; [CItem (Atom "2"); CInt 0];
       [CItem (Atom "3"); CInt 1]]
  ∧ ¬ spec_omits_singletons d (write_groups_rows MT_dedup 0 items).
Proof.
  intros lines d items.
  assert (d !! 3 = Some {[Atom "3"]}) as H3 by (vm_compute; reflexivity).
  split_and!.
  - vm_compute. reflexivity.
  - intros (l & Hl & _ & Hid). apply list_elem_of_singleton in Hl as ->.
    destruct Hid as [Hid|Hid]; vm_compute in Hid; discriminate.
  - split_and!.
    + simpl. apply NoDup_cons. split; [set_solver|]. apply NoDup_singleton.
    + intros g l Hin. apply elem_of_cons in Hin as [[= -> ->]|Hin].
      { split; [|vm_compute; reflexivity].
        apply NoDup_cons. split; [set_solver|]. apply NoDup_singleton. }
      apply list_elem_of_singleton in Hin as [= -> ->].
      split; [apply NoDup_singleton|vm_compute; reflexivity].
    + intros g s Hs. apply elem_of_dom_2 in Hs. unfold d in Hs.
      rewrite dom_insert_L, dom_singleton_L in Hs.
      assert (g = 0 ∨ g = 3) as [->| ->] by set_solver.
      * exists [Atom "1"; Atom "2"]. apply list_elem_of_here.
      * exists [Atom "3"]. apply list_elem_of_further, list_elem_of_here.
  - reflexivity.
  - intros Hspec. apply (Hspec 3 "3" H3 1). set_solver.
Qed.

(** C9, amended. In dedup resolution with a configuration, for all
    accepted rows with ASCII ids and flags and all ids of the source
    table, the resolver returns; every id of the table that is the id of no
    accepted row (ids of rows taken with their surrounding blanks
    removed) has a group whose only item it is; and the crosswalk
    written out holds that group: it has the row of the id with a CH_id,
    and no other row has this CH_id. *)
Theorem dedup_singletons_written (lines : list line)
    (strictness : option flag_col) (ids : list string) (id : string) :
  ascii_cells lines = true →
  id ∈ ids → ¬ paired strictness lines id →
  ∃ d g, mtom_or_dedup_matching lines MT_dedup strictness (Some ids) = Ok d
    ∧ d !! g = Some {[Atom id]}
    ∧ ∀ items, lists_dict items d →
        ∃ i, [CItem (Atom id); CInt i] ∈ write_groups_rows MT_dedup 0 items
          ∧ ∀ x, [CItem x; CInt i] ∈ write_groups_rows MT_dedup 0 items →
              x = Atom id.
Proof.
  intros _ Hid Hnp. unfold mtom_or_dedup_matching.
  destruct (add_csv_spec lines MT_dedup strictness 0 init reach_init)
    as (rowid & uf & -> & Hr & Hb & Hd).
  { intros g. unfold groups. simpl. rewrite !dom_empty_L. set_solver. }
  simpl.
  destruct (add_all_ids_spec ids rowid uf (reachable_wf _ Hr) Hb)
    as (uf' & -> & _ & Hnew).
  simpl. destruct (Hnew id Hid) as (g & Hg).
  { intros Hin. destruct (Hd eq_refl _ Hin) as [Hin0|(id' & [= <-] & Hp)]; [|done].
    simpl in Hin0. by rewrite dom_empty_L in Hin0. }
  exists (group_to_item_set uf'), g. split_and!; [done|done|].
  intros items (_ & Hl & Hall).
  destruct (Hall _ _ Hg) as (l & Hin). destruct (Hl _ _ Hin) as (_ & Hset).
  rewrite Hg in Hset. injection Hset as Hset.
  apply list_elem_of_lookup in Hin as (k & Hk).
  exists k. split.
  - apply elem_of_write_groups_rows_dedup. exists k, g, l.
    split_and!; [done|done|]. apply (elem_of_list_to_set (C := gset item)).
    rewrite <- Hset. set_solver.
  - intros x (k' & g' & l' & Hk' & Heq & Hx)%elem_of_write_groups_rows_dedup.
    simpl in Heq. subst k'. rewrite Hk in Hk'. injection Hk' as <- <-.
    apply (elem_of_list_to_set (C := gset item)) in Hx. rewrite <- Hset in Hx.
    set_solver.
Qed.

Lemma dedup_singletons_written_witness :
  let lines := [mk_line "1" "2" "11.9" "0" (λ _, None)] in
  ascii_cells lines = true
  ∧ ("3" ∈ ["1"; "2"; "3"]) ∧ ¬ paired None lines "3"
  ∧ ∃ d g, mtom_or_dedup_matching lines MT_dedup None (Some ["1"; "2"; "3"]) = Ok d
      ∧ d !! g = Some {[Atom "3"]}
      ∧ ∀ items, lists_dict items d →
          ∃ i, [CItem (Atom "3"); CInt i] ∈ write_groups_rows MT_dedup 0 items
            ∧ ∀ x, [CItem x; CInt i] ∈ write_groups_rows MT_dedup 0 items →
                x = Atom "3".
Proof.
  intros lines.
  assert ("3" ∈ ["1"; "2"; "3"]) as Hin by (do 2 apply list_elem_of_further; apply list_elem_of_here).
  assert (¬ paired None lines "3") as Hnp.
  { intros (l & Hl & _ & Hid). apply list_elem_of_singleton in Hl as ->.
    destruct Hid as [Hid|Hid]; vm_compute in Hid; discriminate. }
  split; [reflexivity|]. split; [exact Hin|]. split; [exact Hnp|].
  exact (dedup_singletons_written lines None ["1"; "2"; "3"] "3" eq_refl Hin Hnp).
Defined.

End DedupResolution.

(** ** The 12M and M21 resolver *)

Section OneToMany.

Import Postprocess.
Local Open Scope list_scope.

Lemma existsb_eq {A} (f g : A → bool) (l : list A) :
  (∀ x, f x = g x) → existsb f l = existsb g l.
Proof. intros H. induction l as [|x l IH]; simpl; [done|]. by rewrite H, IH. Qed.

Lemma column_one (a_is_one : bool) (l : line) :
  column l (onecol_of a_is_one) = Ok (one_id a_is_one l).
Proof. by destruct a_is_one. Qed.

Lemma column_many (a_is_one : bool) (l : line) :
  column l (if String.eqb (onecol_of a_is_one) "indv_id_a"
            then "indv_id_b" else "indv_id_a")
  = Ok (many_id a_is_one l).
Proof. by destruct a_is_one. Qed.

Lemma taken_considered (s : option flag_col) (l : line) :
  taken s l = true ↔ considered s l = Ok true.
Proof.
  unfold taken. destruct (considered s l) as [[]|]; split; congruence.
Qed.

(** What the loop does to the entry of one many-id. *)
Lemma mone_or_onem_loop_spec (s : option flag_col) (a_is_one : bool)
    (lines : list line) (d : gmap string entry) :
  readable s lines →
  ∃ d', mone_or_onem_loop s (onecol_of a_is_one)
          (if String.eqb (onecol_of a_is_one) "indv_id_a"
           then "indv_id_b" else "indv_id_a") lines d = Ok d'
    ∧ (∀ k e, d !! k = Some e →
         d' !! k = Some (mk_entry (partner e) (eweight e)
           (deleted e
            || existsb (λ r, taken s r
                             && String.eqb (many_id a_is_one r) k
                             && ties e (one_id a_is_one r) (weight r)) lines)
           (epass e)))
    ∧ (∀ k, d !! k = None →
         Forall (λ r, taken s r = true → many_id a_is_one r ≠ k) lines →
         d' !! k = None)
    ∧ (∀ k before l after, d !! k = None →
         lines = before ++ l :: after →
         Forall (λ r, taken s r = true → many_id a_is_one r ≠ k) before →
         taken s l = true → many_id a_is_one l = k →
         d' !! k = Some (mk_entry (one_id a_is_one l) (weight l)
                           (existsb (rivals s a_is_one l) after) (passnum l))).
Proof.
  pose proof (column_one a_is_one) as Hone.
  pose proof (column_many a_is_one) as Hmany.
  set (oc := onecol_of a_is_one) in *.
  set (mc := if String.eqb oc "indv_id_a" then "indv_id_b" else "indv_id_a") in *.
  clearbody mc. clearbody oc.
  revert d. induction lines as [|r rest IH]; intros d Hread.
  { exists d. simpl. split_and!; [done| | |].
    - intros k [p w del ps] Hk. simpl. by rewrite orb_false_r.
    - done.
    - intros k before l after _ Heq. by destruct before. }
  apply Forall_cons in Hread as [[c Hc] Hrest].
  cbn [mone_or_onem_loop]. rewrite Hc. simpl.
  assert (taken s r = c) as Htk.
  { unfold taken. rewrite Hc. by destruct c. }
  destruct c; simpl.
  - unfold mone_or_onem_step. rewrite Hone, Hmany. simpl.
    destruct (d !! many_id a_is_one r) as [e0|] eqn:H0.
    + set (d1 := if ties e0 (one_id a_is_one r) (weight r)
                 then <[many_id a_is_one r := mark e0]> d else d).
      assert ((if ties e0 (one_id a_is_one r) (weight r)
               then Ok (<[many_id a_is_one r := mark e0]> d) else Ok d) = Ok d1) as ->
        by (unfold d1; by destruct (ties _ _ _)).
      simpl. destruct (IH d1 Hrest) as (d' & -> & Hold & Hnone & Hfirst).
      exists d'. split; [done|]. split_and!.
      * intros k e Hk. rewrite Htk. simpl.
        destruct (decide (many_id a_is_one r = k)) as [Heq|Hne].
        -- subst k. rewrite H0 in Hk. injection Hk as <-.
           rewrite (proj2 (String.eqb_eq _ _) eq_refl). simpl.
           destruct (ties e0 (one_id a_is_one r) (weight r)) eqn:Ht.
           ++ rewrite (Hold (many_id a_is_one r) (mark e0)).
              2:{ unfold d1. by rewrite lookup_insert_eq. }
              simpl. f_equal. rewrite orb_true_r. unfold ties. simpl. done.
           ++ rewrite (Hold (many_id a_is_one r) e0) by done. simpl. done.
        -- assert (String.eqb (many_id a_is_one r) k = false) as ->
             by by apply String.eqb_neq.
           simpl. apply Hold. unfold d1.
           destruct (ties _ _ _); [by rewrite lookup_insert_ne|done].
      * intros k Hk Hall. apply Forall_cons in Hall as [Hr Hall].
        apply Hnone; [|done]. unfold d1.
        destruct (ties _ _ _); [|done].
        rewrite lookup_insert_ne; [done|]. apply Hr. done.
      * intros k before l after Hk Heq Hbefore Hl Hml.
        destruct before as [|r' before].
        { simpl in Heq. injection Heq as <- <-. congruence. }
        simpl in Heq. injection Heq as <- ->.
        apply Forall_cons in Hbefore as [Hr Hbefore].
        apply (Hfirst k before l after); try done. unfold d1.
        destruct (ties _ _ _); [|done].
        rewrite lookup_insert_ne; [done|]. by apply Hr.
    + simpl. destruct (IH (<[many_id a_is_one r :=
                      mk_entry (one_id a_is_one r) (weight r) false (passnum r)]> d)
                  Hrest) as (d' & -> & Hold & Hnone & Hfirst).
      exists d'. split; [done|]. split_and!.
      * intros k e Hk. rewrite Htk. simpl.
        assert (many_id a_is_one r ≠ k) as Hne by congruence.
        assert (String.eqb (many_id a_is_one r) k = false) as ->
          by by apply String.eqb_neq.
        simpl. apply Hold. by rewrite lookup_insert_ne.
      * intros k Hk Hall. apply Forall_cons in Hall as [Hr Hall].
        apply Hnone; [|done]. rewrite lookup_insert_ne; [done|]. by apply Hr.
      * intros k before l after Hk Heq Hbefore Hl Hml.
        destruct before as [|r' before].
        -- simpl in Heq. injection Heq as -> ->. subst k.
           erewrite Hold by apply lookup_insert_eq.
           simpl. do 2 f_equal. apply existsb_eq. intros r0. unfold rivals, ties.
           simpl. by rewrite !andb_assoc.
        -- simpl in Heq. injection Heq as <- ->.
           apply Forall_cons in Hbefore as [Hr Hbefore].
           apply (Hfirst k before l after); try done.
           rewrite lookup_insert_ne; [done|]. by apply Hr.
  - destruct (IH d Hrest) as (d' & -> & Hold & Hnone & Hfirst).
    exists d'. split; [done|]. split_and!.
    + intros k e Hk. rewrite Htk. simpl. by apply Hold.
    + intros k Hk Hall. apply Forall_cons in Hall as [Hr Hall]. by apply Hnone.
    + intros k before l after Hk Heq Hbefore Hl Hml.
      destruct before as [|r' before].
      { simpl in Heq. injection Heq as <- <-. congruence. }
      simpl in Heq. injection Heq as <- ->.
      apply Forall_cons in Hbefore as [Hr Hbefore].
      by apply (Hfirst k before l after).
Qed.

(** The first element of a list with a decidable property. *)
Lemma first_such {A} (P : A → Prop) `{∀ x, Decision (P x)} (l : list A) :
  ¬ Forall (λ x, ¬ P x) l →
  ∃ before x after, l = before ++ x :: after ∧ P x ∧ Forall (λ x, ¬ P x) before.
Proof.
  induction l as [|y l IH]; intros Hn.
  { destruct Hn. constructor. }
  destruct (decide (P y)) as [Hy|Hy].
  - exists [], y, l. split_and!; [done|done|constructor].
  - destruct IH as (before & x & after & -> & Hx & Hb).
    { intros Hall. apply Hn. by constructor. }
    exists (y :: before), x, after. split_and!; [done|done|by constructor].
Qed.

(** The rows written from a dictionary keyed by the many-ids. *)
Lemma write_weights_rows_many (a_is_one : bool) (items : list (string * entry))
    (row : list string) :
  row ∈ write_weights_rows items (key_flag_of a_is_one)
  ↔ ∃ k e, (k, e) ∈ items ∧ deleted e = false
           ∧ row = if a_is_one then [partner e; k; epass e]
                   else [k; partner e; epass e].
Proof.
  unfold write_weights_rows. rewrite list_elem_of_In, in_flat_map. split.
  - intros ([k e] & Hin%list_elem_of_In & Hrow). exists k, e.
    destruct (deleted e) eqn:Hd; [done|]. split_and!; [done|done|].
    destruct a_is_one; simpl in Hrow; destruct Hrow as [<-|[]]; done.
  - intros (k & e & Hin%list_elem_of_In & Hd & ->). exists (k, e).
    split; [done|]. rewrite Hd. destruct a_is_one; simpl; auto.
Qed.

(** The dictionary returned holds, for each many-id of a taken row,
    the first taken row with this id. *)
Lemma mone_or_onem_from_rows (s : option flag_col) (a_is_one : bool)
    (lines : list line) :
  readable s lines →
  ∃ d, mone_or_onem_matching lines s (onecol_of a_is_one) = Ok d
    ∧ ∀ k e, d !! k = Some e →
        ∃ r, r ∈ lines ∧ taken s r = true ∧ many_id a_is_one r = k
             ∧ one_id a_is_one r = partner e ∧ passnum r = epass e.
Proof.
  intros Hread. unfold mone_or_onem_matching.
  destruct (mone_or_onem_loop_spec s a_is_one lines ∅ Hread)
    as (d & -> & _ & Hnone & Hfirst).
  exists d. split; [done|]. intros k e Hk.
  destruct (first_such (λ r, taken s r = true ∧ many_id a_is_one r = k) lines)
    as (before & l & after & Heq & [Hl Hml] & Hb).
  { intros Hall. rewrite Hnone in Hk; [done|apply lookup_empty|].
    eapply Forall_impl; [exact Hall|]. simpl. intros r Hr Ht Hm. by apply Hr. }
  assert (Forall (λ r, taken s r = true → many_id a_is_one r ≠ k) before) as Hb'.
  { eapply Forall_impl; [exact Hb|]. simpl. intros r Hr Ht Hm. by apply Hr. }
  rewrite (Hfirst k before l after (lookup_empty _) Heq Hb' Hl Hml) in Hk.
  injection Hk as <-. simpl. exists l. split_and!; try done.
  rewrite Heq. apply elem_of_app. right. apply list_elem_of_here.
Qed.

(** X1. The crosswalk of a 12M or M21 match: every row written is a taken
    row of the pair file, with its two ids in the order of the file, and
    no id of the many side is in two rows. *)
Theorem mone_or_onem_crosswalk (strictness : option flag_col) (a_is_one : bool)
    (lines : list line) :
  readable strictness lines →
  ∃ d, mone_or_onem_matching lines strictness (onecol_of a_is_one) = Ok d
    ∧ ∀ items, items ≡ₚ map_to_list d →
        (∀ row, row ∈ write_weights_rows items (key_flag_of a_is_one) →
           ∃ r, r ∈ lines ∧ taken strictness r = true
                ∧ row = [indv_id_a r; indv_id_b r; passnum r])
        ∧ (∀ a b p a' b' p',
             [a; b; p] ∈ write_weights_rows items (key_flag_of a_is_one) →
             [a'; b'; p'] ∈ write_weights_rows items (key_flag_of a_is_one) →
             (if a_is_one then b = b' else a = a') →
             a = a' ∧ b = b' ∧ p = p').
Proof.
  intros Hread.
  destruct (mone_or_onem_from_rows strictness a_is_one lines Hread)
    as (d & Hd & Hfrom).
  exists d. split; [done|]. intros items Hitems. split.
  - intros row (k & e & Hin & Hdel & ->)%write_weights_rows_many.
    rewrite Hitems in Hin. apply elem_of_map_to_list in Hin.
    destruct (Hfrom k e Hin) as (r & Hr & Ht & Hm & Ho & Hp).
    exists r. split_and!; [done|done|].
    destruct a_is_one; simpl in *; congruence.
  - intros a b p a' b' p'
      (k & e & Hin & Hdel & Hrow)%write_weights_rows_many
      (k' & e' & Hin' & Hdel' & Hrow')%write_weights_rows_many Hsame.
    rewrite Hitems in Hin, Hin'.
    apply elem_of_map_to_list in Hin. apply elem_of_map_to_list in Hin'.
    assert (k = k') as <- by (destruct a_is_one; congruence).
    assert (e' = e) as -> by congruence.
    destruct a_is_one; split_and!; congruence.
Qed.

Lemma mone_or_onem_crosswalk_witness :
  let none := λ _ : flag_col, @None string in
  let lines := [mk_line "a1" "b1" "10.9" "0" none;
                mk_line "a1" "b2" "10.7" "0" none;
                mk_line "a2" "b1" "10.1" "0" none] in
  readable None lines
  ∧ ∃ d, mone_or_onem_matching lines None (onecol_of true) = Ok d
      ∧ ∀ items, items ≡ₚ map_to_list d →
          (∀ row, row ∈ write_weights_rows items (key_flag_of true) →
             ∃ r, r ∈ lines ∧ taken None r = true
                  ∧ row = [indv_id_a r; indv_id_b r; passnum r])
          ∧ (∀ a b p a' b' p',
               [a; b; p] ∈ write_weights_rows items (key_flag_of true) →
               [a'; b'; p'] ∈ write_weights_rows items (key_flag_of true) →
               (if true then b = b' else a = a') →
               a = a' ∧ b = b' ∧ p = p').
Proof.
  intros none lines.
  assert (readable None lines) as Hread by (repeat constructor; by exists true).
  split; [exact Hread|].
  exact (mone_or_onem_crosswalk None true lines Hread).
Defined.



End OneToMany.

(** ** The crosswalk of a 121 match *)

Section OneToOneCrosswalk.

Import Postprocess.
Local Open Scope list_scope.

Lemma marked_refl (e : entry) : marked e e.
Proof. by left. Qed.

Lemma marked_trans (e1 e2 e3 : entry) : marked e1 e2 → marked e2 e3 → marked e1 e3.
Proof. intros [->| ->] [->| ->]; unfold marked; auto. Qed.

Lemma lookup_insert_marked (d : gmap string entry) (k0 : string) (e0 : entry)
    (k : string) (e' : entry) :
  d !! k0 = Some e0 → <[k0 := mark e0]> d !! k = Some e' →
  ∃ e, d !! k = Some e ∧ marked e e'.
Proof.
  intros H0. rewrite lookup_insert. case_decide as Hk.
  - intros [= <-]. subst k. exists e0. split; [done|by right].
  - intros He. exists e'. split; [done|by left].
Qed.

(** [tie_on_a] marks entries of [idx_match_a_to_b] or adds a marked one
    for the first id of the row. *)
Lemma tie_on_a_fst (st st' : matching) (l : line) :
  tie_on_a st l = Ok st' →
  ∀ k e', fst st' !! k = Some e' →
    (∃ e, fst st !! k = Some e ∧ marked e e')
    ∨ (fst st !! k = None ∧ k = indv_id_a l
       ∧ e' = new_entry (indv_id_b l) l true).
Proof.
  destruct st as [ab ba]. unfold tie_on_a. simpl.
  destruct (ab !! indv_id_a l) as [e|] eqn:Ha.
  - case_bool_decide.
    + destruct (getitem ba (partner e)) as [eb|]; [|done]. simpl.
      case_bool_decide; intros [= <-] k e' Hk; simpl in Hk; left;
        by eapply lookup_insert_marked.
    + intros [= <-] k e' Hk. left. exists e'. split; [done|by left].
  - intros [= <-] k e'. simpl. rewrite lookup_insert. case_decide as Hk.
    + intros [= <-]. subst k. right. done.
    + intros He. left. exists e'. split; [done|by left].
Qed.

(** [tie_on_b] marks entries of [idx_match_a_to_b] at most. *)
Lemma tie_on_b_fst (st st' : matching) (l : line) :
  tie_on_b st l = Ok st' →
  ∀ k e', fst st' !! k = Some e' → ∃ e, fst st !! k = Some e ∧ marked e e'.
Proof.
  destruct st as [ab ba]. unfold tie_on_b. simpl.
  assert (∀ x y : gmap string entry,
            (if bool_decide (indv_id_a l ∉ dom ba) then Ok (ab, x) else Ok (ab, y))
            = Ok st' →
            ∀ k e', fst st' !! k = Some e' → ∃ e, ab !! k = Some e ∧ marked e e')
    as Hother.
  { intros x y Hr k e' Hk. exists e'. split; [|by left].
    destruct (bool_decide (indv_id_a l ∉ dom ba)); injection Hr as <-; done. }
  destruct (ba !! indv_id_b l) as [e|] eqn:Hb; [|by apply Hother].
  destruct (bool_decide (indv_id_a l ≠ partner e)); [|by apply Hother].
  destruct (getitem ab (partner e)) as [ea|] eqn:Hea; [|done]. simpl.
  intros [= <-] k e' Hk. simpl in Hk. case_bool_decide.
  - unfold getitem in Hea. destruct (ab !! partner e) eqn:Hp; [|done].
    injection Hea as ->. by eapply lookup_insert_marked.
  - exists e'. split; [done|by left].
Qed.

(** One considered row: the entries of [idx_match_a_to_b] are marked at
    most, and a new entry is the row itself, unmarked only when the row
    is recorded on both sides. *)
Lemma step_fst (st st' : matching) (l : line) :
  one_to_one_step st l = Ok st' →
  ∀ k e', fst st' !! k = Some e' →
    (∃ e, fst st !! k = Some e ∧ marked e e')
    ∨ (fst st !! k = None ∧ k = indv_id_a l
       ∧ ∃ del, e' = new_entry (indv_id_b l) l del
                ∧ (del = false →
                   snd st' !! indv_id_b l
                   = Some (new_entry (indv_id_a l) l false))).
Proof.
  destruct st as [ab ba]. unfold one_to_one_step.
  destruct (same_weight ab (indv_id_a l) (weight l)
            || same_weight ba (indv_id_b l) (weight l)).
  - destruct (tie_on_a (ab, ba) l) as [st1|] eqn:H1; [|done]. simpl.
    intros H2 k e' Hk.
    destruct (tie_on_b_fst _ _ _ H2 k e' Hk) as (e1 & Hk1 & Hm1).
    destruct (tie_on_a_fst _ _ _ H1 k e1 Hk1) as [(e & He & Hm)|(Hn & -> & ->)].
    + left. exists e. split; [done|]. by eapply marked_trans.
    + right. split_and!; [done|done|]. exists true. split; [|done].
      destruct Hm1 as [->| ->]; done.
  - destruct (bool_decide (indv_id_a l ∉ dom ab)
              && bool_decide (indv_id_b l ∉ dom ba)) eqn:Hnew.
    + apply andb_true_iff in Hnew as [Ha%bool_decide_eq_true _].
      intros [= <-] k e'. simpl. rewrite lookup_insert. case_decide as Hk.
      * intros [= <-]. subst k. right.
        split_and!; [by apply not_elem_of_dom|done|].
        exists false. split; [done|]. intros _. apply lookup_insert_eq.
      * intros He. left. exists e'. split; [done|by left].
    + intros [= <-] k e' Hk. left. exists e'. split; [done|by left].
Qed.

(** The loop keeps two facts about [idx_match_a_to_b]: each entry was
    recorded from a taken row, and the partner of an unmarked entry has
    the key of the entry as its own partner. *)
Lemma loop_crosswalk (s : option flag_col) (lines seen : list line)
    (st : matching) :
  cross_present st → readable s lines →
  (∀ k e, fst st !! k = Some e →
     ∃ r, r ∈ seen ∧ taken s r = true ∧ indv_id_a r = k
          ∧ indv_id_b r = partner e ∧ passnum r = epass e) →
  (∀ k e, fst st !! k = Some e → deleted e = false →
     ∃ e', snd st !! partner e = Some e' ∧ partner e' = k) →
  ∃ st', one_to_one_loop s lines st = Ok st'
    ∧ (∀ k e, fst st' !! k = Some e →
         ∃ r, r ∈ seen ++ lines ∧ taken s r = true ∧ indv_id_a r = k
              ∧ indv_id_b r = partner e ∧ passnum r = epass e)
    ∧ (∀ k e, fst st' !! k = Some e → deleted e = false →
         ∃ e', snd st' !! partner e = Some e' ∧ partner e' = k).
Proof.
  revert seen st. induction lines as [|l rest IH]; intros seen st Hcp Hread H1 H2.
  { exists st. rewrite app_nil_r. done. }
  apply Forall_cons in Hread as [[c Hc] Hrest].
  cbn [one_to_one_loop]. rewrite Hc. cbn [rbind].
  assert (∀ k e, fst st !! k = Some e →
            ∃ r, r ∈ seen ++ [l] ∧ taken s r = true ∧ indv_id_a r = k
                 ∧ indv_id_b r = partner e ∧ passnum r = epass e) as H1'.
  { intros k e Hk. destruct (H1 k e Hk) as (r & Hr & ?). exists r.
    split; [|done]. apply elem_of_app. by left. }
  replace (seen ++ l :: rest) with ((seen ++ [l]) ++ rest)
    by (by rewrite <- app_assoc).
  destruct c; [|by apply IH].
  destruct (step_spec st l Hcp) as (st1 & Hstep & Hcp1 & _ & Hkeep & _).
  rewrite Hstep. cbn [rbind].
  pose proof (step_fst st st1 l Hstep) as Hfst.
  apply IH; [done|done| |].
  - intros k e' Hk. destruct (Hfst k e' Hk) as [(e & He & Hm)|(_ & -> & del & -> & _)].
    + destruct (H1' k e He) as (r & Hr & Ht & Ha & Hb & Hp). exists r.
      destruct Hm as [->| ->]; done.
    + exists l. split_and!; try done.
      * apply elem_of_app. right. apply list_elem_of_here.
      * unfold taken. by rewrite Hc.
  - intros k e' Hk Hdel.
    destruct (Hfst k e' Hk) as [(e & He & Hm)|(_ & -> & del & -> & Hnew)].
    + destruct Hm as [->| ->]; [|done].
      destruct (H2 k e He Hdel) as (eb & Heb & Hpb).
      destruct (Hkeep _ _ Heb) as (eb' & Heb' & Hpb'). exists eb'.
      split; [done|congruence].
    + simpl in Hdel. subst del. eexists. split; [by apply Hnew|done].
Qed.

(** X3. The crosswalk of a 121 match: the resolver returns on every
    pair file whose rows have the strictness column; every row written
    is a taken row of the file; no id of file A is in two rows and no id
    of file B is in two rows. *)
Theorem one_to_one_crosswalk (strictness : option flag_col) (lines : list line) :
  readable strictness lines →
  ∃ m, one_to_one_matching lines strictness = Ok m
    ∧ ∀ items, items ≡ₚ map_to_list m →
        (∀ row, row ∈ write_weights_rows items 0 →
           ∃ r, r ∈ lines ∧ taken strictness r = true
                ∧ row = [indv_id_a r; indv_id_b r; passnum r])
        ∧ (∀ a b p b' p', [a; b; p] ∈ write_weights_rows items 0 →
             [a; b'; p'] ∈ write_weights_rows items 0 → b = b' ∧ p = p')
        ∧ (∀ a a' b p p', [a; b; p] ∈ write_weights_rows items 0 →
             [a'; b; p'] ∈ write_weights_rows items 0 → a = a' ∧ p = p').
Proof.
  intros Hread. unfold one_to_one_matching.
  destruct (loop_crosswalk strictness lines [] (∅, ∅) cross_present_empty Hread)
    as (st & -> & H1 & H2).
  { intros k e Hk. simpl in Hk. by rewrite lookup_empty in Hk. }
  { intros k e Hk. simpl in Hk. by rewrite lookup_empty in Hk. }
  exists (fst st). split; [done|]. intros items Hitems.
  assert (∀ row, row ∈ write_weights_rows items 0 →
            ∃ k e, fst st !! k = Some e ∧ deleted e = false
                   ∧ row = [k; partner e; epass e]) as Hrows.
  { intros row (k & e & Hin & Hdel & ->)%write_weights_rows_elem.
    rewrite Hitems in Hin. apply elem_of_map_to_list in Hin. eauto. }
  split_and!.
  - intros row (k & e & Hk & Hdel & ->)%Hrows.
    destruct (H1 k e Hk) as (r & Hr & Ht & <- & <- & <-). eauto.
  - intros a b p b' p' (k & e & Hk & _ & [= -> -> ->])%Hrows
      (k' & e' & Hk' & _ & [= <- -> ->])%Hrows.
    rewrite Hk in Hk'. by injection Hk' as <-.
  - intros a a' b p p' (k & e & Hk & Hdel & [= -> -> ->])%Hrows
      (k' & e' & Hk' & Hdel' & [= -> Hb ->])%Hrows.
    destruct (H2 k e Hk Hdel) as (eb & Heb & Hpb).
    destruct (H2 k' e' Hk' Hdel') as (eb' & Heb' & Hpb').
    rewrite Hb in Heb. rewrite Heb in Heb'. injection Heb' as <-.
    assert (k = k') as <- by congruence.
    rewrite Hk in Hk'. by injection Hk' as <-.
Qed.

Lemma one_to_one_crosswalk_witness :
  let none := λ _ : flag_col, @None string in
  let lines := [mk_line "a1" "b1" "10.9" "0" none;
                mk_line "a1" "b2" "10.7" "0" none;
                mk_line "a2" "b1" "10.1" "0" none;
                mk_line "a2" "b2" "1.9" "1" none] in
  ∃ m, one_to_one_matching lines None = Ok m
    ∧ ∀ items, items ≡ₚ map_to_list m →
        (∀ row, row ∈ write_weights_rows items 0 →
           ∃ r, r ∈ lines ∧ taken None r = true
                ∧ row = [indv_id_a r; indv_id_b r; passnum r])
        ∧ (∀ a b p b' p', [a; b; p] ∈ write_weights_rows items 0 →
             [a; b'; p'] ∈ write_weights_rows items 0 → b = b' ∧ p = p')
        ∧ (∀ a a' b p p', [a; b; p] ∈ write_weights_rows items 0 →
             [a'; b; p'] ∈ write_weights_rows items 0 → a = a' ∧ p = p').
Proof.
  intros none lines. apply (one_to_one_crosswalk None lines).
  repeat constructor; by exists true.
Defined.

End OneToOneCrosswalk.

(** ** The crosswalks of M2M and dedup matches *)

Section Resolution.

Import UnionFind Postprocess.
Local Open Scope list_scope.

Lemma extends_refl (uf : t) : extends uf uf ∅.
Proof. split; [done|]. intros x Hx. by left. Qed.

Lemma extends_trans (uf1 uf2 uf3 : t) (X Y : gset item) :
  extends uf1 uf2 X → extends uf2 uf3 Y → extends uf1 uf3 (X ∪ Y).
Proof.
  intros [Hd1 Hh1] [Hd2 Hh2]. split; [set_solver|].
  intros x Hx. destruct (Hh2 x Hx) as [H2|H2]; [|set_solver].
  destruct (Hh1 x H2); [by left|set_solver].
Qed.

Lemma extends_weaken (uf uf' : t) (X Y : gset item) :
  extends uf uf' X → X ⊆ Y → extends uf uf' Y.
Proof. intros [Hd Hh] HXY. split; [done|]. intros x Hx. destruct (Hh x Hx); auto. Qed.

(** [union] records no new item and loses none. *)
Lemma union_extends (uf uf' : t) (a b : nat) :
  union a b uf = Ok uf' → extends uf uf' ∅.
Proof.
  unfold union.
  destruct (bool_decide (a = b)); [intros [= <-]; apply extends_refl|].
  destruct (merged_into _ a b); [intros [= <-]; apply extends_refl|].
  destruct (merged_into _ b a); [intros [= <-]; apply extends_refl|].
  set (ta := default a (group_to_top_group uf !! a)).
  set (tb := default b (group_to_top_group uf !! b)).
  unfold getitem.
  destruct (group_to_item_set uf !! tb) as [sb|] eqn:Hsb; [|done]. simpl.
  destruct (group_to_item_set uf !! ta) as [sa|] eqn:Hsa; [|done]. simpl.
  match goal with |- (let '(_, _) := ?p in _) = _ → _ => destruct p as [gttg' tg'] end.
  intros [= <-]. split; simpl.
  - rewrite dom_assign_all. set_solver.
  - intros x [Hx|(g & s & Hg & Hx)]; simpl in *.
    + rewrite dom_assign_all in Hx. apply elem_of_union in Hx as [Hx|Hx].
      * left. by left.
      * left. right. eauto.
    + left. right. rewrite lookup_delete in Hg. case_decide; [done|].
      rewrite lookup_insert in Hg. case_decide.
      * injection Hg as <-. apply elem_of_union in Hx as [Hx|Hx]; eauto.
      * eauto.
Qed.

Lemma add_to_extends (uf uf' : t) (g : nat) (y : item) :
  add_to g y uf = Ok uf' → extends uf uf' {[y]}.
Proof.
  unfold add_to, set_add, getitem.
  destruct (group_to_item_set uf !! g) as [s|] eqn:Hs; [|done]. simpl.
  intros [= <-]. split; [done|].
  intros x [Hx|(g' & s' & Hg & Hx)]; simpl in *.
  - left. by left.
  - rewrite lookup_insert in Hg. case_decide.
    + injection Hg as <-. apply elem_of_union in Hx as [Hx|Hx]; [|by right].
      left. right. eauto.
    + left. right. eauto.
Qed.

Lemma set_group_extends (uf : t) (g : nat) (y : item) :
  extends uf (set_group y g uf) {[y]}.
Proof.
  split; simpl.
  - rewrite dom_insert_L. set_solver.
  - intros x [Hx|Hx]; simpl in *.
    + rewrite dom_insert_L in Hx. apply elem_of_union in Hx as [Hx|Hx]; [by right|].
      left. by left.
    + left. by right.
Qed.

Lemma with_sets_extends (uf : t) (g : nat) (X : gset item) :
  extends uf (with_sets uf (<[g := X]> (group_to_item_set uf))) X.
Proof.
  split; [done|].
  intros x [Hx|(g' & s' & Hg & Hx)]; simpl in *.
  - left. by left.
  - rewrite lookup_insert in Hg. case_decide.
    + injection Hg as <-. by right.
    + left. right. eauto.
Qed.

Lemma with_tops_extends (uf : t) (gttg : gmap nat nat) :
  extends uf (with_tops uf gttg) ∅.
Proof. split; [done|]. intros x Hx. by left. Qed.

Lemma incr_count_extends (uf : t) : extends uf (incr_count uf) ∅.
Proof. split; [done|]. intros x Hx. by left. Qed.

Lemma rbind_ok {A B} (r : result A) (k : A → result B) (y : B) :
  rbind r k = Ok y → ∃ x, r = Ok x ∧ k x = Ok y.
Proof. destruct r as [x|]; [|done]. simpl. eauto. Qed.

(** [add_item_M2M] records the tuple and its two ids, nothing else, and
    loses nothing. *)
Lemma add_item_M2M_extends (uf uf' : t) (group : nat) (a b p : string) :
  add_item_M2M group (a, b) p uf = Ok uf' →
  extends uf uf' {[Triple a b p; Atom a; Atom b]}
  ∧ Triple a b p ∈ dom (item_to_group uf').
Proof.
  unfold add_item_M2M.
  set (it := Triple a b p).
  set (uf0 := set_group it group _).
  assert (extends uf uf0 {[it]}) as E0.
  { eapply extends_weaken.
    - eapply extends_trans; [apply (with_sets_extends uf group {[it]})|].
      apply set_group_extends.
    - set_solver. }
  assert (it ∈ dom (item_to_group uf0)) as Hit0.
  { unfold uf0. simpl. rewrite dom_insert_L. set_solver. }
  intros Hop.
  assert (∃ Y, extends uf0 uf' Y ∧ Y ⊆ {[it; Atom a; Atom b]}) as (Y & E & HY).
  { destruct (item_to_group uf0 !! Atom a) as [grp|];
      destruct (item_to_group uf0 !! Atom b) as [grpb|].
    - destruct (bool_decide (grp ≠ grpb)).
      + apply rbind_ok in Hop as (u1 & H1%union_extends & Hop).
        apply rbind_ok in Hop as (u2 & H2%union_extends & Hop).
        apply rbind_ok in Hop as (ga & _ & Hop).
        apply rbind_ok in Hop as (ga' & _ & Hop).
        apply rbind_ok in Hop as (u3 & H3%add_to_extends & Hop).
        injection Hop as <-. eexists. split.
        * eapply extends_trans; [exact H1|].
          eapply extends_trans; [exact H2|].
          eapply extends_trans; [apply (set_group_extends u2 ga (Atom b))|].
          eapply extends_trans; [exact H3|]. apply incr_count_extends.
        * set_solver.
      + apply rbind_ok in Hop as (u1 & H1%union_extends & Hop).
        apply rbind_ok in Hop as (u3 & H3%add_to_extends & Hop).
        injection Hop as <-. eexists. split.
        * eapply extends_trans; [exact H1|].
          eapply extends_trans; [exact H3|]. apply incr_count_extends.
        * set_solver.
    - apply rbind_ok in Hop as (u1 & H1%union_extends & Hop).
      apply rbind_ok in Hop as (u3 & H3%add_to_extends & Hop).
      apply rbind_ok in Hop as (u4 & H4%add_to_extends & Hop).
      injection Hop as <-. eexists. split.
      * eapply extends_trans; [exact H1|].
        eapply extends_trans; [apply (set_group_extends u1 grp (Atom b))|].
        eapply extends_trans; [exact H3|].
        eapply extends_trans; [exact H4|]. apply incr_count_extends.
      * set_solver.
    - apply rbind_ok in Hop as (u1 & H1%union_extends & Hop).
      apply rbind_ok in Hop as (u3 & H3%add_to_extends & Hop).
      apply rbind_ok in Hop as (u4 & H4%add_to_extends & Hop).
      injection Hop as <-. eexists. split.
      * eapply extends_trans; [exact H1|].
        eapply extends_trans; [apply (set_group_extends u1 grpb (Atom a))|].
        eapply extends_trans; [exact H3|].
        eapply extends_trans; [exact H4|]. apply incr_count_extends.
      * set_solver.
    - apply rbind_ok in Hop as (u3 & H3%add_to_extends & Hop).
      apply rbind_ok in Hop as (u4 & H4%add_to_extends & Hop).
      injection Hop as <-. eexists. split.
      * eapply extends_trans; [apply (with_tops_extends uf0)|].
        eapply extends_trans; [apply set_group_extends|].
        eapply extends_trans; [apply set_group_extends|].
        eapply extends_trans; [exact H3|].
        eapply extends_trans; [exact H4|]. apply incr_count_extends.
      * set_solver. }
  split.
  - eapply extends_weaken; [eapply extends_trans; [exact E0|exact E]|]. set_solver.
  - destruct E as [Hd _]. by apply Hd.
Qed.

(** [add_csv] for a matchtype other than dedup: the tuple of every row
    taken is recorded, and nothing but the tuples and ids of such rows. *)
Lemma add_csv_pairs (lines : list line) (mt : matchtype)
    (s : option flag_col) (rowid rowid' : nat) (uf uf' : t) :
  mt ≠ MT_dedup →
  add_csv lines mt s rowid uf = Ok (rowid', uf') →
  dom (item_to_group uf) ⊆ dom (item_to_group uf')
  ∧ (∀ x, holds uf' x →
       holds uf x ∨ ∃ l, l ∈ lines ∧ row_taken s l = true ∧ x ∈ pair_items l)
  ∧ (∀ l, l ∈ lines → row_taken s l = true →
       pair_item l ∈ dom (item_to_group uf')).
Proof.
  intros Hmt. revert rowid uf. induction lines as [|r rest IH]; intros rowid uf.
  { simpl. intros [= <- <-]. split_and!; [done|by left|].
    intros l Hl. by apply elem_of_nil in Hl. }
  cbn [add_csv]. destruct (row_taken s r) eqn:Ht.
  - intros (u & Hu & Hrest)%rbind_ok.
    assert (add_item_M2M rowid
              ("a_" ++ strip (indv_id_a r), "b_" ++ strip (indv_id_b r))%string
              (passnum r) uf = Ok u) as Hadd by (by destruct mt).
    destruct (add_item_M2M_extends _ _ _ _ _ _ Hadd) as [[Hd Hh] Hin].
    destruct (IH _ _ Hrest) as (Hd' & Hh' & Hin').
    split_and!.
    + set_solver.
    + intros x Hx. destruct (Hh' x Hx) as [Hu'|(l & Hl & Htl & Hxl)].
      * destruct (Hh x Hu') as [?|Hxr]; [by left|]. right. exists r.
        split_and!; [apply list_elem_of_here|done|exact Hxr].
      * right. exists l. split_and!; [by apply list_elem_of_further|done|done].
    + intros l Hl Htl. apply elem_of_cons in Hl as [->|Hl]; [|by apply Hin'].
      apply Hd'. exact Hin.
  - intros Hrest. destruct (IH _ _ Hrest) as (Hd' & Hh' & Hin').
    split_and!; [done| |].
    + intros x Hx. destruct (Hh' x Hx) as [?|(l & Hl & Htl & Hxl)]; [by left|].
      right. exists l. split_and!; [by apply list_elem_of_further|done|done].
    + intros l Hl Htl. apply elem_of_cons in Hl as [->|Hl]; [congruence|].
      by apply Hin'.
Qed.

(** The rows of an M2M crosswalk: one for each tuple of each set, with
    the position of the set in the iteration and the name of its group. *)
Lemma elem_of_write_groups_rows_M2M (items : list (nat * list item))
    (i0 : nat) (row : list cell) :
  row ∈ write_groups_rows MT_M2M i0 items
  ↔ ∃ k g l x y p, items !! k = Some (g, l) ∧ Triple x y p ∈ l
      ∧ row = [CStr (drop2 x); CStr (drop2 y); CInt (i0 + k); CInt g].
Proof.
  revert i0. induction items as [|[g l] rest IH]; intros i0.
  { simpl. split; [by intros ?%elem_of_nil|]. by intros (k & ? & ? & ? & ? & ? & ? & _). }
  cbn [write_groups_rows]. rewrite elem_of_app, IH.
  rewrite list_elem_of_In, in_flat_map. split.
  - intros [(z & Hz & Hin)|(k & g' & l' & x & y & p & Hk & Hx & ->)].
    + apply list_elem_of_In in Hz. destruct z as [|x y p]; [done|].
      destruct Hin as [<-|[]]. exists 0, g, l, x, y, p.
      split_and!; [done|done|]. by replace (i0 + 0) with i0 by lia.
    + exists (S k), g', l', x, y, p. split_and!; [done|done|].
      by replace (S i0 + k) with (i0 + S k) by lia.
  - intros ([|k] & g' & l' & x & y & p & Hk & Hx & ->).
    + simpl in Hk. injection Hk as <- <-. left. exists (Triple x y p).
      split; [by apply list_elem_of_In|].
      replace (i0 + 0) with i0 by lia. by left.
    + right. exists k, g', l', x, y, p. split_and!; [done|done|].
      by replace (S i0 + k) with (i0 + S k) by lia.
Qed.

(** Two places of the iteration with one group name are one place. *)
Lemma lists_dict_place (items : list (nat * list item))
    (d : gmap nat (gset item)) (i j g : nat) (l l' : list item) :
  lists_dict items d → items !! i = Some (g, l) → items !! j = Some (g, l') →
  i = j.
Proof.
  intros (Hnd & _) Hi Hj. eapply NoDup_lookup; [exact Hnd|..].
  - rewrite list_lookup_fmap, Hi. done.
  - rewrite list_lookup_fmap, Hj. done.
Qed.

(** A member of a set of the dictionary is at some place of the
    iteration. *)
Lemma lists_dict_member (items : list (nat * list item))
    (d : gmap nat (gset item)) (g : nat) (s : gset item) (x : item) :
  lists_dict items d → d !! g = Some s → x ∈ s →
  ∃ k l, items !! k = Some (g, l) ∧ x ∈ l.
Proof.
  intros (_ & Hl & Hall) Hg Hx. destruct (Hall _ _ Hg) as (l & Hin).
  destruct (Hl _ _ Hin) as (_ & Hset). rewrite Hg in Hset. injection Hset as ->.
  apply list_elem_of_lookup in Hin as (k & Hk). exists k, l. split; [done|].
  by apply (elem_of_list_to_set (C := gset item)) in Hx.
Qed.

Lemma lists_dict_lookup (items : list (nat * list item))
    (d : gmap nat (gset item)) (k g : nat) (l : list item) (x : item) :
  lists_dict items d → items !! k = Some (g, l) → x ∈ l →
  ∃ s, d !! g = Some s ∧ x ∈ s.
Proof.
  intros (_ & Hl & _) Hk Hx.
  destruct (Hl g l) as (_ & Hset); [by eapply list_elem_of_lookup_2|].
  eexists. split; [done|]. by apply elem_of_list_to_set.
Qed.

Lemma holds_init (x : item) : ¬ holds init x.
Proof.
  intros [Hx|(g & s & Hg & _)]; simpl in *.
  - by rewrite dom_empty_L in Hx.
  - by rewrite lookup_empty in Hg.
Qed.

(** X4. The crosswalk of an M2M match. The resolver returns on every
    pair file with ASCII ids and flags. Every row it took has a row in the
    crosswalk, with its two ids as the file has them (blanks around them
    removed), a CH_id and, in the column headed passnum, not the pass
    but a key of the dictionary returned: the name under which the group
    of the row is kept. Every row of the crosswalk is made of such a
    row, and two rows of the crosswalk that have the same indv_id_a or
    the same indv_id_b have the same CH_id. *)
Theorem m2m_crosswalk (lines : list line) (strictness : option flag_col)
    (all_ids : option (list string)) :
  ascii_cells lines = true →
  ∃ d, mtom_or_dedup_matching lines MT_M2M strictness all_ids = Ok d
    ∧ ∀ items, lists_dict items d →
        (∀ l, l ∈ lines → row_taken strictness l = true →
           ∃ i g s, d !! g = Some s ∧ pair_item l ∈ s
             ∧ [CStr (strip (indv_id_a l)); CStr (strip (indv_id_b l));
                CInt i; CInt g] ∈ write_groups_rows MT_M2M 0 items)
        ∧ (∀ row, row ∈ write_groups_rows MT_M2M 0 items →
             ∃ l i g, l ∈ lines ∧ row_taken strictness l = true
               ∧ is_Some (d !! g)
               ∧ row = [CStr (strip (indv_id_a l)); CStr (strip (indv_id_b l));
                        CInt i; CInt g])
        ∧ (∀ a b i g a' b' i' g',
             [CStr a; CStr b; CInt i; CInt g] ∈ write_groups_rows MT_M2M 0 items →
             [CStr a'; CStr b'; CInt i'; CInt g'] ∈ write_groups_rows MT_M2M 0 items →
             a = a' ∨ b = b' → i = i' ∧ g = g').
Proof.
  intros _. unfold mtom_or_dedup_matching.
  destruct (add_csv_spec lines MT_M2M strictness 0 init reach_init)
    as (rowid & uf & Hcsv & Hr & _).
  { intros g. unfold groups. simpl. rewrite !dom_empty_L. set_solver. }
  rewrite Hcsv. simpl.
  destruct (add_csv_pairs lines MT_M2M strictness 0 rowid init uf) as (_ & Hh & Hin);
    [done|done|].
  pose proof (reachable_wf _ Hr) as [Hi Hg].
  exists (group_to_item_set uf). split; [done|]. intros items Hitems.
  assert (∀ k g l x y p, items !! k = Some (g, l) → Triple x y p ∈ l →
            ∃ r, r ∈ lines ∧ row_taken strictness r = true
                 ∧ Triple x y p = pair_item r
                 ∧ item_to_group uf !! Triple x y p = Some g) as Hfrom.
  { intros k g l x y p Hk Hx.
    destruct (lists_dict_lookup _ _ _ _ _ _ Hitems Hk Hx) as (s & Hs & Hxs).
    destruct (Hh (Triple x y p)) as [Hinit|(r & Hr' & Ht & Hxr)].
    - right. eauto.
    - by apply holds_init in Hinit.
    - exists r. split_and!; [done|done| |by eapply wf_group].
      unfold pair_items in Hxr. set_solver. }
  split_and!.
  - intros l Hl Ht. pose proof (Hin l Hl Ht) as [g Hgl]%elem_of_dom.
    destruct (wf_member _ _ Hi _ _ Hgl) as (s & Hs & Hls).
    destruct (lists_dict_member _ _ _ _ _ Hitems Hs Hls) as (k & l' & Hk & Hl').
    exists k, g, s. split_and!; [done|done|].
    apply elem_of_write_groups_rows_M2M. eexists k, g, l', _, _, _.
    split_and!; [done|exact Hl'|done].
  - intros row (k & g & l & x & y & p & Hk & Hx & ->)%elem_of_write_groups_rows_M2M.
    destruct (Hfrom _ _ _ _ _ _ Hk Hx) as (r & Hr' & Ht & [= -> -> ->] & Hgr).
    exists r, k, g. split_and!; [done|done| |done].
    destruct (wf_member _ _ Hi _ _ Hgr) as (s & Hs & _). eauto.
  - intros a b i g a' b' i' g'
      (k & g0 & l & x & y & p & Hk & Hx & [= -> -> -> ->])%elem_of_write_groups_rows_M2M
      (k' & g0' & l' & x' & y' & p' & Hk' & Hx' & [= -> -> -> ->])%elem_of_write_groups_rows_M2M
      Hsame.
    destruct (Hfrom _ _ _ _ _ _ Hk Hx) as (r & _ & _ & [= -> -> ->] & Hgr).
    destruct (Hfrom _ _ _ _ _ _ Hk' Hx') as (r' & _ & _ & [= -> -> ->] & Hgr').
    destruct (wf_triple _ _ Hi _ _ _ _ Hgr) as [Ha Hb].
    destruct (wf_triple _ _ Hi _ _ _ _ Hgr') as [Ha' Hb'].
    simpl in Hsame.
    assert (g0 = g0') as <-.
    { destruct Hsame as [Heq|Heq].
      - change (strip (indv_id_a r) = strip (indv_id_a r')) in Heq.
        rewrite Heq in Ha. congruence.
      - change (strip (indv_id_b r) = strip (indv_id_b r')) in Heq.
        rewrite Heq in Hb. congruence. }
    split; [|done]. simpl. by eapply lists_dict_place.
Qed.

Lemma m2m_crosswalk_witness :
  let lines := [mk_line "1" "2" "11.9" "0" (λ _, None);
                mk_line " 1" "3 " "10.5" "1" (λ _, None)] in
  ascii_cells lines = true
  ∧ ∃ d, mtom_or_dedup_matching lines MT_M2M None None = Ok d.
Proof.
  intros lines. split; [reflexivity|].
  destruct (m2m_crosswalk lines None None eq_refl) as (d & Hd & _).
  exists d. exact Hd.
Defined.

(** What [union] does to the two name tables when it merges two
    different groups that have sets. *)
Lemma union_effect (uf uf' : t) (a b : nat) :
  wf uf → a ∈ dom (group_to_item_set uf) → b ∈ dom (group_to_item_set uf) →
  a ≠ b → union a b uf = Ok uf' →
  (∀ x, item_to_group uf' !! x
        = if decide (item_to_group uf !! x = Some b) then Some a
          else item_to_group uf !! x)
  ∧ (∀ n, group_to_top_group uf' !! n
          = if decide (n ∈ default ∅ (top_group_to_merged_groups uf !! b) ∨ n = b)
            then Some a else group_to_top_group uf !! n).
Proof.
  intros [Hi Hg] [sa Ha]%elem_of_dom [sb Hb]%elem_of_dom Hab Hu.
  destruct (union_live uf a b sa sb Hg Hab Ha Hb)
    as (uf1 & Hu1 & _ & Hitg & _ & _ & Hgttg).
  rewrite Hu in Hu1. injection Hu1 as <-. split; [|done].
  intros x. rewrite Hitg, lookup_assign_all.
  destruct (decide (x ∈ sb)) as [Hx|Hx].
  - rewrite decide_True; [done|]. by eapply wf_group.
  - rewrite decide_False; [done|]. intros Hxb.
    destruct (wf_member _ _ Hi _ _ Hxb) as (s & Hs & Hxs). congruence.
Qed.

Lemma top_of_live (uf : t) (g : nat) :
  wf uf → g ∈ dom (group_to_item_set uf) → top_of uf g = g.
Proof. intros [_ Hg] Hl. unfold top_of. by eapply live_top. Qed.

Lemma same_group_moved (uf uf' : t) (a b : nat) (x y : item) :
  (∀ z, item_to_group uf' !! z
        = if decide (item_to_group uf !! z = Some b) then Some a
          else item_to_group uf !! z) →
  same_group uf x y → same_group uf' x y.
Proof.
  intros Hitg (g & Hx & Hy). unfold same_group. rewrite !Hitg, Hx, Hy.
  case_decide; eauto.
Qed.

Lemma same_group_added (uf uf' : t) (i : item) (c : nat) (x y : item) :
  item_to_group uf !! i = None →
  item_to_group uf' = <[i := c]> (item_to_group uf) →
  same_group uf x y → same_group uf' x y.
Proof.
  intros Hi Hitg (g & Hx & Hy). exists g. rewrite Hitg.
  rewrite !lookup_insert_ne by congruence. done.
Qed.

(** [add_item_dedup] of an id under a group name: items recorded under
    one name stay under one name, the items of the group the name
    stands for stay with it, and the id ends in that group. *)
Lemma add_item_dedup_groups (uf uf' : t) (g : nat) (s : string) :
  wf uf → add_item_dedup g (Atom s) uf = Ok uf' →
  (∀ x y, same_group uf x y → same_group uf' x y)
  ∧ (∀ x, item_to_group uf !! x = Some (top_of uf g) →
          item_to_group uf' !! x = Some (top_of uf' g))
  ∧ item_to_group uf' !! Atom s = Some (top_of uf' g).
Proof.
  intros Hwf. pose proof Hwf as [Hi Hg]. unfold add_item_dedup.
  destruct (item_to_group uf !! Atom s) as [cur|] eqn:Hcur.
  - destruct (wf_member _ _ Hi _ _ Hcur) as (sa & Hsa & Hin).
    assert (cur ∈ dom (group_to_item_set uf)) as Hcl by (apply elem_of_dom; eauto).
    case_bool_decide as Hgc.
    { intros [= <-]. subst g. rewrite (top_of_live uf cur Hwf Hcl). done. }
    case_bool_decide as Hgl.
    { intros (u1 & Hu & [= <-])%rbind_ok.
      destruct (union_effect uf u1 cur g Hwf Hcl Hgl) as [Hitg Hgttg]; [done|done|].
      rewrite (top_of_live uf g Hwf Hgl).
      assert (top_of (incr_count u1) g = cur) as ->.
      { unfold top_of. simpl. rewrite Hgttg. rewrite decide_True by auto. done. }
      simpl. split_and!.
      - intros x y. by apply same_group_moved with cur g.
      - intros x Hx. rewrite Hitg. by rewrite decide_True.
      - rewrite Hitg, Hcur. rewrite decide_False by congruence. done. }
    destruct (group_to_top_group uf !! g) as [top|] eqn:Htop.
    + assert (top_of uf g = top) as Htg by (unfold top_of; by rewrite Htop).
      case_bool_decide as Htc.
      * intros (u1 & Hu & [= <-])%rbind_ok.
        assert (top ∈ dom (group_to_item_set uf)) as Htl by (by eapply wf_alias).
        destruct (union_effect uf u1 top cur Hwf Htl Hcl) as [Hitg Hgttg];
          [done|done|].
        assert (top_of (incr_count u1) g = top) as ->.
        { unfold top_of. simpl. rewrite Hgttg, Htop. by case_decide. }
        rewrite Htg. simpl. split_and!.
        -- intros x y. by apply same_group_moved with top cur.
        -- intros x Hx. rewrite Hitg, Hx. rewrite decide_False by congruence. done.
        -- rewrite Hitg, Hcur. by rewrite decide_True.
      * intros [= <-]. assert (top = cur) as -> by (destruct (decide (top = cur)); [done|tauto]).
        assert (top_of (incr_count uf) g = cur) as ->
          by (unfold top_of; simpl; by rewrite Htop).
        rewrite Htg. done.
    + intros (u1 & Hu & [= <-])%rbind_ok.
      assert (g ∉ dom (group_to_item_set uf)) as Hnl by done.
      set (uf0 := with_sets uf (<[g := {[Atom s]}]> (group_to_item_set uf))) in *.
      assert (cur ≠ g) as Hne by congruence.
      destruct (union_live uf0 cur g sa {[Atom s]})
        as (u1' & Hu1 & _ & Hitg & _ & _ & Hgttg).
      { simpl. rewrite dom_insert_L.
        replace ({[g]} ∪ dom (group_to_item_set uf))
          with (dom (group_to_item_set uf) ∪ {[g]}) by set_solver.
        by apply wf_groups_fresh. }
      { done. }
      { simpl. by rewrite lookup_insert_ne. }
      { simpl. by rewrite lookup_insert_eq. }
      rewrite Hu in Hu1. injection Hu1 as <-.
      assert (∀ x, item_to_group u1 !! x = item_to_group uf !! x) as Hsame.
      { intros x. rewrite Hitg. simpl. rewrite lookup_assign_all.
        case_decide as Hx; [|done]. apply elem_of_singleton in Hx as ->. done. }
      assert (top_of (incr_count u1) g = cur) as ->.
      { unfold top_of. simpl. rewrite Hgttg. rewrite decide_True by auto. done. }
      simpl. split_and!.
      * intros x y (c & Hx & Hy). exists c. by rewrite !Hsame.
      * intros x Hx. unfold top_of in Hx. rewrite Htop in Hx. simpl in Hx.
        destruct (wf_member _ _ Hi _ _ Hx) as (sg & Hsg & _).
        destruct Hnl. apply elem_of_dom. eauto.
      * by rewrite Hsame.
  - destruct (group_to_top_group uf !! g) as [top|] eqn:Htop.
    + intros (gtis' & _ & [= <-])%rbind_ok. simpl.
      assert (top_of uf g = top) as Htg by (unfold top_of; by rewrite Htop).
      rewrite Htg. unfold top_of. simpl. rewrite Htop. simpl. split_and!.
      * intros x y. by eapply same_group_added.
      * intros x Hx. rewrite lookup_insert_ne by congruence. done.
      * apply lookup_insert_eq.
    + assert (top_of uf g = g) as Htg by (unfold top_of; by rewrite Htop).
      assert (∀ gtis', let u := incr_count (with_items (with_sets uf gtis')
                                   (<[Atom s := g]> (item_to_group uf))) in
              (∀ x y, same_group uf x y → same_group u x y)
              ∧ (∀ x, item_to_group uf !! x = Some (top_of uf g) →
                      item_to_group u !! x = Some (top_of u g))
              ∧ item_to_group u !! Atom s = Some (top_of u g)) as Hnew.
      { intros gtis' u. rewrite Htg. unfold top_of, u. simpl. rewrite Htop. simpl.
        split_and!.
        * intros x y. by eapply same_group_added.
        * intros x Hx. rewrite lookup_insert_ne by congruence. done.
        * apply lookup_insert_eq. }
      destruct (group_to_item_set uf !! g); intros [= <-]; apply Hnew.
Qed.

(** The two calls [add_csv] makes for a row of a dedup file. *)
Lemma add_pair_together (uf u1 u2 : t) (g : nat) (a b : string) :
  wf uf →
  add_item_dedup g (Atom a) uf = Ok u1 → add_item_dedup g (Atom b) u1 = Ok u2 →
  wf u2
  ∧ (∀ x y, same_group uf x y → same_group u2 x y)
  ∧ same_group u2 (Atom a) (Atom b)
  ∧ dom (item_to_group u2) = dom (item_to_group uf) ∪ {[Atom a]} ∪ {[Atom b]}.
Proof.
  intros Hwf H1 H2.
  destruct (add_item_dedup_wf uf g a Hwf) as (u1' & H1' & Hwf1 & _ & Hd1).
  rewrite H1 in H1'. injection H1' as <-.
  destruct (add_item_dedup_wf u1 g b Hwf1) as (u2' & H2' & Hwf2 & _ & Hd2).
  rewrite H2 in H2'. injection H2' as <-.
  destruct (add_item_dedup_groups uf u1 g a Hwf H1) as (Hs1 & _ & Ha1).
  destruct (add_item_dedup_groups u1 u2 g b Hwf1 H2) as (Hs2 & Ht2 & Hb2).
  split_and!; [done|auto| |by rewrite Hd2, Hd1].
  exists (top_of u2 g). split; [by apply Ht2|done].
Qed.

Lemma add_csv_together (lines : list line) (s : option flag_col)
    (rowid rowid' : nat) (uf uf' : t) :
  wf uf → add_csv lines MT_dedup s rowid uf = Ok (rowid', uf') →
  wf uf'
  ∧ (∀ x y, same_group uf x y → same_group uf' x y)
  ∧ (∀ l, l ∈ lines → row_taken s l = true →
       same_group uf' (Atom (strip (indv_id_a l))) (Atom (strip (indv_id_b l)))).
Proof.
  revert rowid uf. induction lines as [|r rest IH]; intros rowid uf Hwf.
  { simpl. intros [= <- <-]. split_and!; [done|done|].
    intros l Hl. by apply elem_of_nil in Hl. }
  cbn [add_csv]. destruct (row_taken s r) eqn:Ht.
  - intros (u2 & (u1 & H1 & H2)%rbind_ok & Hrest)%rbind_ok.
    destruct (add_pair_together uf u1 u2 rowid _ _ Hwf H1 H2) as (Hwf2 & Hs & Hab & _).
    destruct (IH _ _ Hwf2 Hrest) as (Hwf' & Hs' & Hall).
    split_and!; [done|auto|].
    intros l Hl Htl. apply elem_of_cons in Hl as [->|Hl]; [by apply Hs'|by apply Hall].
  - intros Hrest. destruct (IH _ _ Hwf Hrest) as (Hwf' & Hs' & Hall).
    split_and!; [done|done|].
    intros l Hl Htl. apply elem_of_cons in Hl as [->|Hl]; [congruence|by apply Hall].
Qed.

Lemma add_all_ids_together (ids : list string) (rowid : nat) (uf uf' : t) :
  wf uf → add_all_ids ids rowid uf = Ok uf' →
  wf uf'
  ∧ (∀ x y, same_group uf x y → same_group uf' x y)
  ∧ (∀ x, x ∈ dom (item_to_group uf') ↔
          x ∈ dom (item_to_group uf) ∨ ∃ id, id ∈ ids ∧ x = Atom id).
Proof.
  revert rowid uf. induction ids as [|id rest IH]; intros rowid uf Hwf.
  { simpl. intros [= <-]. split_and!; [done|done|].
    intros x. split; [by left|]. intros [?|(id & Hid & _)]; [done|].
    by apply elem_of_nil in Hid. }
  cbn [add_all_ids]. intros (u1 & H1 & Hrest)%rbind_ok.
  destruct (add_item_dedup_wf uf rowid id Hwf) as (u1' & H1' & Hwf1 & _ & Hd1).
  rewrite H1 in H1'. injection H1' as <-.
  destruct (add_item_dedup_groups uf u1 rowid id Hwf H1) as (Hs1 & _ & _).
  destruct (IH _ _ Hwf1 Hrest) as (Hwf' & Hs' & Hdom).
  split_and!; [done|auto|].
  intros x. rewrite Hdom, Hd1, elem_of_union, elem_of_singleton. split.
  - intros [[?| ->]|(id' & Hid & ->)]; [by left|right|right].
    + exists id. split; [apply list_elem_of_here|done].
    + exists id'. split; [by apply list_elem_of_further|done].
  - intros [?|(id' & Hid & ->)]; [by left; left|].
    apply elem_of_cons in Hid as [->|Hid]; [left; by right|].
    right. eauto.
Qed.

(** X5. The crosswalk of a dedup match. The resolver returns on every
    pair file with ASCII ids and flags and every list of table ids. In
    the crosswalk the two ids of every row taken have one CH_id, every id of the table has a row,
    no id has two CH_ids, and every row holds an id of a row taken or
    of the table. *)
Theorem dedup_crosswalk (lines : list line) (strictness : option flag_col)
    (all_ids : option (list string)) :
  ascii_cells lines = true →
  ∃ d, mtom_or_dedup_matching lines MT_dedup strictness all_ids = Ok d
    ∧ ∀ items, lists_dict items d →
        (∀ l, l ∈ lines → row_taken strictness l = true →
           ∃ i, [CItem (Atom (strip (indv_id_a l))); CInt i]
                  ∈ write_groups_rows MT_dedup 0 items
                ∧ [CItem (Atom (strip (indv_id_b l))); CInt i]
                  ∈ write_groups_rows MT_dedup 0 items)
        ∧ (∀ id, id ∈ default [] all_ids →
             ∃ i, [CItem (Atom id); CInt i] ∈ write_groups_rows MT_dedup 0 items)
        ∧ (∀ x i j, [CItem x; CInt i] ∈ write_groups_rows MT_dedup 0 items →
             [CItem x; CInt j] ∈ write_groups_rows MT_dedup 0 items → i = j)
        ∧ (∀ x i, [CItem x; CInt i] ∈ write_groups_rows MT_dedup 0 items →
             ∃ id, x = Atom id
                   ∧ (paired strictness lines id ∨ id ∈ default [] all_ids)).
Proof.
  intros _. unfold mtom_or_dedup_matching.
  destruct (add_csv_spec lines MT_dedup strictness 0 init reach_init)
    as (rowid & uf & Hcsv & Hr & Hb & Hd).
  { intros g. unfold groups. simpl. rewrite !dom_empty_L. set_solver. }
  rewrite Hcsv. cbn [rbind].
  pose proof (reachable_wf _ Hr) as Hwf.
  destruct (add_csv_together lines strictness 0 rowid init uf wf_init Hcsv)
    as (_ & _ & Hpairs).
  assert (∃ uf', (match all_ids with
                  | Some ids => add_all_ids ids rowid uf
                  | None => Ok uf
                  end) = Ok uf'
            ∧ wf uf'
            ∧ (∀ x y, same_group uf x y → same_group uf' x y)
            ∧ (∀ x, x ∈ dom (item_to_group uf') ↔
                    x ∈ dom (item_to_group uf)
                    ∨ ∃ id, id ∈ default [] all_ids ∧ x = Atom id))
    as (uf' & -> & [Hi Hg] & Hs & Hdom).
  { destruct all_ids as [ids|]; simpl.
    - destruct (add_all_ids_spec ids rowid uf Hwf Hb) as (uf' & Hall & _).
      exists uf'. split; [done|]. by eapply add_all_ids_together.
    - exists uf. split_and!; [done|done|done|].
      intros x. split; [by left|]. intros [?|(id & Hid & _)]; [done|].
      by apply elem_of_nil in Hid. }
  cbn [rbind]. exists (group_to_item_set uf'). split; [done|].
  intros items Hitems.
  assert (∀ x g, item_to_group uf' !! x = Some g →
            ∃ k l, items !! k = Some (g, l) ∧ x ∈ l) as Hplace.
  { intros x g Hx. destruct (wf_member _ _ Hi _ _ Hx) as (sg & Hsg & Hin).
    by eapply lists_dict_member. }
  assert (∀ x k g l, items !! k = Some (g, l) → x ∈ l →
            item_to_group uf' !! x = Some g) as Hback.
  { intros x k g l Hk Hx.
    destruct (lists_dict_lookup _ _ _ _ _ _ Hitems Hk Hx) as (sg & Hsg & Hin).
    by eapply wf_group. }
  split_and!.
  - intros l Hl Ht. destruct (Hs _ _ (Hpairs l Hl Ht)) as (g & Ha & Hb').
    destruct (Hplace _ _ Ha) as (k & la & Hk & Hina).
    destruct (Hplace _ _ Hb') as (k' & lb & Hk' & Hinb).
    assert (k = k') as <- by (by eapply lists_dict_place).
    rewrite Hk in Hk'. injection Hk' as <-.
    exists k. split; apply elem_of_write_groups_rows_dedup; exists k, g, la; done.
  - intros id Hid.
    assert (Atom id ∈ dom (item_to_group uf')) as [g Hgid]%elem_of_dom
      by (apply Hdom; right; eauto).
    destruct (Hplace _ _ Hgid) as (k & l & Hk & Hin).
    exists k. apply elem_of_write_groups_rows_dedup. exists k, g, l. done.
  - intros x i j (k & g & l & Hk & -> & Hx)%elem_of_write_groups_rows_dedup
      (k' & g' & l' & Hk' & -> & Hx')%elem_of_write_groups_rows_dedup.
    pose proof (Hback _ _ _ _ Hk Hx) as H1.
    pose proof (Hback _ _ _ _ Hk' Hx') as H2.
    assert (g = g') as <- by congruence.
    simpl. by eapply lists_dict_place.
  - intros x i (k & g & l & Hk & -> & Hx)%elem_of_write_groups_rows_dedup.
    pose proof (Hback _ _ _ _ Hk Hx) as H1.
    assert (x ∈ dom (item_to_group uf')) as Hxd by (apply elem_of_dom; eauto).
    apply Hdom in Hxd as [Hxd|(id & Hid & ->)]; [|eauto].
    destruct (Hd eq_refl x Hxd) as [Hinit|(id & -> & Hp)]; [|eauto].
    simpl in Hinit. by rewrite dom_empty_L in Hinit.
Qed.

Lemma dedup_crosswalk_witness :
  let lines := [mk_line "1" "2" "11.9" "0" (λ _, None);
                mk_line " 2" "3 " "10.5" "1" (λ _, None)] in
  ascii_cells lines = true
  ∧ ∃ d, mtom_or_dedup_matching lines MT_dedup None (Some ["1"; "4"]) = Ok d.
Proof.
  intros lines. split; [reflexivity|].
  destruct (dedup_crosswalk lines None (Some ["1"; "4"]) eq_refl) as (d & Hd & _).
  exists d. exact Hd.
Defined.

End Resolution.

(** ** The candidates tables *)

Section Candidates.

Import BlockFunctions.
Local Open Scope list_scope.

Lemma eval_block_true (a b : record) (x y : string) :
  eval_block a b (x, y) = TRUE
  ↔ ∃ u, fields a !! x = Some u ∧ fields b !! y = Some u ∧ u ≠ "".
Proof.
  unfold eval_block. simpl.
  destruct (fields a !! x) as [u|], (fields b !! y) as [v|]; simpl.
  - unfold ne3. simpl. destruct (String.eqb_spec u v) as [Heq|Hne];
      destruct (String.eqb_spec u "") as [Hemp|Hne']; simpl; split; try done.
    + intros (w & [= <-] & _ & Hw). done.
    + intros _. subst v. eauto.
    + intros (w & [= <-] & [= <-] & _). done.
    + intros (w & [= <-] & [= <-] & _). done.
  - unfold ne3. simpl. destruct (String.eqb u ""); simpl;
      (split; [done|]); by intros (w & _ & ? & _).
  - split; [done|]. by intros (w & ? & _).
  - split; [done|]. by intros (w & ? & _).
Qed.

Lemma fold_and3_true {A} (f : A → tv) (l : list A) (init : tv) :
  fold_left (λ acc x, and3 acc (f x)) l init = TRUE
  ↔ init = TRUE ∧ Forall (λ x, f x = TRUE) l.
Proof.
  revert init. induction l as [|x l IH]; intros init; simpl.
  - split; [by intros ->|by intros [-> _]].
  - rewrite IH, Forall_cons. split.
    + intros [[-> ->]%and3_true Hl]. done.
    + intros (-> & -> & Hl). done.
Qed.

Lemma eval_join_true (a b : record) (j : join_cond) :
  j ≠ [] → eval_join a b j = TRUE ↔ agree a b j.
Proof.
  destruct j as [|[x y] rest]; [done|]. intros _. unfold eval_join.
  rewrite fold_and3_true, eval_block_true. unfold agree. split.
  - intros [H1 Hall] x' y' [[= -> ->]|Hin]%elem_of_cons; [done|].
    rewrite Forall_forall in Hall. apply eval_block_true. by apply (Hall (x', y')).
  - intros Hall. split; [apply Hall, list_elem_of_here|].
    apply Forall_forall. intros [x' y'] Hin. apply eval_block_true.
    by apply Hall, list_elem_of_further.
Qed.

Lemma fold_or3_true {A} (f : A → tv) (l : list A) (init : tv) :
  fold_left (λ acc x, or3 acc (f x)) l init = TRUE
  ↔ init = TRUE ∨ Exists (λ x, f x = TRUE) l.
Proof.
  revert init. induction l as [|x l IH]; intros init; simpl.
  - split; [by left|]. intros [?|H]; [done|]. by apply Exists_nil in H.
  - rewrite IH, Exists_cons. split.
    + intros [Hor|?]; [|auto]. destruct init, (f x); auto; done.
    + intros [->|[->|?]]; [by left|left; by destruct init|by right].
Qed.

Lemma eval_past_true (a b : record) (past : past_join_cond) :
  eval_past a b past = TRUE ↔ ∃ j, j ∈ past ∧ eval_join a b j = TRUE.
Proof.
  destruct past as [|j0 rest]; simpl.
  - split; [done|]. by intros (j & ?%elem_of_nil & _).
  - rewrite fold_or3_true, Exists_exists. split.
    + intros [?|(j & Hin & ?)].
      * exists j0. split; [apply list_elem_of_here|done].
      * exists j. split; [by apply list_elem_of_further|done].
    + intros (j & [->|Hin]%elem_of_cons & Hj); [by left|]. right. eauto.
Qed.

(** The rows of the table a join creates. *)
Lemma elem_of_execute_blocking_join (ty : coltype) (table_a table_b : list record)
    (ia ib : string) (c : full_cond) (cands : list pair) (p : pair) :
  execute_blocking_join ty table_a table_b ia ib c = Ok cands →
  p ∈ cands ↔ ∃ a b, a ∈ table_a ∧ b ∈ table_b
                     ∧ eval_full ty a b c = TRUE ∧ p = pair_of ia ib a b.
Proof.
  unfold execute_blocking_join. destruct (well_formed c); [|done].
  intros [= <-]. rewrite list_elem_of_In, in_flat_map. split.
  - intros (a & Ha%list_elem_of_In & (b & Hb%list_elem_of_In & Hp)%in_flat_map).
    exists a, b. destruct (eval_full ty a b c); try done.
    destruct Hp as [<-|[]]. done.
  - intros (a & b & Ha%list_elem_of_In & Hb%list_elem_of_In & He & ->).
    exists a. split; [done|]. apply in_flat_map. exists b. split; [done|].
    rewrite He. by left.
Qed.

Lemma find_pass_candidates_inv (ty : coltype) (pa pb : list string)
    (ia ib : string) (past : past_join_cond) (ta tb : list record)
    (dedup : bool) (past' : past_join_cond) (cands : list pair) :
  find_pass_candidates ty pa pb ia ib past ta tb dedup = Ok (past', cands) →
  combine pa pb ≠ []
  ∧ past' = past ++ [combine pa pb]
  ∧ ∀ c, c ∈ cands ↔
      ∃ a b, a ∈ ta ∧ b ∈ tb ∧ c = pair_of ia ib a b
        ∧ eval_full ty a b
            (if dedup
             then AndIdNe (AndIdxLt (exclude_past_join_cond (combine pa pb) past))
                    ia ib
             else exclude_past_join_cond (combine pa pb) past) = TRUE.
Proof.
  unfold find_pass_candidates, get_pass_join_cond.
  destruct (length pa <=? length pb)%nat; [|done]. cbn [rbind].
  intros (cs & Hex & [= <- <-])%rbind_ok. split_and!.
  - unfold execute_blocking_join in Hex.
    destruct (well_formed _) eqn:Hwf; [|done].
    intros Hnil. rewrite Hnil in Hwf.
    destruct dedup, past; simpl in Hwf; done.
  - by destruct past.
  - intros c. rewrite (elem_of_execute_blocking_join _ _ _ _ _ _ _ c Hex).
    split; intros (a & b & ? & ? & ? & ?); exists a, b; done.
Qed.

Lemma eval_exclude_true (ty : coltype) (a b : record) (j : join_cond)
    (past : past_join_cond) (dedup : bool) (ia ib : string) :
  eval_full ty a b
    (if dedup then AndIdNe (AndIdxLt (exclude_past_join_cond j past)) ia ib
     else exclude_past_join_cond j past) = TRUE →
  eval_join a b j = TRUE ∧ eval_past a b past ≠ TRUE.
Proof.
  intros H.
  assert (eval_full ty a b (exclude_past_join_cond j past) = TRUE) as H'.
  { destruct dedup; [|done]. simpl in H.
    by apply and3_true in H as [[? _]%and3_true _]. }
  destruct past as [|j0 rest]; [done|].
  cbn [exclude_past_join_cond eval_full] in H'.
  apply and3_true in H' as [? Hn]. split; [done|].
  intros Hp. rewrite Hp in Hn. done.
Qed.

(** X6. The candidates table of a pass. When [find_pass_candidates]
    returns, the new past conditions are the old ones followed by the
    join of the pass; every row of the table is made of a record of
    each table that have, for each pair of blocking fields, the same
    text in the two fields, not empty; and in a first pass of a match of
    two tables every such pair of records has its row. *)
Theorem candidates_agree (ty : coltype) (passblocks_a passblocks_b : list string)
    (indv_id_a indv_id_b : string) (past : past_join_cond)
    (table_a table_b : list record) (dedup : bool)
    (past' : past_join_cond) (cands : list pair) :
  find_pass_candidates ty passblocks_a passblocks_b indv_id_a indv_id_b past
    table_a table_b dedup = Ok (past', cands) →
  past' = past ++ [combine passblocks_a passblocks_b]
  ∧ (∀ c, c ∈ cands →
       ∃ a b, a ∈ table_a ∧ b ∈ table_b ∧ c = pair_of indv_id_a indv_id_b a b
              ∧ agree a b (combine passblocks_a passblocks_b))
  ∧ (past = [] → dedup = false →
     ∀ a b, a ∈ table_a → b ∈ table_b →
       agree a b (combine passblocks_a passblocks_b) →
       pair_of indv_id_a indv_id_b a b ∈ cands).
Proof.
  intros (Hne & -> & Hcands)%find_pass_candidates_inv. split_and!; [done| |].
  - intros c (a & b & Ha & Hb & -> & [He _]%eval_exclude_true)%Hcands.
    exists a, b. split_and!; try done. by apply eval_join_true.
  - intros -> -> a b Ha Hb Hag. apply Hcands. exists a, b.
    split_and!; try done. simpl. by apply eval_join_true.
Qed.

Lemma candidates_agree_witness :
  let a := person 0 "a1" "123" "60637" in
  let b := person 0 "b1" "123" "60637" in
  let b' := person 1 "b2" "456" "60637" in
  let cands := [mk_pair (Some "a1") (Some "b1") 0 0] in
  find_pass_candidates TEXT ["ssn"] ["ssn"] "id" "id" [] [a] [b; b'] false
  = Ok ([] ++ [combine ["ssn"] ["ssn"]], cands)
  ∧ (∀ c, c ∈ cands →
       ∃ x y, x ∈ [a] ∧ y ∈ [b; b'] ∧ c = pair_of "id" "id" x y
              ∧ agree x y (combine ["ssn"] ["ssn"]))
  ∧ ([] = @nil join_cond → false = false →
     ∀ x y, x ∈ [a] → y ∈ [b; b'] → agree x y (combine ["ssn"] ["ssn"]) →
       pair_of "id" "id" x y ∈ cands).
Proof.
  intros a b b' cands.
  assert (find_pass_candidates TEXT ["ssn"] ["ssn"] "id" "id" [] [a] [b; b'] false
          = Ok ([] ++ [combine ["ssn"] ["ssn"]], cands)) as H
    by (vm_compute; reflexivity).
  split; [exact H|].
  exact (proj2 (candidates_agree TEXT ["ssn"] ["ssn"] "id" "id" [] [a] [b; b']
                  false _ cands H)).
Defined.

Lemma separated_ext {L} (E E' : pair → Prop) (out : list (L * list pair)) :
  (∀ c, E c ↔ E' c) → separated E out → separated E' out.
Proof.
  revert E E'. induction out as [|x out IH]; intros E E' HE; [done|].
  simpl. intros [H1 H2]. split.
  - intros c Hc HE'. apply (H1 c Hc). by apply HE.
  - eapply IH; [|exact H2]. intros c. simpl. by rewrite HE.
Qed.

Lemma separated_map {L L'} (f : L → L') (E : pair → Prop)
    (out : list (L * list pair)) :
  separated E out → separated E (map (λ x, (f (fst x), snd x)) out).
Proof.
  revert E. induction out as [|x out IH]; intros E; [done|].
  simpl. intros [H1 H2]. split; [done|]. by apply IH.
Qed.

(** A pair is in one of the tables of the list. *)
Lemma separated_app {L} (E : pair → Prop) (l1 l2 : list (L * list pair)) :
  separated E l1 →
  separated (λ c, E c ∨ ∃ x, x ∈ l1 ∧ c ∈ snd x) l2 →
  separated E (l1 ++ l2).
Proof.
  revert E. induction l1 as [|x l1 IH]; intros E; simpl.
  - intros _. apply separated_ext. intros c. split; [|by left].
    intros [?|(x & ?%elem_of_nil & _)]; done.
  - intros [H1 H2] H3. split; [done|]. apply IH; [done|].
    eapply separated_ext; [|exact H3]. intros c. simpl. split.
    + intros [?|(y & [->|Hy]%elem_of_cons & Hc)]; [by left; left|by left; right|].
      right. eauto.
    + intros [[?|?]|(y & Hy & Hc)]; [by left|right|right].
      * exists x. split; [apply list_elem_of_here|done].
      * exists y. split; [by apply list_elem_of_further|done].
Qed.

Lemma separated_avoids {L} (E : pair → Prop) (out : list (L * list pair))
    (x : L * list pair) (c : pair) :
  separated E out → x ∈ out → c ∈ snd x → ¬ E c.
Proof.
  revert E. induction out as [|y out IH]; intros E; simpl.
  - by intros _ ?%elem_of_nil.
  - intros [H1 H2] [->|Hx]%elem_of_cons Hc; [by apply H1|].
    intros HE. apply (IH _ H2 Hx Hc). by left.
Qed.

(** In a separated list no pair is in two tables. *)
Lemma separated_lookup {L} (E : pair → Prop) (out : list (L * list pair))
    (i j : nat) (x y : L * list pair) (c : pair) :
  separated E out → i < j → out !! i = Some x → out !! j = Some y →
  c ∈ snd x → c ∉ snd y.
Proof.
  revert E i j. induction out as [|z out IH]; intros E i j; [done|].
  simpl. intros [H1 H2] Hij Hi Hj Hc Hc'.
  destruct j as [|j]; [lia|]. simpl in Hj. destruct i as [|i].
  - simpl in Hi. injection Hi as ->.
    apply (separated_avoids _ _ y c H2); [by eapply list_elem_of_lookup_2|done|].
    by right.
  - simpl in Hi. apply (IH _ i j H2); [lia|done|done|done|done].
Qed.

(** One pass: its table holds no pair covered by the past conditions,
    and the new past conditions cover its pairs too. *)
Lemma find_pass_separated (ty : coltype) (pa pb : list string) (ia ib : string)
    (past : past_join_cond) (ta tb : list record) (dedup : bool)
    (past' : past_join_cond) (cands : list pair) (E : pair → Prop) :
  find_pass_candidates ty pa pb ia ib past ta tb dedup = Ok (past', cands) →
  idx_key ta → idx_key tb → covered ta tb ia ib past E →
  (∀ c, c ∈ cands → ¬ E c)
  ∧ covered ta tb ia ib past' (λ c, E c ∨ c ∈ cands).
Proof.
  intros (Hne & -> & Hcands)%find_pass_candidates_inv Hka Hkb Hcov. split.
  - intros c (a & b & Ha & Hb & -> & [_ Hp]%eval_exclude_true)%Hcands HE.
    apply Hp. by apply Hcov.
  - intros a b Ha Hb [HE|Hin]; apply eval_past_true.
    + apply (Hcov a b Ha Hb), eval_past_true in HE as (j & Hj & Htrue).
      exists j. split; [|done]. apply elem_of_app. by left.
    + apply Hcands in Hin as (a' & b' & Ha' & Hb' & Heq & [Hj _]%eval_exclude_true).
      injection Heq as _ _ Hia Hib.
      assert (a = a') as <- by (by apply Hka).
      assert (b = b') as <- by (by apply Hkb).
      exists (combine pa pb). split; [|done]. apply elem_of_app. right.
      apply list_elem_of_here.
Qed.

Lemma ground_truth_loop_separated (ty : coltype) (gids : list string)
    (va vb : gmap string string) (ia ib : string) (dedup : bool)
    (past past' : past_join_cond) (ta tb : list record)
    (out : list (string * list pair)) (E : pair → Prop) :
  ground_truth_loop ty gids va vb ia ib dedup past ta tb = Ok (past', out) →
  idx_key ta → idx_key tb → covered ta tb ia ib past E →
  separated E out
  ∧ covered ta tb ia ib past' (λ c, E c ∨ ∃ x, x ∈ out ∧ c ∈ snd x).
Proof.
  intros Hloop Hka Hkb. revert past out E Hloop.
  induction gids as [|gid rest IH]; intros past out E.
  { simpl. intros [= <- <-] Hcov. split; [done|].
    intros a b Ha Hb [HE|(x & ?%elem_of_nil & _)]; [by apply Hcov|done]. }
  cbn [ground_truth_loop].
  intros (ga & _ & (gb & _ & ([p1 c1] & Hfind & ([p2 o2] & Hrest & Hout)%rbind_ok)
    %rbind_ok)%rbind_ok)%rbind_ok Hcov.
  simpl in *. injection Hout as <- <-.
  destruct (find_pass_separated _ _ _ _ _ _ _ _ _ _ _ E Hfind Hka Hkb Hcov)
    as [Hav Hcov1].
  destruct (IH _ _ _ Hrest Hcov1) as [Hsep Hcov2].
  split; [split; done|].
  intros a b Ha Hb HE. apply (Hcov2 a b Ha Hb).
  destruct HE as [?|(x & [->|Hx]%elem_of_cons & Hc)];
    [by left; left|by left; right|right; eauto].
Qed.

Lemma getitem_ok `{Countable K} {V} (d : gmap K V) (k : K) (v : V) :
  getitem d k = Ok v → d !! k = Some v.
Proof. unfold getitem. destruct (d !! k); [|done]. by intros [= <-]. Qed.

(** One call of [run_blocking_pass] when no pass is skipped by the
    configuration. *)
Lemma run_blocking_pass_separated (ty : coltype) (blocks : list (list string))
    (passnum : nat) (va vb : gmap string string) (name_b : string)
    (past past' : past_join_cond) (ta tb : list record)
    (ocands : option (list pair)) (E : pair → Prop) :
  let ia := default "" (va !! "indv_id") in
  let ib := default "" (vb !! "indv_id") in
  let tb' := if String.eqb name_b "dedup" then ta else tb in
  run_blocking_pass ty blocks passnum va vb name_b past ta tb = Ok (past', ocands) →
  Forall (λ bv, bv ≠ []) blocks →
  idx_key ta → idx_key tb' → covered ta tb' ia ib past E →
  (∀ c, c ∈ default [] ocands → ¬ E c)
  ∧ covered ta tb' ia ib past' (λ c, E c ∨ c ∈ default [] ocands).
Proof.
  intros ia ib tb'. unfold run_blocking_pass.
  destruct (blocks !! passnum) as [bv|] eqn:Hbv; [|done].
  intros (ia' & Hia%getitem_ok & (ib' & Hib%getitem_ok & Hrun)%rbind_ok)%rbind_ok
    Hne Hka Hkb Hcov.
  assert (ia = ia') as <- by (unfold ia; by rewrite Hia).
  assert (ib = ib') as <- by (unfold ib; by rewrite Hib).
  assert (bv ≠ []) as Hbne.
  { rewrite Forall_forall in Hne. apply Hne. by eapply list_elem_of_lookup_2. }
  destruct bv as [|v0 bv]; [done|].
  match type of Hrun with
  | (if ?c then _ else _) = _ => destruct c
  end.
  - injection Hrun as <- <-. simpl. split; [by intros c ?%elem_of_nil|].
    intros a b Ha Hb [?|?%elem_of_nil]; [by apply Hcov|done].
  - apply rbind_ok in Hrun as ([p1 c1] & Hfind & [= <- <-]).
    simpl. by eapply find_pass_separated.
Qed.

Lemma blocking_loop_separated (ty : coltype) (blocks : list (list string))
    (passnums : list nat) (va vb : gmap string string) (name_b : string)
    (past : past_join_cond) (ta tb : list record)
    (out : list (nat * list pair)) (E : pair → Prop) :
  let ia := default "" (va !! "indv_id") in
  let ib := default "" (vb !! "indv_id") in
  let tb' := if String.eqb name_b "dedup" then ta else tb in
  blocking_loop ty blocks passnums va vb name_b past ta tb = Ok out →
  Forall (λ bv, bv ≠ []) blocks →
  idx_key ta → idx_key tb' → covered ta tb' ia ib past E →
  separated E out.
Proof.
  intros ia ib tb' Hloop Hne Hka Hkb. revert past out E Hloop.
  induction passnums as [|p rest IH]; intros past out E.
  { simpl. by intros [= <-]. }
  cbn [blocking_loop].
  intros ([p1 oc] & Hrun & (o2 & Hrest & [= <-])%rbind_ok)%rbind_ok Hcov.
  destruct (run_blocking_pass_separated _ _ _ _ _ _ _ _ _ _ _ E Hrun Hne Hka Hkb Hcov)
    as [Hav Hcov1].
  simpl in *. destruct oc as [cands|]; simpl in *.
  - split; [done|]. by eapply IH.
  - eapply IH; [done|]. intros a b Ha Hb HE. apply Hcov1; auto.
Qed.

Lemma covered_nil (ta tb : list record) (ia ib : string) :
  covered ta tb ia ib [] (λ _, False).
Proof. by intros a b _ _ []. Qed.

(** X7. When no pass of the configuration is an empty list and [idx]
    is a key of each table, no pair is in two candidates tables of a
    match: a pair found by a ground-truth-ID pass or by a regular pass
    is in the table of no later pass. *)
Theorem no_pair_twice (ty : coltype) (ground_truth_ids : list string)
    (blocks_by_pass : list (list string)) (vars_a vars_b : gmap string string)
    (name_b : string) (table_a table_b : list record)
    (out : list (pass_label * list pair)) :
  all_blocking ty ground_truth_ids blocks_by_pass vars_a vars_b name_b
    table_a table_b = Ok out →
  Forall (λ blocking_vars, blocking_vars ≠ []) blocks_by_pass →
  idx_key table_a →
  idx_key (if String.eqb name_b "dedup" then table_a else table_b) →
  ∀ i j x y c, i < j → out !! i = Some x → out !! j = Some y →
    c ∈ snd x → c ∉ snd y.
Proof.
  unfold all_blocking.
  intros ([p1 gt] & Hgt & (ps & Hps & [= <-])%rbind_ok)%rbind_ok Hne Hka Hkb.
  set (ia := default "" (vars_a !! "indv_id")).
  set (ib := default "" (vars_b !! "indv_id")).
  set (tb' := if String.eqb name_b "dedup" then table_a else table_b) in *.
  assert (separated (λ _, False) gt
          ∧ covered table_a tb' ia ib p1
              (λ c, False ∨ ∃ x, x ∈ gt ∧ c ∈ snd x)) as [Hsep Hcov].
  { destruct ground_truth_ids as [|g0 gids].
    - injection Hgt as <- <-. split; [done|].
      intros a b _ _ [[]|(x & ?%elem_of_nil & _)]. done.
    - unfold run_ground_truth_ids_passes in Hgt.
      apply rbind_ok in Hgt as (ia' & Hia%getitem_ok & Hgt).
      apply rbind_ok in Hgt as (ib' & Hib%getitem_ok & Hgt).
      assert (ia = ia') as <- by (unfold ia; by rewrite Hia).
      assert (ib = ib') as <- by (unfold ib; by rewrite Hib).
      eapply ground_truth_loop_separated; [exact Hgt|done|done|].
      apply covered_nil. }
  simpl in Hps.
  pose proof (blocking_loop_separated _ _ _ _ _ _ _ _ _ _ _ Hps Hne Hka Hkb Hcov)
    as Hsep2.
  intros i j x y c. apply (separated_lookup (λ _, False)).
  apply separated_app; [by apply separated_map|].
  apply separated_map. eapply separated_ext; [|exact Hsep2].
  intros c'. simpl. split.
  - intros [[]|(z & Hz & Hc)]. right. exists (Dup (fst z), snd z).
    split; [|done]. apply list_elem_of_In, in_map_iff. exists z.
    split; [done|by apply list_elem_of_In].
  - intros [[]|(z & Hz%list_elem_of_In%in_map_iff & Hc)].
    destruct Hz as (z' & <- & Hz'%list_elem_of_In). right. eauto.
Qed.

Lemma no_pair_twice_witness :
  let a := person 0 "a1" "123" "60637" in
  let b := person 0 "b1" "123" "60637" in
  let p := mk_pair (Some "a1") (Some "b1") 0 0 in
  all_blocking TEXT [] [["common_id"]; ["zipcode"]]
    vars_example vars_example "B" [a] [b]
  = Ok [(Pass 0, [p]); (Pass 1, [])]
  ∧ ∀ i j x y c, i < j →
      [(Pass 0, [p]); (Pass 1, [])] !! i = Some x →
      [(Pass 0, [p]); (Pass 1, [])] !! j = Some y →
      c ∈ snd x → c ∉ snd y.
Proof.
  intros a b p.
  assert (all_blocking TEXT [] [["common_id"]; ["zipcode"]]
            vars_example vars_example "B" [a] [b]
          = Ok [(Pass 0, [p]); (Pass 1, [])]) as H by (vm_compute; reflexivity).
  split; [exact H|].
  apply (no_pair_twice TEXT [] [["common_id"]; ["zipcode"]]
           vars_example vars_example "B" [a] [b] _ H).
  - repeat constructor; discriminate.
  - intros x y ->%list_elem_of_singleton ->%list_elem_of_singleton _. done.
  - intros x y ->%list_elem_of_singleton ->%list_elem_of_singleton _. done.
Defined.

(** The loop of the script keeps the past conditions over every pass it
    skips. *)
Lemma pass_loop_separated (ty : coltype) (blocks : list (list string))
    (passnum : nat) (va vb : gmap string string) (ia ib : string) (dedup : bool)
    (past : past_join_cond) (ta tb : list record)
    (out : list (nat * list pair)) (E : pair → Prop) :
  BlockScript.pass_loop ty blocks passnum va vb ia ib dedup past ta tb = Ok out →
  idx_key ta → idx_key tb → covered ta tb ia ib past E →
  separated E out.
Proof.
  intros Hloop Hka Hkb. revert passnum past out E Hloop.
  induction blocks as [|bv rest IH]; intros passnum past out E.
  { simpl. by intros [= <-]. }
  cbn [BlockScript.pass_loop]. destruct bv as [|v0 bv]; [by apply IH|].
  match goal with
  | |- (if ?c then _ else _) = _ → _ => destruct c
  end; [by apply IH|].
  intros ([p1 c1] & Hfind & (o2 & Hrest & [= <-])%rbind_ok)%rbind_ok Hcov.
  destruct (find_pass_separated _ _ _ _ _ _ _ _ _ _ _ E Hfind Hka Hkb Hcov)
    as [Hav Hcov1].
  split; [done|]. by eapply IH.
Qed.

(** X8. The loop of matching/block.py never puts a pair in two
    candidates tables, whatever passes the configuration skips, when
    [idx] is a key of each table. *)
Theorem script_no_pair_twice (ty : coltype) (matchtype : string)
    (ground_truth_ids : list string) (blocks_by_pass : list (list string))
    (vars_a vars_b : gmap string string) (table_a table_b : list record)
    (out : list (pass_label * list pair)) :
  BlockScript.block_script ty matchtype ground_truth_ids blocks_by_pass
    vars_a vars_b table_a table_b = Ok out →
  idx_key table_a →
  idx_key (if String.eqb matchtype "dedup" then table_a else table_b) →
  ∀ i j x y c, i < j → out !! i = Some x → out !! j = Some y →
    c ∈ snd x → c ∉ snd y.
Proof.
  unfold BlockScript.block_script.
  intros (ia & _ & (ib & _ & ([p1 gt] & Hgt & (ps & Hps & [= <-])%rbind_ok)
    %rbind_ok)%rbind_ok)%rbind_ok Hka Hkb.
  destruct (ground_truth_loop_separated _ _ _ _ _ _ _ _ _ _ _ _ (λ _, False)
              Hgt Hka Hkb) as [Hsep Hcov]; [apply covered_nil|].
  simpl in Hps.
  pose proof (pass_loop_separated _ _ _ _ _ _ _ _ _ _ _ _ _ Hps Hka Hkb Hcov)
    as Hsep2.
  intros i j x y c. apply (separated_lookup (λ _, False)).
  apply separated_app; [by apply separated_map|].
  apply separated_map. eapply separated_ext; [|exact Hsep2].
  intros c'. simpl. split.
  - intros [[]|(z & Hz & Hc)]. right. exists (Dup (fst z), snd z).
    split; [|done]. apply list_elem_of_In, in_map_iff. exists z.
    split; [done|by apply list_elem_of_In].
  - intros [[]|(z & Hz%list_elem_of_In%in_map_iff & Hc)].
    destruct Hz as (z' & <- & Hz'%list_elem_of_In). right. eauto.
Qed.

Lemma script_no_pair_twice_witness :
  let a := person 0 "a1" "123" "60637" in
  let b := person 0 "b1" "123" "60637" in
  let p := mk_pair (Some "a1") (Some "b1") 0 0 in
  BlockScript.block_script TEXT "121" [] [["common_id"]; []; ["zipcode"]]
    vars_example vars_example [a] [b]
  = Ok [(Pass 0, [p]); (Pass 2, [])]
  ∧ ∀ i j x y c, i < j →
      [(Pass 0, [p]); (Pass 2, [])] !! i = Some x →
      [(Pass 0, [p]); (Pass 2, [])] !! j = Some y →
      c ∈ snd x → c ∉ snd y.
Proof.
  intros a b p.
  assert (BlockScript.block_script TEXT "121" [] [["common_id"]; []; ["zipcode"]]
            vars_example vars_example [a] [b]
          = Ok [(Pass 0, [p]); (Pass 2, [])]) as H by (vm_compute; reflexivity).
  split; [exact H|].
  apply (script_no_pair_twice TEXT "121" [] [["common_id"]; []; ["zipcode"]]
           vars_example vars_example [a] [b] _ H).
  - intros x y ->%list_elem_of_singleton ->%list_elem_of_singleton _. done.
  - intros x y ->%list_elem_of_singleton ->%list_elem_of_singleton _. done.
Defined.

End Candidates.

(** ** The comparers of birth year and middle initial *)

Section Comparers.

Import MatchFunctions.
Local Open Scope list_scope.

Lemma assign_where_zero_off (sim v : Q) : assign_where_zero sim false v = sim.
Proof. unfold assign_where_zero. by rewrite andb_false_r. Qed.

Lemma assign_where_zero_kept (sim v : Q) (mask : bool) :
  Qeq_bool sim 0 = false → assign_where_zero sim mask v = sim.
Proof. unfold assign_where_zero. by intros ->. Qed.

Lemma feq_sym (x y : float) : feq x y = feq y x.
Proof.
  destruct x as [a|], y as [b|]; simpl; try done.
  apply eq_true_iff_eq. rewrite !Qeq_bool_iff. split; intros H; by symmetry.
Qed.

Lemma within_sym (x y : float) (d : Q) : Byear.within x y d = Byear.within y x d.
Proof.
  destruct x as [a|], y as [b|]; try done.
  unfold Byear.within. apply eq_true_iff_eq. rewrite !Qle_bool_iff.
  split; intros H; (eapply Qle_trans; [|exact H]).
  - rewrite (Qabs_Qminus b a). apply Qle_refl.
  - rewrite (Qabs_Qminus a b). apply Qle_refl.
Qed.

Lemma teq_sym (x y : Minitial.text) : Minitial.teq x y = Minitial.teq y x.
Proof. destruct x, y; simpl; try done. apply String.eqb_sym. Qed.

(** X9. CompareByear gives each pair of birth years the first tier of its
    docstring that applies: 1 when the years are equal, within_year_dif
    when they differ by at most year_dif, missing_value when one is missing,
    0 otherwise; this holds for every configured value, and the score does
    not depend on the order of the two years. *)
Theorem compute_byear_tiers (self : Byear.CompareByear) (s1 s2 : float) :
  Byear.compute_byear self s1 s2 = Byear.tiers_byear self s1 s2
  ∧ Byear.compute_byear self s1 s2 = Byear.compute_byear self s2 s1.
Proof.
  split.
  - unfold Byear.compute_byear, Byear.tiers_byear.
    destruct (feq s1 s2) eqn:Heq.
    + by rewrite !assign_where_zero_kept.
    + destruct (Byear.within s1 s2 _) eqn:Hw.
      * destruct s1, s2; try done. simpl.
        by rewrite assign_where_zero_off.
      * rewrite assign_where_zero_off.
        by destruct (isnan s1 || isnan s2).
  - unfold Byear.compute_byear.
    by rewrite (feq_sym s1 s2), (within_sym s1 s2), (orb_comm (isnan s1)).
Qed.

(** X10. CompareMinitial gives each pair the first tier of its docstring
    that applies: 1 when the initials are equal and one of the middle names
    is a single letter, minit_match_mname_unclear when the initials are
    equal and neither is, missing_value when an initial is missing, 0
    otherwise; this holds for every configured value, and the score does
    not depend on the order of the two records. *)
Theorem compute_minitial_tiers (self : Minitial.CompareMinitial)
    (s1_minit s1_mname s2_minit s2_mname : Minitial.text) :
  Minitial.compute_minitial self s1_minit s1_mname s2_minit s2_mname
    = Minitial.tiers_minitial self s1_minit s1_mname s2_minit s2_mname
  ∧ Minitial.compute_minitial self s1_minit s1_mname s2_minit s2_mname
    = Minitial.compute_minitial self s2_minit s2_mname s1_minit s1_mname.
Proof.
  split.
  - unfold Minitial.compute_minitial, Minitial.tiers_minitial.
    destruct (Minitial.teq s1_minit s2_minit) eqn:Heq.
    + destruct s1_minit, s2_minit; try done. simpl.
      destruct (Minitial.one_letter s1_mname || Minitial.one_letter s2_mname).
      * by rewrite !assign_where_zero_kept.
      * by rewrite assign_where_zero_off.
    + simpl. rewrite assign_where_zero_off.
      by destruct (Minitial.isnull s1_minit || Minitial.isnull s2_minit).
  - unfold Minitial.compute_minitial.
    by rewrite (teq_sym s1_minit s2_minit),
      (orb_comm (Minitial.one_letter s1_mname)),
      (orb_comm (Minitial.isnull s1_minit)).
Qed.

End Comparers.

(** ** Groups and the rows that make them *)

Section Components.

Import PairFile UnionFind Postprocess.
Local Open Scope list_scope.

Section Relation.

Context (R : item → item → Prop).
Hypothesis Rsym : ∀ x y, R x y → R y x.
Hypothesis Rtrans : ∀ x y z, R x y → R y z → R x z.

(** Two groups whose items are all related to one item are merged. *)
Lemma related_moved (uf uf' : t) (a b : nat) (p : item) :
  (∀ z, item_to_group uf' !! z
        = if decide (item_to_group uf !! z = Some b) then Some a
          else item_to_group uf !! z) →
  (∀ x y, same_group uf x y → R x y) →
  (∀ x, item_to_group uf !! x = Some a → R x p) →
  (∀ x, item_to_group uf !! x = Some b → R x p) →
  ∀ x y, same_group uf' x y → R x y.
Proof.
  intros Hitg Hs Ha Hb x y (c & Hx & Hy). rewrite Hitg in Hx, Hy.
  case_decide as Hxb; case_decide as Hyb; simplify_eq;
    try (apply Rtrans with p; [|apply Rsym]; by auto).
  apply Hs. by exists c.
Qed.

(** An item is added to a group whose items are all related to it. *)
Lemma related_added (uf uf' : t) (i : item) (c : nat) :
  item_to_group uf' = <[i := c]> (item_to_group uf) →
  R i i →
  (∀ x y, same_group uf x y → R x y) →
  (∀ x, item_to_group uf !! x = Some c → R x i) →
  ∀ x y, same_group uf' x y → R x y.
Proof.
  intros Hitg Hi Hs Hc x y (k & Hx & Hy). rewrite Hitg in Hx, Hy.
  destruct (decide (x = i)) as [->|Hxi]; destruct (decide (y = i)) as [->|Hyi].
  - done.
  - rewrite lookup_insert_eq in Hx. rewrite lookup_insert_ne in Hy by done.
    injection Hx as <-. apply Rsym. auto.
  - rewrite lookup_insert_eq in Hy. rewrite lookup_insert_ne in Hx by done.
    injection Hy as <-. auto.
  - rewrite lookup_insert_ne in Hx, Hy by done. apply Hs. by exists k.
Qed.

(** [add_item_dedup] of an id related to every item of the group its
    group name stands for: items under one name stay related. *)
Lemma add_item_dedup_related (uf uf' : t) (g : nat) (s : string) :
  wf uf → add_item_dedup g (Atom s) uf = Ok uf' →
  R (Atom s) (Atom s) →
  (∀ x y, same_group uf x y → R x y) →
  (∀ x, item_to_group uf !! x = Some (top_of uf g) → R x (Atom s)) →
  ∀ x y, same_group uf' x y → R x y.
Proof.
  intros Hwf. pose proof Hwf as [Hi Hg]. unfold add_item_dedup.
  destruct (item_to_group uf !! Atom s) as [cur|] eqn:Hcur.
  - destruct (wf_member _ _ Hi _ _ Hcur) as (sa & Hsa & Hin).
    assert (cur ∈ dom (group_to_item_set uf)) as Hcl by (apply elem_of_dom; eauto).
    intros Hop Hss Hs Htop.
    assert (∀ x, item_to_group uf !! x = Some cur → R x (Atom s)) as Hcs.
    { intros x Hx. apply Hs. by exists cur. }
    revert Hop. case_bool_decide as Hgc.
    { by intros [= <-]. }
    case_bool_decide as Hgl.
    { intros (u1 & Hu & [= <-])%rbind_ok.
      destruct (union_effect uf u1 cur g Hwf Hcl Hgl) as [Hitg _]; [done|done|].
      rewrite (top_of_live uf g Hwf Hgl) in Htop.
      by apply (related_moved uf (incr_count u1) cur g (Atom s)). }
    destruct (group_to_top_group uf !! g) as [top|] eqn:Htg.
    + assert (top_of uf g = top) as Heq by (unfold top_of; by rewrite Htg).
      rewrite Heq in Htop.
      case_bool_decide as Htc.
      * intros (u1 & Hu & [= <-])%rbind_ok.
        assert (top ∈ dom (group_to_item_set uf)) as Htl by (by eapply wf_alias).
        destruct (union_effect uf u1 top cur Hwf Htl Hcl) as [Hitg _];
          [done|done|].
        by apply (related_moved uf (incr_count u1) top cur (Atom s)).
      * by intros [= <-].
    + intros (u1 & Hu & [= <-])%rbind_ok.
      assert (g ∉ dom (group_to_item_set uf)) as Hnl by done.
      set (uf0 := with_sets uf (<[g := {[Atom s]}]> (group_to_item_set uf))) in *.
      assert (cur ≠ g) as Hne by congruence.
      destruct (union_live uf0 cur g sa {[Atom s]})
        as (u1' & Hu1 & _ & Hitg & _ & _ & _).
      { simpl. rewrite dom_insert_L.
        replace ({[g]} ∪ dom (group_to_item_set uf))
          with (dom (group_to_item_set uf) ∪ {[g]}) by set_solver.
        by apply wf_groups_fresh. }
      { done. }
      { simpl. by rewrite lookup_insert_ne. }
      { simpl. by rewrite lookup_insert_eq. }
      rewrite Hu in Hu1. injection Hu1 as <-.
      assert (∀ x, item_to_group u1 !! x = item_to_group uf !! x) as Hsame.
      { intros x. rewrite Hitg. simpl. rewrite lookup_assign_all.
        case_decide as Hx; [|done]. apply elem_of_singleton in Hx as ->. done. }
      intros x y (c & Hx & Hy). apply Hs. exists c. simpl in Hx, Hy.
      by rewrite <- !Hsame.
  - intros Hop Hss Hs Htop. revert Hop.
    destruct (group_to_top_group uf !! g) as [top|] eqn:Htg.
    + intros (gtis' & _ & [= <-])%rbind_ok.
      assert (top_of uf g = top) as Heq by (unfold top_of; by rewrite Htg).
      rewrite Heq in Htop.
      by apply (related_added uf _ (Atom s) top).
    + assert (top_of uf g = g) as Heq by (unfold top_of; by rewrite Htg).
      rewrite Heq in Htop.
      destruct (group_to_item_set uf !! g); intros [= <-];
        by apply (related_added uf _ (Atom s) g).
Qed.

(** No item is recorded under a group name that is not in use. *)
Lemma fresh_no_items (uf : t) (g : nat) (x : item) :
  wf uf → g ∉ groups uf → item_to_group uf !! x ≠ Some (top_of uf g).
Proof.
  intros [Hi Hg] Hf Hx. unfold groups in Hf.
  assert (group_to_top_group uf !! g = None) as Hn
    by (apply not_elem_of_dom; set_solver).
  unfold top_of in Hx. rewrite Hn in Hx. simpl in Hx.
  destruct (wf_member _ _ Hi _ _ Hx) as (sg & Hsg & _).
  assert (g ∈ dom (group_to_item_set uf)) by (apply elem_of_dom; eauto).
  set_solver.
Qed.

(** The two calls [add_csv] makes for a row of a dedup file, under a
    group name not in use. *)
Lemma add_pair_related (uf u1 u2 : t) (g : nat) (a b : string) :
  wf uf → g ∉ groups uf →
  add_item_dedup g (Atom a) uf = Ok u1 → add_item_dedup g (Atom b) u1 = Ok u2 →
  R (Atom a) (Atom a) → R (Atom b) (Atom b) → R (Atom a) (Atom b) →
  (∀ x y, same_group uf x y → R x y) →
  ∀ x y, same_group u2 x y → R x y.
Proof.
  intros Hwf Hf H1 H2 Haa Hbb Hab Hs.
  destruct (add_item_dedup_wf uf g a Hwf) as (u1' & H1' & Hwf1 & _ & _).
  rewrite H1 in H1'. injection H1' as <-.
  destruct (add_item_dedup_groups uf u1 g a Hwf H1) as (_ & _ & Ha1).
  assert (∀ x y, same_group u1 x y → R x y) as Hs1.
  { apply (add_item_dedup_related uf u1 g a); [done..|].
    intros x Hx. by destruct (fresh_no_items uf g x). }
  apply (add_item_dedup_related u1 u2 g b); [done..|].
  intros x Hx. apply Rtrans with (Atom a); [|done].
  apply Hs1. by exists (top_of u1 g).
Qed.

Lemma add_csv_related (lines : list line) (s : option flag_col)
    (rowid rowid' : nat) (uf uf' : t) :
  wf uf → (∀ g, g ∈ groups uf → g < rowid) →
  add_csv lines MT_dedup s rowid uf = Ok (rowid', uf') →
  (∀ id, R (Atom id) (Atom id)) →
  (∀ l, l ∈ lines → row_taken s l = true →
     R (Atom (strip (indv_id_a l))) (Atom (strip (indv_id_b l)))) →
  (∀ x y, same_group uf x y → R x y) →
  wf uf' ∧ (∀ g, g ∈ groups uf' → g < rowid')
  ∧ ∀ x y, same_group uf' x y → R x y.
Proof.
  revert rowid uf. induction lines as [|r rest IH]; intros rowid uf Hwf Hb.
  { simpl. by intros [= <- <-]. }
  cbn [add_csv]. destruct (row_taken s r) eqn:Ht.
  - intros (u2 & (u1 & H1 & H2)%rbind_ok & Hrest)%rbind_ok Hrefl Hrows Hs.
    assert (rowid ∉ groups uf) as Hf by (intros Hin%Hb; lia).
    destruct (add_item_dedup_wf uf rowid (strip (indv_id_a r)) Hwf)
      as (u1' & H1' & Hwf1 & Hg1 & _).
    rewrite H1 in H1'. injection H1' as <-.
    destruct (add_item_dedup_wf u1 rowid (strip (indv_id_b r)) Hwf1)
      as (u2' & H2' & Hwf2 & Hg2 & _).
    rewrite H2 in H2'. injection H2' as <-.
    apply (IH (S rowid) u2); [done| |done|done| |].
    + intros g Hin. apply Hg2 in Hin.
      apply elem_of_union in Hin as [Hin|Hin]; [|set_solver by lia].
      apply Hg1 in Hin. apply elem_of_union in Hin as [Hin|Hin].
      * apply Hb in Hin. lia.
      * apply elem_of_singleton in Hin. lia.
    + intros l Hl. apply Hrows. by apply list_elem_of_further.
    + apply (add_pair_related uf u1 u2 rowid _ _ Hwf Hf H1 H2); [done..| |done].
      apply Hrows; [apply list_elem_of_here|done].
  - intros Hrest Hrefl Hrows Hs.
    apply (IH rowid uf); [done..| |done].
    intros l Hl. apply Hrows. by apply list_elem_of_further.
Qed.

Lemma add_all_ids_related (ids : list string) (rowid : nat) (uf uf' : t) :
  wf uf → (∀ g, g ∈ groups uf → g < rowid) →
  add_all_ids ids rowid uf = Ok uf' →
  (∀ id, R (Atom id) (Atom id)) →
  (∀ x y, same_group uf x y → R x y) →
  ∀ x y, same_group uf' x y → R x y.
Proof.
  revert rowid uf. induction ids as [|id rest IH]; intros rowid uf Hwf Hb.
  { simpl. by intros [= <-]. }
  cbn [add_all_ids]. intros (u1 & H1 & Hrest)%rbind_ok Hrefl Hs.
  assert (rowid ∉ groups uf) as Hf by (intros Hin%Hb; lia).
  destruct (add_item_dedup_wf uf rowid id Hwf) as (u1' & H1' & Hwf1 & Hg1 & _).
  rewrite H1 in H1'. injection H1' as <-.
  apply (IH (S rowid) u1); [done| |done|done|].
  - intros g Hin. apply Hg1 in Hin. apply elem_of_union in Hin as [Hin|Hin].
    + apply Hb in Hin. lia.
    + apply elem_of_singleton in Hin. lia.
  - apply (add_item_dedup_related uf u1 rowid id); [done..|].
    intros x Hx. by destruct (fresh_no_items uf rowid x).
Qed.

End Relation.

(** X11. In the crosswalk of a dedup match on a pair file with ASCII
    ids and flags two ids have the same CH_id only if a chain of rows taken links
    them: the groups are no larger than the rows make them, whatever
    ids of the table are added. *)
Theorem dedup_groups_linked (lines : list line) (strictness : option flag_col)
    (all_ids : option (list string)) :
  ascii_cells lines = true →
  ∃ d, mtom_or_dedup_matching lines MT_dedup strictness all_ids = Ok d
    ∧ ∀ items, lists_dict items d →
        ∀ x y i, [CItem x; CInt i] ∈ write_groups_rows MT_dedup 0 items →
          [CItem y; CInt i] ∈ write_groups_rows MT_dedup 0 items →
          ∃ a b, x = Atom a ∧ y = Atom b ∧ linked strictness lines a b.
Proof.
  intros _. set (R := linked_items strictness lines).
  assert (∀ x y, R x y → R y x) as Rsym.
  { intros x y (a & b & -> & -> & H). exists b, a. split_and!; [done..|].
    by apply linked_sym. }
  assert (∀ x y z, R x y → R y z → R x z) as Rtrans.
  { intros x y z (a & b & -> & -> & H) (b' & c & [= <-] & -> & H').
    exists a, c. split_and!; [done..|]. by eapply linked_trans. }
  assert (∀ id, R (Atom id) (Atom id)) as Rrefl.
  { intros id. exists id, id. split_and!; [done..|]. apply linked_refl. }
  unfold mtom_or_dedup_matching.
  destruct (add_csv_spec lines MT_dedup strictness 0 init reach_init)
    as (rowid & uf & Hcsv & _ & _ & _).
  { intros g. unfold groups. simpl. rewrite !dom_empty_L. set_solver. }
  rewrite Hcsv. cbn [rbind].
  destruct (add_csv_related R Rsym Rtrans lines strictness 0 rowid init uf)
    as (Hwf & Hb & Hs); [apply wf_init| |done|done| | |].
  { intros g. unfold groups. simpl. rewrite !dom_empty_L. set_solver. }
  { intros l Hl Ht. exists (strip (indv_id_a l)), (strip (indv_id_b l)).
    split_and!; [done..|]. by apply linked_row. }
  { intros x y (g & Hx & _). simpl in Hx. by rewrite lookup_empty in Hx. }
  assert (∃ uf', (match all_ids with
                  | Some ids => add_all_ids ids rowid uf
                  | None => Ok uf
                  end) = Ok uf'
            ∧ wf uf' ∧ (∀ x y, same_group uf' x y → R x y))
    as (uf' & -> & [Hi Hg] & Hs').
  { destruct all_ids as [ids|]; simpl.
    - destruct (add_all_ids_spec ids rowid uf Hwf Hb) as (uf' & Hall & _).
      exists uf'. split; [done|]. split.
      + by destruct (add_all_ids_together ids rowid uf uf' Hwf Hall).
      + by apply (add_all_ids_related R Rsym Rtrans ids rowid uf uf').
    - by exists uf. }
  cbn [rbind]. exists (group_to_item_set uf'). split; [done|].
  intros items Hitems x y i
    (k & g & l & Hk & -> & Hx)%elem_of_write_groups_rows_dedup
    (k' & g' & l' & Hk' & Hkk & Hy)%elem_of_write_groups_rows_dedup.
  simpl in Hkk. subst k'. rewrite Hk in Hk'. injection Hk' as <- <-.
  destruct (lists_dict_lookup _ _ _ _ _ _ Hitems Hk Hx) as (sg & Hsg & Hin).
  destruct (lists_dict_lookup _ _ _ _ _ _ Hitems Hk Hy) as (sg' & Hsg' & Hin').
  rewrite Hsg in Hsg'. injection Hsg' as <-.
  apply (Hs' x y). exists g. split; by eapply wf_group.
Qed.

Lemma dedup_groups_linked_witness :
  let lines := [mk_line "1" "2" "11.9" "0" (λ _, None);
                mk_line " 2" "3 " "10.5" "1" (λ _, None)] in
  ascii_cells lines = true
  ∧ ∃ d, mtom_or_dedup_matching lines MT_dedup None (Some ["1"; "4"]) = Ok d.
Proof.
  intros lines. split; [reflexivity|].
  destruct (dedup_groups_linked lines None (Some ["1"; "4"]) eq_refl)
    as (d & Hd & _).
  exists d. exact Hd.
Defined.

(** The items of a group are the items recorded under its name. *)
Lemma wf_set_iff (gtis : gmap nat (gset item)) (itg : gmap item nat)
    (g : nat) (s : gset item) (x : item) :
  wf_items gtis itg → gtis !! g = Some s → x ∈ s ↔ itg !! x = Some g.
Proof.
  intros Hi Hs. split; [by eapply wf_group|].
  intros Hx. destruct (wf_member _ _ Hi _ _ Hx) as (s' & Hs' & Hin). congruence.
Qed.

Ltac close_items :=
  repeat case_decide;
  repeat match goal with
         | H : _ ∈ {[_]} |- _ => apply elem_of_singleton in H
         | H : _ ∉ {[_]} |- _ => apply not_elem_of_singleton in H
         end;
  simplify_eq; try done; try (exfalso; naive_solver); try naive_solver;
  try (destruct_or?; destruct_and?; destruct_or?;
       repeat match goal with
              | H : is_Some _ |- _ => destruct H as [? ?]
              end;
       simplify_eq; congruence).

(** [add_item_M2M] under a group name not used before: the pair tuple,
    its two ids and the items recorded with one of the two ids end under
    one name, and every other item keeps its name. *)
Lemma add_item_M2M_items (uf : t) (group : nat) (a b p : string) :
  wf uf → group ∉ groups uf →
  ∃ uf' c, add_item_M2M group (a, b) p uf = Ok uf'
    ∧ (∀ y, item_to_group uf !! y = Some c →
         item_to_group uf !! Atom a = Some c ∨ item_to_group uf !! Atom b = Some c)
    ∧ ∀ x, item_to_group uf' !! x
        = if decide ((x = Triple a b p ∨ x = Atom a ∨ x = Atom b)
                     ∨ (is_Some (item_to_group uf !! x)
                        ∧ (item_to_group uf !! x = item_to_group uf !! Atom a
                           ∨ item_to_group uf !! x = item_to_group uf !! Atom b)))
          then Some c else item_to_group uf !! x.
Proof.
  intros Hwf Hfresh. pose proof Hwf as [Hi Hg].
  destruct uf as [gtis itg gttg tg n]. unfold groups in *. simpl in *.
  assert (group ∉ dom gtis) as Hfl by set_solver.
  assert (gttg !! group = None) as Hfa by (apply not_elem_of_dom; set_solver).
  assert (gtis !! group = None) as Hfn by (by apply not_elem_of_dom).
  unfold add_item_M2M, set_group, with_sets. simpl.
  rewrite !lookup_insert_ne by done.
  set (it := Triple a b p).
  set (uf0 := with_items _ _).
  destruct (itg !! Atom a) as [grp|] eqn:Ha; destruct (itg !! Atom b) as [grpb|] eqn:Hb.
  - destruct (wf_member _ _ Hi _ _ Ha) as (sa & Hsa & Hina).
    destruct (wf_member _ _ Hi _ _ Hb) as (sb & Hsb & Hinb).
    assert (grp ∈ dom gtis) as Hla by (apply elem_of_dom; eauto).
    destruct (union_fresh uf0 gtis grp group sa {[it]})
      as (uf1 & -> & Hgtis1 & Hitg1 & Hg1 & _ & Hd1); try done.
    assert (itg !! it = None ∨ itg !! it = Some grp) as Hit.
    { destruct (itg !! it) as [g|] eqn:Ht; [right|by left].
      destruct (wf_triple _ _ Hi _ _ _ _ Ht). congruence. }
    case_bool_decide as Hne; simpl.
    + assert (itg !! it = None) as Hit0.
      { destruct (itg !! it) as [g|] eqn:Ht; [|done].
        destruct (wf_triple _ _ Hi _ _ _ _ Ht). congruence. }
      assert (Atom a ∉ sb) as Hasb.
      { intros Hin. pose proof (wf_group _ _ Hi _ _ _ Hsb Hin). congruence. }
      assert (it ∉ sb) as Htsb.
      { intros Hin. pose proof (wf_group _ _ Hi _ _ _ Hsb Hin). congruence. }
      destruct (union_live uf1 grp grpb (sa ∪ {[it]}) sb)
        as (uf2 & Hu2 & Hgtis2 & Hitg2 & Hg2 & _ & _); try done.
      { apply (wf_groups_live _ _ _ _ Hg1). rewrite Hgtis1, dom_insert_L. set_solver. }
      { rewrite Hgtis1. by rewrite lookup_insert_eq. }
      { rewrite Hgtis1. by rewrite lookup_insert_ne. }
      rewrite Hu2. simpl.
      assert (item_to_group uf2 !! Atom a = Some grp) as Ha2.
      { rewrite Hitg2, Hitg1. simpl. rewrite !lookup_assign_all.
        rewrite decide_False by done. rewrite decide_False by set_solver.
        by rewrite lookup_insert_ne. }
      unfold getitem at 1. rewrite Ha2. simpl.
      unfold getitem at 1. rewrite lookup_insert_ne, Ha2 by congruence. simpl.
      unfold add_to, set_add, getitem. simpl.
      rewrite Hgtis2, lookup_delete_ne, lookup_insert_eq by done. simpl.
      eexists _, grp. split; [done|]. simpl. split; [by auto|]. intros x.
      rewrite Hitg2, Hitg1. simpl.
      rewrite lookup_insert, !lookup_assign_all, lookup_insert.
      pose proof (wf_set_iff gtis itg grpb sb x Hi Hsb) as Hxb.
      clear -Ha Hb Hit0 Hne Hxb Hasb Htsb Hinb.
      destruct (decide (Atom b = x)) as [<-|Hxb'].
      { rewrite decide_True; [done|]. left. auto. }
      destruct (decide (x ∈ sb)) as [Hin|Hnin].
      { rewrite decide_True; [done|]. right. apply Hxb in Hin.
        split; [by eexists|by right]. }
      destruct (decide (x ∈ {[it]})) as [->%elem_of_singleton|Hnit].
      { rewrite decide_True; [done|]. by left; left. }
      destruct (decide (it = x)) as [<-|_];
        [by destruct Hnit; apply elem_of_singleton|].
      case_decide as Hc; [|done].
      destruct Hc as [[-> | [-> | ->]] | [_ [H | H]]].
      * by destruct Hnit; apply elem_of_singleton.
      * by rewrite Ha.
      * done.
      * by rewrite H.
      * by apply Hxb in H.
    + assert (grpb = grp) as -> by (destruct (decide (grp = grpb)); [done|tauto]).
      unfold add_to, set_add, getitem. simpl.
      rewrite Hgtis1, lookup_insert_eq. simpl.
      eexists _, grp. split; [done|]. simpl. split; [by auto|]. intros x.
      rewrite Hitg1. simpl. rewrite lookup_assign_all, lookup_insert.
      clear -Ha Hb Hit. close_items.
  - destruct (wf_member _ _ Hi _ _ Ha) as (sa & Hsa & Hina).
    assert (grp ∈ dom gtis) as Hla by (apply elem_of_dom; eauto).
    destruct (union_fresh uf0 gtis grp group sa {[it]})
      as (uf1 & -> & Hgtis1 & Hitg1 & Hg1 & _ & Hd1); try done.
    simpl. unfold add_to, set_add, getitem. simpl.
    rewrite Hgtis1, lookup_insert_eq. simpl. rewrite lookup_insert_eq. simpl.
    eexists _, grp. split; [done|]. simpl. split; [by auto|]. intros x.
    rewrite Hitg1. simpl. rewrite lookup_insert, lookup_assign_all, lookup_insert.
    pose proof (triple_unseen gtis itg a b p Hi (or_intror Hb)) as Hit0.
    clear -Ha Hb Hit0. close_items.
  - destruct (wf_member _ _ Hi _ _ Hb) as (sb & Hsb & Hinb).
    assert (grpb ∈ dom gtis) as Hlb by (apply elem_of_dom; eauto).
    destruct (union_fresh uf0 gtis grpb group sb {[it]})
      as (uf1 & -> & Hgtis1 & Hitg1 & Hg1 & _ & Hd1); try done.
    simpl. unfold add_to, set_add, getitem. simpl.
    rewrite Hgtis1, lookup_insert_eq. simpl. rewrite lookup_insert_eq. simpl.
    eexists _, grpb. split; [done|]. simpl. split; [by auto|]. intros x.
    rewrite Hitg1. simpl. rewrite lookup_insert, lookup_assign_all, lookup_insert.
    pose proof (triple_unseen gtis itg a b p Hi (or_introl Ha)) as Hit0.
    clear -Ha Hb Hit0. close_items.
  - unfold uf0, with_tops, with_items, add_to, set_add, getitem. simpl.
    rewrite lookup_insert_eq. simpl. rewrite lookup_insert_eq. simpl.
    eexists _, group. split; [done|]. simpl. split.
    { intros y Hy. destruct (wf_member _ _ Hi _ _ Hy) as (sy & Hsy & _). congruence. }
    intros x.
    rewrite !lookup_insert.
    pose proof (triple_unseen gtis itg a b p Hi (or_introl Ha)) as Hit0.
    clear -Ha Hb Hit0. close_items.
Qed.


Lemma chained_rows (strictness : option flag_col) (lines : list line)
    (l l' : line) :
  chained strictness lines l l' →
  (l ∈ lines ∧ row_taken strictness l = true)
  ∧ (l' ∈ lines ∧ row_taken strictness l' = true).
Proof. induction 1; tauto. Qed.

(** Two rows taken that share a tuple or an id are chained. *)
Lemma touching_chained (strictness : option flag_col) (lines : list line)
    (l l' : line) (x : item) :
  l ∈ lines → row_taken strictness l = true →
  l' ∈ lines → row_taken strictness l' = true →
  x ∈ pair_items l → x ∈ pair_items l' → chained strictness lines l l'.
Proof.
  intros Hl Ht Hl' Ht'. unfold pair_items, pair_item.
  rewrite !elem_of_union, !elem_of_singleton.
  intros [[->| ->]| ->] [[Heq|Heq]|Heq]; try discriminate Heq;
    injection Heq as Heq; try discriminate Heq;
    [apply chained_a|apply chained_a|apply chained_b]; try done;
    injection Heq; auto.
Qed.

Section RelationM2M.

Context (R : item → item → Prop).
Hypothesis Rsym : ∀ x y, R x y → R y x.
Hypothesis Rtrans : ∀ x y z, R x y → R y z → R x z.

(** [add_item_M2M] of a pair whose tuple is related to its two ids,
    under a group name not in use: items under one name stay related. *)
Lemma add_item_M2M_related (uf uf' : t) (group : nat) (a b p : string) :
  wf uf → group ∉ groups uf →
  add_item_M2M group (a, b) p uf = Ok uf' →
  R (Triple a b p) (Triple a b p) →
  R (Triple a b p) (Atom a) → R (Triple a b p) (Atom b) →
  (∀ x y, same_group uf x y → R x y) →
  ∀ x y, same_group uf' x y → R x y.
Proof.
  intros Hwf Hf Hop Htt Hta Htb Hs.
  destruct (add_item_M2M_items uf group a b p Hwf Hf) as (u & c & Hop' & Hc & Hitg).
  rewrite Hop in Hop'. injection Hop' as <-.
  assert (∀ x, (x = Triple a b p ∨ x = Atom a ∨ x = Atom b)
               ∨ (is_Some (item_to_group uf !! x)
                  ∧ (item_to_group uf !! x = item_to_group uf !! Atom a
                     ∨ item_to_group uf !! x = item_to_group uf !! Atom b)) →
            R x (Triple a b p)) as Hm.
  { intros x [[->|[->| ->]]|[[k Hk] [Hx|Hx]]]; auto.
    - apply Rtrans with (Atom a); [|by auto]. apply Hs. exists k.
      split; [done|congruence].
    - apply Rtrans with (Atom b); [|by auto]. apply Hs. exists k.
      split; [done|congruence]. }
  assert (∀ y, item_to_group uf !! y = Some c →
            (y = Triple a b p ∨ y = Atom a ∨ y = Atom b)
            ∨ (is_Some (item_to_group uf !! y)
               ∧ (item_to_group uf !! y = item_to_group uf !! Atom a
                  ∨ item_to_group uf !! y = item_to_group uf !! Atom b))) as Hin.
  { intros y Hy. right. split; [eauto|]. destruct (Hc y Hy); [left|right]; congruence. }
  intros x y (k & Hx & Hy). rewrite Hitg in Hx, Hy.
  case_decide as Hcx; case_decide as Hcy; simplify_eq;
    try (exfalso; first [by apply Hcx, Hin|by apply Hcy, Hin]).
  - apply Rtrans with (Triple a b p); auto.
  - apply Hs. by exists k.
Qed.

Lemma add_csv_related_M2M (lines : list line) (s : option flag_col)
    (rowid rowid' : nat) (uf uf' : t) :
  wf uf → (∀ g, g ∈ groups uf → g < rowid) →
  add_csv lines MT_M2M s rowid uf = Ok (rowid', uf') →
  (∀ l, l ∈ lines → row_taken s l = true →
     ∀ x, x ∈ pair_items l → R (pair_item l) x) →
  (∀ x y, same_group uf x y → R x y) →
  wf uf' ∧ ∀ x y, same_group uf' x y → R x y.
Proof.
  revert rowid uf. induction lines as [|r rest IH]; intros rowid uf Hwf Hb.
  { simpl. by intros [= <- <-]. }
  cbn [add_csv]. destruct (row_taken s r) eqn:Ht.
  - intros (u1 & H1 & Hrest)%rbind_ok Hrows Hs.
    assert (rowid ∉ groups uf) as Hf by (intros Hin%Hb; lia).
    destruct (add_item_M2M_wf uf rowid ("a_" ++ strip (indv_id_a r))
                ("b_" ++ strip (indv_id_b r)) (passnum r) Hwf Hf)
      as (u1' & H1' & Hwf1 & Hg1).
    rewrite H1 in H1'. injection H1' as <-.
    assert (∀ x, x ∈ pair_items r → R (pair_item r) x) as Hr.
    { apply Hrows; [apply list_elem_of_here|done]. }
    apply (IH (S rowid) u1); [done| |done| |].
    + intros g Hin. apply Hg1 in Hin. apply elem_of_union in Hin as [Hin|Hin].
      * apply Hb in Hin. lia.
      * apply elem_of_singleton in Hin. lia.
    + intros l Hl. apply Hrows. by apply list_elem_of_further.
    + apply (add_item_M2M_related uf u1 rowid _ _ _ Hwf Hf H1); [..|done];
        apply Hr; unfold pair_items, pair_item; set_solver.
  - intros Hrest Hrows Hs.
    apply (IH rowid uf); [done..| |done].
    intros l Hl. apply Hrows. by apply list_elem_of_further.
Qed.

End RelationM2M.

(** X12. On a pair file with ASCII ids and flags the resolver of an
    M2M match returns, and two rows of its crosswalk have the same CH_id only if
    they are made of two rows taken that a chain of rows taken links,
    each row of the chain sharing its indv_id_a or its indv_id_b with
    the next (blanks around the ids removed). *)
Theorem m2m_groups_chained (lines : list line) (strictness : option flag_col)
    (all_ids : option (list string)) :
  ascii_cells lines = true →
  ∃ d, mtom_or_dedup_matching lines MT_M2M strictness all_ids = Ok d
    ∧ ∀ items, lists_dict items d →
        ∀ a b i g a' b' g',
          [CStr a; CStr b; CInt i; CInt g] ∈ write_groups_rows MT_M2M 0 items →
          [CStr a'; CStr b'; CInt i; CInt g'] ∈ write_groups_rows MT_M2M 0 items →
          ∃ l l', chained strictness lines l l'
            ∧ strip (indv_id_a l) = a ∧ strip (indv_id_b l) = b
            ∧ strip (indv_id_a l') = a' ∧ strip (indv_id_b l') = b'.
Proof.
  intros _. set (R := chained_items strictness lines).
  assert (∀ x y, R x y → R y x) as Rsym.
  { intros x y (l & l' & Hx & Hy & H). exists l', l. split_and!; [done..|].
    by apply chained_sym. }
  assert (∀ x y z, R x y → R y z → R x z) as Rtrans.
  { intros x y z (l1 & l2 & Hx & Hy & H) (l3 & l4 & Hy' & Hz & H').
    exists l1, l4. split_and!; [done..|].
    destruct (chained_rows _ _ _ _ H) as [_ [? ?]].
    destruct (chained_rows _ _ _ _ H') as [[? ?] _].
    apply chained_trans with l2; [done|]. apply chained_trans with l3; [|done].
    by apply touching_chained with y. }
  unfold mtom_or_dedup_matching.
  destruct (add_csv_spec lines MT_M2M strictness 0 init reach_init)
    as (rowid & uf & Hcsv & _).
  { intros g. unfold groups. simpl. rewrite !dom_empty_L. set_solver. }
  rewrite Hcsv. cbn [rbind].
  destruct (add_csv_related_M2M R Rsym Rtrans lines strictness 0 rowid init uf)
    as ([Hi Hg] & Hs); [apply wf_init| |done| | |].
  { intros g. unfold groups. simpl. rewrite !dom_empty_L. set_solver. }
  { intros l Hl Ht x Hx. exists l, l. split_and!; [|done|].
    - unfold pair_items. set_solver.
    - by apply chained_a. }
  { intros x y (g & Hx & _). simpl in Hx. by rewrite lookup_empty in Hx. }
  exists (group_to_item_set uf). split; [done|].
  intros items Hitems a b i g a' b' g'
    (k & g1 & l1 & x & y & p & Hk & Hx & Heq)%elem_of_write_groups_rows_M2M
    (k' & g2 & l2 & x' & y' & p' & Hk' & Hx' & Heq')%elem_of_write_groups_rows_M2M.
  injection Heq as -> -> -> ->. injection Heq' as -> -> Hkk ->.
  simpl in Hkk. subst k'. rewrite Hk in Hk'. injection Hk' as <- <-.
  destruct (lists_dict_lookup _ _ _ _ _ _ Hitems Hk Hx) as (sg & Hsg & Hin).
  destruct (lists_dict_lookup _ _ _ _ _ _ Hitems Hk Hx') as (sg' & Hsg' & Hin').
  rewrite Hsg in Hsg'. injection Hsg' as <-.
  destruct (Hs (Triple x y p) (Triple x' y' p')) as (l & l' & Hl & Hl' & Hch).
  { exists g1. split; by eapply wf_group. }
  exists l, l'. split; [done|].
  unfold pair_items, pair_item in Hl, Hl'.
  rewrite !elem_of_union, !elem_of_singleton in Hl, Hl'.
  destruct Hl as [[Hl|Hl]|Hl]; try discriminate Hl.
  destruct Hl' as [[Hl'|Hl']|Hl']; try discriminate Hl'.
  injection Hl as -> -> _. injection Hl' as -> -> _. done.
Qed.

Lemma m2m_groups_chained_witness :
  let lines := [mk_line "1" "2" "11.9" "0" (λ _, None);
                mk_line "4" "5" "11.2" "0" (λ _, None);
                mk_line " 1" "5 " "10.5" "1" (λ _, None)] in
  ascii_cells lines = true
  ∧ ∃ d, mtom_or_dedup_matching lines MT_M2M None None = Ok d.
Proof.
  intros lines. split; [reflexivity|].
  destruct (m2m_groups_chained lines None None eq_refl) as (d & Hd & _).
  exists d. exact Hd.
Defined.

End Components.
